(** * Whiteboard: z-order restacking, undo/redo history and shape geometry

    A shallow embedding of the direct-manipulation core of the whiteboard
    editor, with the properties its specification states about it:

    - [src/zindex.ts]: [moveOneLeft], [moveOneRight], [moveAllLeft],
      [moveAllRight] on a JavaScript array;
    - [src/history.ts]: the [SceneHistory] undo and redo stacks;
    - [src/element/bounds.ts], [src/element/collision.ts]: diamond and arrow
      geometry and the hit test;
    - [src/index.tsx]: the resize of an element by the handles of its box;
    - [src/element/bounds.ts], [src/scene/comparisons.ts]: bounding boxes and
      the element at a position.

    Array indices are integers ([Z]): the code computes [index - 1] and
    [pos - i], which leave the valid range.  Coordinates are JavaScript
    numbers, that is IEEE 754 doubles.  The geometry is embedded twice.
    [Geometry], [Bounds], [Resize] and [CornerResize] compute with exact
    real numbers, with one extra value for [NaN] (see [num] below): they
    carry the statements about the values that the code computes, up to
    rounding.  [Float64] computes with doubles: it carries the statements
    about what a comparison with a threshold answers, which rounding can
    change. *)

From Stdlib Require Import List ZArith Lia Bool Permutation Sorted.
From Stdlib Require Import String Ascii.
From Stdlib Require Import Reals Lra.
From Stdlib Require QArith Qpower Floats.
Import ListNotations.

Set Warnings "-register-all".

(** ** JavaScript arrays *)

Module JsArray.
Section Array.
Context {T : Type}.

(** An array of [T]: [slots] are the values at the indices
    [0 .. length - 1], where [None] is [undefined] (a hole reads as
    [undefined] too, and the code below only ever indexes the array).
    [props] keeps what was stored under a negative key: such a key is an
    ordinary property, not a slot, and storing it leaves [length] alone. *)
Record jsarray : Type := mkArray {
  slots : list (option T);
  props : list (Z * option T)
}.

Definition of_list (l : list T) : jsarray :=
  {| slots := map Some l; props := [] |}.

Definition length (a : jsarray) : Z := Z.of_nat (List.length (slots a)).

Fixpoint lookup_prop (k : Z) (ps : list (Z * option T)) : option T :=
  match ps with
  | [] => None
  | (k', v) :: ps' => if Z.eqb k k' then v else lookup_prop k ps'
  end.

(** [a[i]]: out of range it is [undefined]. *)
Definition aget (a : jsarray) (i : Z) : option T :=
  if Z.ltb i 0 then lookup_prop i (props a)
  else nth (Z.to_nat i) (slots a) None.

(** Writing slot [n]: past the end the array grows, the slots in between
    being holes. *)
Fixpoint set_slot (l : list (option T)) (n : nat) (v : option T)
  : list (option T) :=
  match l, n with
  | [], O => [v]
  | [], S n' => None :: set_slot [] n' v
  | _ :: l', O => v :: l'
  | x :: l', S n' => x :: set_slot l' n' v
  end.

(** [a[i] = v]. *)
Definition aset (a : jsarray) (i : Z) (v : option T) : jsarray :=
  if Z.ltb i 0 then {| slots := slots a; props := (i, v) :: props a |}
  else {| slots := set_slot (slots a) (Z.to_nat i) v; props := props a |}.
End Array.
Arguments jsarray T : clear implicits.
End JsArray.

(** ** [src/zindex.ts] *)

Module ZIndex.
Import JsArray.

(** [indices.sort((a, b) => a - b)] and [indices.sort((a, b) => b - a)]:
    on numbers the outcome of a sort is fixed by the comparator, so a plain
    insertion sort stands for the engine's algorithm. *)
Fixpoint insertAsc (x : Z) (l : list Z) : list Z :=
  match l with
  | [] => [x]
  | y :: l' => if Z.leb x y then x :: l else y :: insertAsc x l'
  end.

Definition sortAsc (l : list Z) : list Z := fold_right insertAsc [] l.

Fixpoint insertDesc (x : Z) (l : list Z) : list Z :=
  match l with
  | [] => [x]
  | y :: l' => if Z.leb y x then x :: l else y :: insertDesc x l'
  end.

Definition sortDesc (l : list Z) : list Z := fold_right insertDesc [] l.

Section Restack.
Context {T : Type}.
Local Open Scope Z_scope.

(** [const swap = (elements, indexA, indexB) => ...] *)
Definition swap (elements : jsarray T) (indexA indexB : Z) : jsarray T :=
  let element := aget elements indexA in
  let elements := aset elements indexA (aget elements indexB) in
  aset elements indexB element.

(** The [forEach] of [moveOneLeft], from position [i] of the sorted
    indices on; [isSorted] is the flag the callback updates. *)
Fixpoint moveOneLeft_each (elements : jsarray T) (isSorted : bool) (i : Z)
    (indices : list Z) : jsarray T :=
  match indices with
  | [] => elements
  | index :: rest =>
      let isSorted := isSorted && Z.eqb index i in
      if isSorted then moveOneLeft_each elements isSorted (i + 1) rest
      else moveOneLeft_each (swap elements (index - 1) index)
             isSorted (i + 1) rest
  end.

Definition moveOneLeft (elements : jsarray T) (indicesToMove : list Z)
  : jsarray T :=
  let indicesToMove := sortAsc indicesToMove in
  moveOneLeft_each elements true 0 indicesToMove.

Fixpoint moveOneRight_each (elements : jsarray T) (isSorted : bool) (i : Z)
    (indices : list Z) : jsarray T :=
  match indices with
  | [] => elements
  | index :: rest =>
      let isSorted := isSorted && Z.eqb index (length elements - i - 1) in
      if isSorted then moveOneRight_each elements isSorted (i + 1) rest
      else moveOneRight_each (swap elements (index + 1) index)
             isSorted (i + 1) rest
  end.

Definition moveOneRight (elements : jsarray T) (indicesToMove : list Z)
  : jsarray T :=
  let reversedIndicesToMove := sortDesc indicesToMove in
  moveOneRight_each elements true 0 reversedIndicesToMove.

(** [for (let pos = start; pos >= index; --pos) elements[pos + i] =
    elements[pos]], with [count] the number of iterations left. *)
Fixpoint shiftRight (count : nat) (elements : jsarray T) (pos i : Z)
  : jsarray T :=
  match count with
  | O => elements
  | S count' =>
      shiftRight count' (aset elements (pos + i) (aget elements pos))
        (pos - 1) i
  end.

(** The [forEach] over [reversedIndicesToMove] in [moveAllLeft]; [markers]
    is the whole array, read at [i - 1], and [todo] what is left of it from
    position [i] on. *)
Fixpoint moveAllLeft_each (elements : jsarray T) (markers : list Z)
    (i : nat) (todo : list Z) : jsarray T :=
  match todo with
  | [] => elements
  | index :: rest =>
      match i with
      | O => moveAllLeft_each elements markers 1 rest
      | S i' =>
          let start := nth i' markers 0 - 1 in
          let elements :=
            shiftRight (Z.to_nat (start - index + 1)) elements start
              (Z.of_nat i) in
          moveAllLeft_each elements markers (S i) rest
      end
  end.

(** [saved.forEach((element, i) => { elements[i] = element; })] *)
Fixpoint restoreLeft (elements : jsarray T) (i : Z)
    (saved : list (option T)) : jsarray T :=
  match saved with
  | [] => elements
  | element :: rest => restoreLeft (aset elements i element) (i + 1) rest
  end.

Definition moveAllLeft (elements : jsarray T) (indicesToMove : list Z)
  : jsarray T :=
  let indicesToMove := sortAsc indicesToMove in
  let leftMostElements := map (aget elements) indicesToMove in
  let reversedIndicesToMove := rev indicesToMove ++ [0] in
  let elements :=
    moveAllLeft_each elements reversedIndicesToMove 0
      reversedIndicesToMove in
  restoreLeft elements 0 leftMostElements.

(** [for (let pos = start; pos < index; ++pos) elements[pos - i] =
    elements[pos]] *)
Fixpoint shiftLeft (count : nat) (elements : jsarray T) (pos i : Z)
  : jsarray T :=
  match count with
  | O => elements
  | S count' =>
      shiftLeft count' (aset elements (pos - i) (aget elements pos))
        (pos + 1) i
  end.

Fixpoint moveAllRight_each (elements : jsarray T) (markers : list Z)
    (i : nat) (todo : list Z) : jsarray T :=
  match todo with
  | [] => elements
  | index :: rest =>
      match i with
      | O => moveAllRight_each elements markers 1 rest
      | S i' =>
          let start := nth i' markers 0 + 1 in
          let elements :=
            shiftLeft (Z.to_nat (index - start)) elements start
              (Z.of_nat i) in
          moveAllRight_each elements markers (S i) rest
      end
  end.

(** [saved.forEach((element, i) => { elements[elements.length - i - 1] =
    element; })] *)
Fixpoint restoreRight (elements : jsarray T) (i : Z)
    (saved : list (option T)) : jsarray T :=
  match saved with
  | [] => elements
  | element :: rest =>
      restoreRight (aset elements (length elements - i - 1) element)
        (i + 1) rest
  end.

Definition moveAllRight (elements : jsarray T) (indicesToMove : list Z)
  : jsarray T :=
  let reversedIndicesToMove := sortDesc indicesToMove in
  let rightMostElements := map (aget elements) reversedIndicesToMove in
  let indicesToMove := rev reversedIndicesToMove ++ [length elements] in
  let elements :=
    moveAllRight_each elements indicesToMove 0 indicesToMove in
  restoreRight elements 0 rightMostElements.
End Restack.
End ZIndex.

(** ** [JSON.parse]

    [SceneHistory.restoreEntry] calls the platform's [JSON.parse].  It is
    modelled by a recursive-descent parser of the JSON grammar over the
    characters of the entry.  A number keeps its lexeme and a string its
    code units. *)

Module Json.
Local Open Scope char_scope.

Inductive json : Type :=
| JNull
| JBool (b : bool)
| JNumber (lexeme : list ascii)
| JString (units : list N)
| JArray (items : list json)
| JObject (members : list (list N * json)).

Definition isWs (c : ascii) : bool :=
  match c with
  | " " | "009" | "010" | "013" => true
  | _ => false
  end.

Fixpoint skipWs (s : list ascii) : list ascii :=
  match s with
  | c :: s' => if isWs c then skipWs s' else s
  | [] => []
  end.

(** What follows [word] when [s] starts with it. *)
Fixpoint stripPrefix (word s : list ascii) : option (list ascii) :=
  match word, s with
  | [], _ => Some s
  | c :: word', d :: s' =>
      if Ascii.eqb c d then stripPrefix word' s' else None
  | _ :: _, [] => None
  end.

Definition isDigit (c : ascii) : bool :=
  let n := N_of_ascii c in (N.leb 48 n && N.leb n 57)%bool.

Definition hexValue (c : ascii) : option N :=
  let n := N_of_ascii c in
  if (N.leb 48 n && N.leb n 57)%bool then Some (n - 48)%N
  else if (N.leb 65 n && N.leb n 70)%bool then Some (n - 55)%N
  else if (N.leb 97 n && N.leb n 102)%bool then Some (n - 87)%N
  else None.

(** The digits at the head of [s], and what follows them. *)
Fixpoint spanDigits (s : list ascii) : list ascii * list ascii :=
  match s with
  | c :: s' =>
      if isDigit c then let (ds, r) := spanDigits s' in (c :: ds, r)
      else ([], s)
  | [] => ([], [])
  end.

(** The character [c] when [s] starts with it. *)
Definition optionalChar (c : ascii) (s : list ascii)
  : list ascii * list ascii :=
  match stripPrefix [c] s with
  | Some r => ([c], r)
  | None => ([], s)
  end.

(** [0] or a digit that is not [0] followed by digits. *)
Definition parseInt (s : list ascii) : option (list ascii * list ascii) :=
  let (int, r) := spanDigits s in
  match int with
  | [] => None
  | [_] => Some (int, r)
  | d :: _ :: _ => if Ascii.eqb d "0" then None else Some (int, r)
  end.

(** A point and digits, or nothing. *)
Definition parseFrac (s : list ascii) : option (list ascii * list ascii) :=
  match stripPrefix ["."] s with
  | Some r =>
      let (ds, r') := spanDigits r in
      match ds with
      | [] => None
      | _ :: _ => Some ("." :: ds, r')
      end
  | None => Some ([], s)
  end.

(** [e] or [E], a sign or none, and digits; or nothing. *)
Definition parseExp (s : list ascii) : option (list ascii * list ascii) :=
  let (e, r) :=
    match optionalChar "e" s with
    | ([], _) => optionalChar "E" s
    | found => found
    end in
  match e with
  | [] => Some ([], s)
  | _ :: _ =>
      let (esign, r1) :=
        match optionalChar "+" r with
        | ([], _) => optionalChar "-" r
        | found => found
        end in
      let (ds, r2) := spanDigits r1 in
      match ds with
      | [] => None
      | _ :: _ => Some (e ++ esign ++ ds, r2)
      end
  end.

(** [-? int frac? exp?] *)
Definition parseNumber (s : list ascii) : option (list ascii * list ascii) :=
  let (sign, s1) := optionalChar "-" s in
  match parseInt s1 with
  | Some (int, s2) =>
      match parseFrac s2 with
      | Some (fr, s3) =>
          match parseExp s3 with
          | Some (ex, s4) => Some (sign ++ int ++ fr ++ ex, s4)
          | None => None
          end
      | None => None
      end
  | None => None
  end.

(** The code unit that the escape [\c] stands for. *)
Definition escapeUnit (c : ascii) : option N :=
  match c with
  | "034" => Some 34%N
  | "\" => Some 92%N
  | "/" => Some 47%N
  | "b" => Some 8%N
  | "f" => Some 12%N
  | "n" => Some 10%N
  | "r" => Some 13%N
  | "t" => Some 9%N
  | _ => None
  end.

Definition hexUnit (h1 h2 h3 h4 : ascii) : option N :=
  match hexValue h1, hexValue h2, hexValue h3, hexValue h4 with
  | Some a, Some b, Some c, Some d =>
      Some (((a * 16 + b) * 16 + c) * 16 + d)%N
  | _, _, _, _ => None
  end.

(** The characters of a string after its opening quote, up to the closing
    one. *)
Fixpoint parseChars (s : list ascii) (acc : list N)
  : option (list N * list ascii) :=
  match s with
  | [] => None
  | c :: r =>
      if Ascii.eqb c "034" then Some (rev acc, r)
      else if Ascii.eqb c "\" then
        match r with
        | [] => None
        | e :: r' =>
            match escapeUnit e with
            | Some unit => parseChars r' (unit :: acc)
            | None =>
                if Ascii.eqb e "u" then
                  match r' with
                  | h1 :: h2 :: h3 :: h4 :: r'' =>
                      match hexUnit h1 h2 h3 h4 with
                      | Some unit => parseChars r'' (unit :: acc)
                      | None => None
                      end
                  | _ => None
                  end
                else None
            end
        end
      else if N.ltb (N_of_ascii c) 32 then None
      else parseChars r (N_of_ascii c :: acc)
  end.

(** [parseValue] reads one value and the white space after it;
    [parseElements] the elements of an array up to its bracket;
    [parseMembers] the members of an object up to its brace.  [fuel] bounds
    the nesting and the number of items: twice the length of the text, and
    one more, is enough ([parseValue_fuel] below). *)
Fixpoint parseValue (fuel : nat) (s : list ascii) {struct fuel}
  : option (json * list ascii) :=
  match fuel with
  | O => None
  | S fuel' =>
      let s := skipWs s in
      match stripPrefix ["n"; "u"; "l"; "l"] s,
            stripPrefix ["t"; "r"; "u"; "e"] s,
            stripPrefix ["f"; "a"; "l"; "s"; "e"] s,
            stripPrefix ["034"] s,
            stripPrefix ["["] s,
            stripPrefix ["{"] s with
      | Some r, _, _, _, _, _ => Some (JNull, skipWs r)
      | None, Some r, _, _, _, _ => Some (JBool true, skipWs r)
      | None, None, Some r, _, _, _ => Some (JBool false, skipWs r)
      | None, None, None, Some r, _, _ =>
          match parseChars r [] with
          | Some (str, r') => Some (JString str, skipWs r')
          | None => None
          end
      | None, None, None, None, Some r, _ =>
          match stripPrefix ["]"] (skipWs r) with
          | Some r' => Some (JArray [], skipWs r')
          | None =>
              match parseElements fuel' (skipWs r) [] with
              | Some (items, r') => Some (JArray items, skipWs r')
              | None => None
              end
          end
      | None, None, None, None, None, Some r =>
          match stripPrefix ["}"] (skipWs r) with
          | Some r' => Some (JObject [], skipWs r')
          | None =>
              match parseMembers fuel' (skipWs r) [] with
              | Some (members, r') => Some (JObject members, skipWs r')
              | None => None
              end
          end
      | None, None, None, None, None, None =>
          match parseNumber s with
          | Some (lexeme, r) => Some (JNumber lexeme, skipWs r)
          | None => None
          end
      end
  end
with parseElements (fuel : nat) (s : list ascii) (acc : list json)
       {struct fuel} : option (list json * list ascii) :=
  match fuel with
  | O => None
  | S fuel' =>
      match parseValue fuel' s with
      | Some (v, r) =>
          match stripPrefix [","] r, stripPrefix ["]"] r with
          | Some r', _ => parseElements fuel' r' (v :: acc)
          | None, Some r' => Some (rev (v :: acc), r')
          | None, None => None
          end
      | None => None
      end
  end
with parseMembers (fuel : nat) (s : list ascii) (acc : list (list N * json))
       {struct fuel} : option (list (list N * json) * list ascii) :=
  match fuel with
  | O => None
  | S fuel' =>
      match stripPrefix ["034"] (skipWs s) with
      | Some r =>
          match parseChars r [] with
          | Some (key, r') =>
              match stripPrefix [":"] (skipWs r') with
              | Some r'' =>
                  match parseValue fuel' r'' with
                  | Some (v, r3) =>
                      match stripPrefix [","] r3, stripPrefix ["}"] r3 with
                      | Some r4, _ =>
                          parseMembers fuel' r4 ((key, v) :: acc)
                      | None, Some r4 => Some (rev ((key, v) :: acc), r4)
                      | None, None => None
                      end
                  | None => None
                  end
              | None => None
              end
          | None => None
          end
      | None => None
      end
  end.

(** [JSON.parse(text)]: [None] stands for the [SyntaxError] it throws. *)
Definition parse (text : string) : option json :=
  let s := list_ascii_of_string text in
  match parseValue (2 * List.length s + 1) s with
  | Some (v, []) => Some v
  | _ => None
  end.
End Json.

(** ** [src/history.ts] *)

Module History.
Import Json.

(** The state of a [SceneHistory] object.  [stateHistory] and [redoStack]
    are arrays used as stacks: [push] appends and [pop] takes the last
    entry. *)
Record SceneHistory : Type := mkHistory {
  recording : bool;
  stateHistory : list string;
  redoStack : list string
}.

Definition createHistory : SceneHistory :=
  {| recording := true; stateHistory := []; redoStack := [] |}.

(** [array[array.length - 1]]: [undefined] on the empty array. *)
Definition top (stack : list string) : option string :=
  nth_error stack (List.length stack - 1).

(** [array.pop()]: the last entry and the array without it. *)
Definition pop (stack : list string) : option (string * list string) :=
  match top stack with
  | Some e => Some (e, removelast stack)
  | None => None
  end.

(** [this.redoStack.splice(0, this.redoStack.length)] *)
Definition clearRedoStack (h : SceneHistory) : SceneHistory :=
  {| recording := recording h;
     stateHistory := stateHistory h;
     redoStack := [] |}.

Definition pushEntry (h : SceneHistory) (newEntry : string) : SceneHistory :=
  if (Nat.ltb 0 (List.length (stateHistory h))
      && match top (stateHistory h) with
         | Some e => String.eqb e newEntry
         | None => false
         end)%bool
  then h
  else
    clearRedoStack
      {| recording := recording h;
         stateHistory := stateHistory h ++ [newEntry];
         redoStack := redoStack h |}.

(** [restoreEntry(entry)]: the parsed entry, or [null] when [JSON.parse]
    throws.  The argument is [undefined] when [undoOnce] has emptied the
    stack; [JSON.parse] then reads the text ["undefined"]. *)
Definition restoreEntry (entry : option string) : json :=
  let text := match entry with Some s => s | None => "undefined"%string end in
  match parse text with
  | Some v => v
  | None => JNull
  end.

(** Both operations return the restored value ([JNull] is [null]) and the
    new state of the object. *)
Definition redoOnce (h : SceneHistory) : json * SceneHistory :=
  if Nat.eqb (List.length (redoStack h)) 0 then (JNull, h)
  else
    match pop (redoStack h) with
    | Some (entryToRestore, rest) =>
        (restoreEntry (Some entryToRestore),
         {| recording := recording h;
            stateHistory := stateHistory h ++ [entryToRestore];
            redoStack := rest |})
    | None => (JNull, h)
    end.

Definition undoOnce (h : SceneHistory) : json * SceneHistory :=
  if Nat.eqb (List.length (stateHistory h)) 0 then (JNull, h)
  else
    match pop (stateHistory h) with
    | Some (currentEntry, rest) =>
        let entryToRestore := top rest in
        (restoreEntry entryToRestore,
         {| recording := recording h;
            stateHistory := rest;
            redoStack := redoStack h ++ [currentEntry] |})
    | None => (JNull, h)
    end.

Definition isRecording (h : SceneHistory) : bool := recording h.

Definition skipRecording (h : SceneHistory) : SceneHistory :=
  {| recording := false;
     stateHistory := stateHistory h;
     redoStack := redoStack h |}.

Definition resumeRecording (h : SceneHistory) : SceneHistory :=
  {| recording := true;
     stateHistory := stateHistory h;
     redoStack := redoStack h |}.
End History.

(** ** JavaScript numbers *)

Module Number.
Local Open Scope R_scope.

(** The exact model of a number: a real or [NaN].  [undefined] becomes
    [NaN] as soon as it enters an arithmetic operation, and every comparison
    with [NaN] is false.  There are no infinities: the only division by zero
    that the code below can reach is [0 / 0] in [getArrowPoints] (its divisor
    is the length of the vector it divides), which is [NaN].

    The operations below are the exact ones: where the code computes [a + b]
    in a double, [nadd] gives the sum that the double approximates, without
    its rounding and without overflow.  What is proved with them is a
    statement about these exact values (a length, a coordinate, a distance
    and the margin by which it passes a threshold).  What the code answers
    at a point whose distance to a threshold is within the rounding error is
    not settled here: for that see [Float64], where the same functions
    compute with doubles. *)
Inductive num : Type :=
| Fin (r : R)
| NaN.

Coercion Fin : R >-> num.

Definition lift1 (f : R -> R) (a : num) : num :=
  match a with
  | Fin a => Fin (f a)
  | NaN => NaN
  end.

Definition lift2 (f : R -> R -> R) (a b : num) : num :=
  match a, b with
  | Fin a, Fin b => Fin (f a b)
  | _, _ => NaN
  end.

Definition nadd : num -> num -> num := lift2 Rplus.
Definition nsub : num -> num -> num := lift2 Rminus.
Definition nmul : num -> num -> num := lift2 Rmult.

Definition ndiv (a b : num) : num :=
  match a, b with
  | Fin a, Fin b => if Req_dec_T b 0 then NaN else Fin (a / b)
  | _, _ => NaN
  end.

(** [a < b], [a > b], [a <= b], [a >= b] and [a !== b] *)
Definition nlt (a b : num) : bool :=
  match a, b with
  | Fin a, Fin b => if Rlt_dec a b then true else false
  | _, _ => false
  end.

Definition ngt (a b : num) : bool := nlt b a.

Definition nle (a b : num) : bool :=
  match a, b with
  | Fin a, Fin b => if Rle_dec a b then true else false
  | _, _ => false
  end.

Definition nge (a b : num) : bool := nle b a.

Definition nneq (a b : num) : bool :=
  match a, b with
  | Fin a, Fin b => if Req_dec_T a b then false else true
  | _, _ => true
  end.

(** [Math.hypot], [Math.floor], [Math.min], unary minus, [Math.cos],
    [Math.sin] *)
Definition hypot : num -> num -> num :=
  lift2 (fun a b => sqrt (a * a + b * b)).

Definition floor : num -> num := lift1 (fun a => IZR (Int_part a)).

Definition nmin : num -> num -> num := lift2 Rmin.

Definition nopp : num -> num := lift1 Ropp.

Definition ncos : num -> num := lift1 cos.
Definition nsin : num -> num := lift1 sin.

(** [const [.., v, ..] = array]: the item at position [k], [undefined] past
    the end. *)
Definition item (array : list num) (k : nat) : num := nth k array NaN.

Declare Scope num_scope.
Delimit Scope num_scope with num.
Bind Scope num_scope with num.
Infix "+" := nadd : num_scope.
Infix "-" := nsub : num_scope.
Infix "*" := nmul : num_scope.
Infix "/" := ndiv : num_scope.
Infix "<?" := nlt (at level 70, no associativity) : num_scope.
Infix ">?" := ngt (at level 70, no associativity) : num_scope.
Infix "<=?" := nle (at level 70, no associativity) : num_scope.
Infix ">=?" := nge (at level 70, no associativity) : num_scope.
Infix "!==" := nneq (at level 70, no associativity) : num_scope.
End Number.

(** ** Elements *)

Module Element.
(** The fields of [ExcalidrawElement] that the geometry reads.  [points]
    are relative to [(x, y)]. *)
Record t : Type := mk {
  type : string;
  x : R;
  y : R;
  width : R;
  height : R;
  backgroundColor : string;
  points : list (R * R)
}.
End Element.

(** What a call does: it returns a value or throws. *)
Inductive outcome (A : Type) : Type :=
| Returns (a : A)
| Throws (error : string).
Arguments Returns {A} a.
Arguments Throws {A} error.

(** ** [src/math.ts], [src/element/bounds.ts], [src/element/collision.ts]

    [bounds.ts] and [collision.ts] import [rotate] and
    [distanceBetweenPointAndSegment] from [../math]; the two functions are
    taken from the application source that defines them. *)

Module Geometry.
Import Number.
Local Open Scope string_scope.
Local Open Scope num_scope.

Definition rotate (x1 y1 x2 y2 angle : num) : num * num :=
  ((x1 - x2) * ncos angle - (y1 - y2) * nsin angle + x2,
   (x1 - x2) * nsin angle + (y1 - y2) * ncos angle + y2).

Definition distanceBetweenPointAndSegment (x y x1 y1 x2 y2 : num) : num :=
  let A := x - x1 in
  let B := y - y1 in
  let C := x2 - x1 in
  let D := y2 - y1 in
  let dot := A * C + B * D in
  let lenSquare := C * C + D * D in
  let param := if lenSquare !== Fin 0 then dot / lenSquare else Fin (-1) in
  let '(xx, yy) :=
    if param <? Fin 0 then (x1, y1)
    else if param >? Fin 1 then (x2, y2)
    else (x1 + param * C, y1 + param * D) in
  let dx := x - xx in
  let dy := y - yy in
  hypot dx dy.

Definition getDiamondPoints (element : Element.t) : list num :=
  let topX := floor (Fin (Element.width element) / Fin 2) + Fin 1 in
  let topY := Fin 0 in
  let rightX := Fin (Element.width element) in
  let rightY := floor (Fin (Element.height element) / Fin 2) + Fin 1 in
  let bottomX := topX in
  let bottomY := Fin (Element.height element) in
  let leftX := topY in
  let leftY := rightY in
  [topX; topY; rightX; rightY; bottomX; bottomY; leftX; leftY].

(** [points.reduce((total, [cx, cy], idx, points) => ..., 0)] of
    [getArrowPoints]: the callback at position [idx], and the reduction over
    the positions of [points]. *)
Definition arrowLength_callback (points : list (R * R)) (total : num)
    (idx : nat) : num :=
  let '(cx, cy) := nth idx points (0%R, 0%R) in
  let '(px, py) :=
    if Nat.ltb 0 idx then nth (idx - 1) points (0%R, 0%R)
    else (0%R, 0%R) in
  total + hypot (Fin cx - Fin px) (Fin cy - Fin py).

Definition arrowLength (points : list (R * R)) : num :=
  fold_left (arrowLength_callback points) (seq 0 (List.length points))
    (Fin 0).

(** [None]: destructuring [points[points.length - 1]] throws a [TypeError]
    when there is no point. *)
Definition getArrowPoints (element : Element.t) : option (list num) :=
  let points := Element.points element in
  let '(x1, y1) :=
    if Nat.leb 2 (List.length points)
    then nth (List.length points - 2) points (0%R, 0%R)
    else (0%R, 0%R) in
  match nth_error points (List.length points - 1) with
  | None => None
  | Some (x2, y2) =>
      let size := Fin 30 in
      let distance := hypot (Fin x2 - Fin x1) (Fin y2 - Fin y1) in
      let minSize := nmin size (arrowLength points / Fin 2) in
      let xs := Fin x2 - ((Fin x2 - Fin x1) / distance) * minSize in
      let ys := Fin y2 - ((Fin y2 - Fin y1) / distance) * minSize in
      let angle := Fin 20 in
      let '(x3, y3) :=
        rotate xs ys (Fin x2) (Fin y2)
          ((nopp angle * Fin PI) / Fin 180) in
      let '(x4, y4) :=
        rotate xs ys (Fin x2) (Fin y2) ((angle * Fin PI) / Fin 180) in
      Some [Fin x2; Fin y2; x3; y3; x4; y4]
  end.

Section HitTest.
(** [getLinearElementAbsoluteBounds] walks the drawing operations that
    rough.js cached for the element, and the ellipse branch of [hitTest]
    divides by possibly null half axes; neither is used by a rectangle or
    an arrow, and both are left open here. *)
Variable getLinearElementAbsoluteBounds : Element.t -> list num.
Variable hitTestEllipse : Element.t -> R -> R -> bool.

Definition getElementAbsoluteCoords (element : Element.t) : list num :=
  if (String.eqb (Element.type element) "arrow"
      || String.eqb (Element.type element) "line")%bool
  then getLinearElementAbsoluteBounds element
  else
    [Fin (Element.x element);
     Fin (Element.y element);
     Fin (Element.x element) + Fin (Element.width element);
     Fin (Element.y element) + Fin (Element.height element)].

Definition hitTest (element : Element.t) (x y : R) : outcome bool :=
  let lineThreshold := Fin 10 in
  let type := Element.type element in
  if String.eqb type "ellipse" then
    Returns (hitTestEllipse element x y)
  else if String.eqb type "rectangle" then
    let coords := getElementAbsoluteCoords element in
    let x1 := item coords 0 in
    let y1 := item coords 1 in
    let x2 := item coords 2 in
    let y2 := item coords 3 in
    if negb (String.eqb (Element.backgroundColor element) "transparent")
    then
      Returns
        ((Fin x >? x1 - lineThreshold)
         && (Fin x <? x2 + lineThreshold)
         && (Fin y >? y1 - lineThreshold)
         && (Fin y <? y2 + lineThreshold))%bool
    else
      Returns
        ((distanceBetweenPointAndSegment x y x1 y1 x2 y1 <? lineThreshold)
         || (distanceBetweenPointAndSegment x y x2 y1 x2 y2
             <? lineThreshold)
         || (distanceBetweenPointAndSegment x y x2 y2 x1 y2
             <? lineThreshold)
         || (distanceBetweenPointAndSegment x y x1 y2 x1 y1
             <? lineThreshold))%bool
  else if String.eqb type "diamond" then
    let x := Fin x - Fin (Element.x element) in
    let y := Fin y - Fin (Element.y element) in
    let pts := getDiamondPoints element in
    let topX := item pts 0 in
    let topY := item pts 1 in
    let rightX := item pts 2 in
    let rightY := item pts 3 in
    let bottomX := item pts 4 in
    let bottomY := item pts 5 in
    let leftX := item pts 6 in
    let leftY := item pts 7 in
    if negb (String.eqb (Element.backgroundColor element) "transparent")
    then
      let '(bottomY, topY) :=
        if topY >? bottomY then (topY, bottomY) else (bottomY, topY) in
      let '(leftX, rightX) :=
        if rightX <? leftX then (rightX, leftX) else (leftX, rightX) in
      let topY := topY - lineThreshold in
      let bottomY := bottomY + lineThreshold in
      let leftX := leftX - lineThreshold in
      let rightX := rightX + lineThreshold in
      Returns
        (((leftX - topX) * (y - leftY) - (leftX - x) * (topY - leftY)
          <=? Fin 0)
         && ((topX - rightX) * (y - rightY) - (x - rightX) * (topY - rightY)
             <=? Fin 0)
         && ((rightX - bottomX) * (y - bottomY)
             - (x - bottomX) * (rightY - bottomY) <=? Fin 0)
         && ((bottomX - leftX) * (y - leftY)
             - (x - leftX) * (bottomY - leftY) <=? Fin 0))%bool
    else
      Returns
        ((distanceBetweenPointAndSegment x y topX topY rightX rightY
          <? lineThreshold)
         || (distanceBetweenPointAndSegment x y rightX rightY bottomX
               bottomY <? lineThreshold)
         || (distanceBetweenPointAndSegment x y bottomX bottomY leftX leftY
             <? lineThreshold)
         || (distanceBetweenPointAndSegment x y leftX leftY topX topY
             <? lineThreshold))%bool
  else if String.eqb type "arrow" then
    match getArrowPoints element with
    | None => Throws "TypeError"
    | Some pts =>
        let x1 := item pts 0 in
        let y1 := item pts 1 in
        let x2 := item pts 2 in
        let y2 := item pts 3 in
        let x3 := item pts 4 in
        let y3 := item pts 5 in
        let x4 := item pts 6 in
        let y4 := item pts 7 in
        let x := Fin x - Fin (Element.x element) in
        let y := Fin y - Fin (Element.y element) in
        Returns
          ((distanceBetweenPointAndSegment x y x3 y3 x2 y2 <? lineThreshold)
           || (distanceBetweenPointAndSegment x y x1 y1 x2 y2
               <? lineThreshold)
           || (distanceBetweenPointAndSegment x y x4 y4 x2 y2
               <? lineThreshold))%bool
    end
  else if String.eqb type "text" then
    let coords := getElementAbsoluteCoords element in
    let x1 := item coords 0 in
    let y1 := item coords 1 in
    let x2 := item coords 2 in
    let y2 := item coords 3 in
    Returns
      ((Fin x >=? x1) && (Fin x <=? x2) && (Fin y >=? y1)
       && (Fin y <=? y2))%bool
  else if String.eqb type "selection" then
    Returns false
  else
    Throws ("Unimplemented type " ++ type).
End HitTest.
End Geometry.

(** ** [src/index.tsx]: resizing by an edge handle *)

Module Resize.
Local Open Scope R_scope.

(** The cases ["n"], ["w"], ["s"] and ["e"] of [switch (resizeHandle)] in
    [onMouseMove]. *)
Inductive edgeHandle : Type := handleN | handleW | handleS | handleE.

Section SortedCopy.
Variable key : R * R -> R.
Variable points : list (R * R).

Definition keyAt (j : nat) : R := key (nth j points (0, 0)).

Fixpoint insertBy (j : nat) (order : list nat) : list nat :=
  match order with
  | [] => [j]
  | k :: rest =>
      if Rle_dec (keyAt j) (keyAt k) then j :: order
      else k :: insertBy j rest
  end.

(** [[...element.points].sort((a, b) => key(a) - key(b))].  The copy holds
    the point objects of [element.points] themselves, so it is given by
    the position in [element.points] of each of its entries.  The sort is
    stable, as the language requires of [Array.prototype.sort]. *)
Definition sortedCopy : list nat :=
  fold_right insertBy [] (seq 0 (List.length points)).
End SortedCopy.

(** [points[j] = f(points[j])], for a [j] within the array. *)
Fixpoint update (j : nat) (f : R * R -> R * R) (points : list (R * R))
  : list (R * R) :=
  match points, j with
  | [], _ => []
  | p :: rest, O => f p :: rest
  | p :: rest, S j' => p :: update j' f rest
  end.

(** [for (let i = ..; i < points.length; ++i) { const pnt = points[i]; .. }]
    from position [i] of the sorted copy on; [sorted] is what is left of the
    copy, and the assignment to [pnt] changes the point of [element.points]
    that it is.  In the bodies below [i] is less than [len], so the divisor
    [len - i] is at least 1. *)
Fixpoint forEachFrom (body : nat -> R * R -> R * R) (i : nat)
    (sorted : list nat) (points : list (R * R)) : list (R * R) :=
  match sorted with
  | [] => points
  | j :: rest => forEachFrom body (S i) rest (update j (body i) points)
  end.

Definition resize (resizeHandle : edgeHandle) (element : Element.t)
    (deltaX deltaY : R) : Element.t :=
  let points := Element.points element in
  let len := List.length points in
  match resizeHandle with
  | handleN =>
      let points' :=
        if Nat.ltb 0 len then
          forEachFrom
            (fun i pnt => (fst pnt, snd pnt - deltaY / (INR len - INR i)))
            1 (skipn 1 (sortedCopy snd points)) points
        else points in
      {| Element.type := Element.type element;
         Element.x := Element.x element;
         Element.y := Element.y element + deltaY;
         Element.width := Element.width element;
         Element.height := Element.height element - deltaY;
         Element.backgroundColor := Element.backgroundColor element;
         Element.points := points' |}
  | handleW =>
      let points' :=
        if Nat.ltb 0 len then
          forEachFrom
            (fun i pnt => (fst pnt - deltaX / (INR len - INR i), snd pnt))
            0 (sortedCopy fst points) points
        else points in
      {| Element.type := Element.type element;
         Element.x := Element.x element + deltaX;
         Element.y := Element.y element;
         Element.width := Element.width element - deltaX;
         Element.height := Element.height element;
         Element.backgroundColor := Element.backgroundColor element;
         Element.points := points' |}
  | handleS =>
      let points' :=
        if Nat.ltb 0 len then
          forEachFrom
            (fun i pnt => (fst pnt, snd pnt + deltaY / (INR len - INR i)))
            1 (skipn 1 (sortedCopy snd points)) points
        else points in
      {| Element.type := Element.type element;
         Element.x := Element.x element;
         Element.y := Element.y element;
         Element.width := Element.width element;
         Element.height := Element.height element + deltaY;
         Element.backgroundColor := Element.backgroundColor element;
         Element.points := points' |}
  | handleE =>
      let points' :=
        if Nat.ltb 0 len then
          forEachFrom
            (fun i pnt => (fst pnt + deltaX / (INR len - INR i), snd pnt))
            1 (skipn 1 (sortedCopy fst points)) points
        else points in
      {| Element.type := Element.type element;
         Element.x := Element.x element;
         Element.y := Element.y element;
         Element.width := Element.width element + deltaX;
         Element.height := Element.height element;
         Element.backgroundColor := Element.backgroundColor element;
         Element.points := points' |}
  end.
End Resize.

(** ** Elements of the scene *)

Module Scene.
(** An element as the scene holds it: the fields of [Element.t], the
    [isDeleted] flag, and [shape], the drawables that the renderer has
    cached for the element ([None] is [null]); their type belongs to
    rough.js and is left open. *)
Record element (Shape : Type) : Type := mk {
  base : Element.t;
  isDeleted : bool;
  shape : option Shape
}.
Arguments mk {Shape} base isDeleted shape.
Arguments base {Shape} e.
Arguments isDeleted {Shape} e.
Arguments shape {Shape} e.
End Scene.

(** ** [src/element/bounds.ts]: bounding boxes *)

Module Bounds.
Import Number.
Local Open Scope string_scope.

(** The bounds start from [Infinity] and [-Infinity]: a number of [num] or
    one of the two infinities. *)
Inductive xnum : Type :=
| NegInfinity
| Finite (n : num)
| Infinity.

(** [Math.min], [Math.max], [+] and [<] on these numbers. *)
Definition xmin (a b : xnum) : xnum :=
  match a, b with
  | Finite NaN, _ | _, Finite NaN => Finite NaN
  | NegInfinity, _ | _, NegInfinity => NegInfinity
  | Infinity, c | c, Infinity => c
  | Finite (Fin a), Finite (Fin b) => Finite (Fin (Rmin a b))
  end.

Definition xmax (a b : xnum) : xnum :=
  match a, b with
  | Finite NaN, _ | _, Finite NaN => Finite NaN
  | Infinity, _ | _, Infinity => Infinity
  | NegInfinity, c | c, NegInfinity => c
  | Finite (Fin a), Finite (Fin b) => Finite (Fin (Rmax a b))
  end.

Definition xadd (a b : xnum) : xnum :=
  match a, b with
  | Finite a, Finite b => Finite (nadd a b)
  | Finite NaN, _ | _, Finite NaN => Finite NaN
  | Infinity, NegInfinity | NegInfinity, Infinity => Finite NaN
  | Infinity, _ | _, Infinity => Infinity
  | NegInfinity, _ | _, NegInfinity => NegInfinity
  end.

Definition xlt (a b : xnum) : bool :=
  match a, b with
  | Finite a, Finite b => nlt a b
  | Finite NaN, _ | _, Finite NaN => false
  | NegInfinity, NegInfinity | Infinity, _ | _, NegInfinity => false
  | NegInfinity, _ | _, Infinity => true
  end.

(** [const [.., v, ..] = array]: [undefined] past the end. *)
Definition xitem (array : list xnum) (k : nat) : xnum :=
  nth k array (Finite NaN).

Record Limits : Type := mkLimits {
  minX : xnum;
  minY : xnum;
  maxX : xnum;
  maxY : xnum
}.

(** The callback of [element.points.reduce] in the first branch of
    [getLinearElementAbsoluteBounds]. *)
Definition pointLimits (limits : Limits) (point : R * R) : Limits :=
  let '(x, y) := point in
  let minY := xmin (minY limits) (Finite (Fin y)) in
  let minX := xmin (minX limits) (Finite (Fin x)) in
  let maxX := xmax (maxX limits) (Finite (Fin x)) in
  let maxY := xmax (maxY limits) (Finite (Fin y)) in
  {| minX := minX; minY := minY; maxX := maxX; maxY := maxY |}.

Section Boxes.
Context {Shape : Type}.
(** The second branch of [getLinearElementAbsoluteBounds] samples the
    curves that rough.js has drawn for the element; it is left open. *)
Variable curveBounds : Shape -> Scene.element Shape -> list xnum.

Definition getLinearElementAbsoluteBounds (element : Scene.element Shape)
  : list xnum :=
  let points := Element.points (Scene.base element) in
  let x := Finite (Fin (Element.x (Scene.base element))) in
  let y := Finite (Fin (Element.y (Scene.base element))) in
  match Nat.ltb (List.length points) 2, Scene.shape element with
  | false, Some shape => curveBounds shape element
  | _, _ =>
      let limits :=
        fold_left pointLimits points
          {| minX := Infinity; minY := Infinity;
             maxX := NegInfinity; maxY := NegInfinity |} in
      [xadd (minX limits) x; xadd (minY limits) y;
       xadd (maxX limits) x; xadd (maxY limits) y]
  end.

Definition getElementAbsoluteCoords (element : Scene.element Shape)
  : list xnum :=
  let e := Scene.base element in
  if (String.eqb (Element.type e) "arrow"
      || String.eqb (Element.type e) "line")%bool
  then getLinearElementAbsoluteBounds element
  else
    [Finite (Fin (Element.x e));
     Finite (Fin (Element.y e));
     Finite (Fin (Element.x e) + Fin (Element.width e))%num;
     Finite (Fin (Element.y e) + Fin (Element.height e))%num].

(** The callback of [elements.forEach] in [getCommonBounds], on the four
    variables that it updates. *)
Definition commonLimits (limits : Limits) (element : Scene.element Shape)
  : Limits :=
  let coords := getElementAbsoluteCoords element in
  let x1 := xitem coords 0 in
  let y1 := xitem coords 1 in
  let x2 := xitem coords 2 in
  let y2 := xitem coords 3 in
  let minX := xmin (minX limits) x1 in
  let minY := xmin (minY limits) y1 in
  let maxX := xmax (maxX limits) x2 in
  let maxY := xmax (maxY limits) y2 in
  {| minX := minX; minY := minY; maxX := maxX; maxY := maxY |}.

Definition getCommonBounds (elements : list (Scene.element Shape))
  : list xnum :=
  let limits :=
    fold_left commonLimits elements
      {| minX := Infinity; minY := Infinity;
         maxX := NegInfinity; maxY := NegInfinity |} in
  [minX limits; minY limits; maxX limits; maxY limits].
End Boxes.
End Bounds.

(** ** [src/scene/comparisons.ts]: the element at a position *)

Module Comparisons.
Import Number Bounds.

Section Lookup.
Context {Shape : Type}.
Variable curveBounds : Shape -> Scene.element Shape -> list xnum.

(** [for (let i = elements.length - 1; i >= 0; --i)] of
    [getElementAtPosition], with [count] the number of indices left:
    [i = count - 1].  The callback may throw, as [hitTest] does. *)
Fixpoint getElementAtPosition_loop (count : nat)
    (elements : list (Scene.element Shape))
    (isAtPositionFn : Scene.element Shape -> outcome bool)
  : outcome (option (Scene.element Shape)) :=
  match count with
  | O => Returns None
  | S i =>
      match nth_error elements i with
      | None => Throws "TypeError"
      | Some element =>
          if Scene.isDeleted element
          then getElementAtPosition_loop i elements isAtPositionFn
          else
            match isAtPositionFn element with
            | Throws error => Throws error
            | Returns true => Returns (Some element)
            | Returns false =>
                getElementAtPosition_loop i elements isAtPositionFn
            end
      end
  end.

Definition getElementAtPosition (elements : list (Scene.element Shape))
    (isAtPositionFn : Scene.element Shape -> outcome bool)
  : outcome (option (Scene.element Shape)) :=
  getElementAtPosition_loop (List.length elements) elements isAtPositionFn.

Fixpoint getElementContainingPosition_loop (count : nat)
    (elements : list (Scene.element Shape)) (x y : R)
  : outcome (option (Scene.element Shape)) :=
  match count with
  | O => Returns None
  | S i =>
      match nth_error elements i with
      | None => Throws "TypeError"
      | Some element =>
          if Scene.isDeleted element
          then getElementContainingPosition_loop i elements x y
          else
            let coords := getElementAbsoluteCoords curveBounds element in
            let x1 := xitem coords 0 in
            let y1 := xitem coords 1 in
            let x2 := xitem coords 2 in
            let y2 := xitem coords 3 in
            if (xlt x1 (Finite (Fin x)) && xlt (Finite (Fin x)) x2
                && xlt y1 (Finite (Fin y)) && xlt (Finite (Fin y)) y2)%bool
            then Returns (Some element)
            else getElementContainingPosition_loop i elements x y
      end
  end.

Definition getElementContainingPosition
    (elements : list (Scene.element Shape)) (x y : R)
  : outcome (option (Scene.element Shape)) :=
  getElementContainingPosition_loop (List.length elements) elements x y.
End Lookup.
End Comparisons.

(** ** [src/index.tsx]: resizing by a corner handle *)

Module CornerResize.
Import Resize.
Local Open Scope string_scope.
Local Open Scope R_scope.

(** The cases ["nw"], ["ne"], ["sw"] and ["se"] of [switch (resizeHandle)]
    in [onMouseMove]. *)
Inductive cornerHandle : Type := handleNW | handleNE | handleSW | handleSE.

(** What [resizeArrowFn] holds once it is set. *)
Inductive arrowFn : Type := ArrowResizeOrigin | ArrowResizeEnd.

Definition withPlace (element : Element.t) (x y width height : R)
    (points : list (R * R)) : Element.t :=
  {| Element.type := Element.type element;
     Element.x := x;
     Element.y := y;
     Element.width := width;
     Element.height := height;
     Element.backgroundColor := Element.backgroundColor element;
     Element.points := points |}.

Section Corner.
(** [getPerfectElementSize] and [resizePerfectLineForNWHandler] are imported
    from modules that are not part of the sources at hand. *)
Variable getPerfectElementSize : string -> R -> R -> R * R.
Variable resizePerfectLineForNWHandler : Element.t -> R -> R -> Element.t.

(** [arrowResizeOrigin(element, p1, ..)] and [arrowResizeEnd(element, p1,
    ..)], which are called with [p1] the second point of [element.points]:
    the assignments to [p1] change that point of the element. *)
Definition arrowResizeOrigin (element : Element.t)
    (deltaX deltaY mouseX mouseY : R) (perfect : bool) : Element.t :=
  let p1 := nth 1 (Element.points element) (0, 0) in
  if perfect then
    let absPx := fst p1 + Element.x element in
    let absPy := snd p1 + Element.y element in
    let '(width, height) :=
      getPerfectElementSize "arrow"
        (mouseX - Element.x element - fst p1)
        (mouseY - Element.y element - snd p1) in
    let dx := Element.x element + width + fst p1 in
    let dy := Element.y element + height + snd p1 in
    withPlace element dx dy (Element.width element) (Element.height element)
      (update 1 (fun _ => (absPx - dx, absPy - dy)) (Element.points element))
  else
    withPlace element (Element.x element + deltaX) (Element.y element + deltaY)
      (Element.width element) (Element.height element)
      (update 1 (fun p1 => (fst p1 - deltaX, snd p1 - deltaY))
         (Element.points element)).

Definition arrowResizeEnd (element : Element.t)
    (deltaX deltaY mouseX mouseY : R) (perfect : bool) : Element.t :=
  if perfect then
    let '(width, height) :=
      getPerfectElementSize "arrow" (mouseX - Element.x element)
        (mouseY - Element.y element) in
    withPlace element (Element.x element) (Element.y element)
      (Element.width element) (Element.height element)
      (update 1 (fun _ => (width, height)) (Element.points element))
  else
    withPlace element (Element.x element) (Element.y element)
      (Element.width element) (Element.height element)
      (update 1 (fun p1 => (fst p1 + deltaX, snd p1 + deltaY))
         (Element.points element)).

Definition callArrowFn (fn : arrowFn) : Element.t -> R -> R -> R -> R ->
                                       bool -> Element.t :=
  match fn with
  | ArrowResizeOrigin => arrowResizeOrigin
  | ArrowResizeEnd => arrowResizeEnd
  end.

(** One [mousemove] while a corner handle is dragged: [resizeArrowFn] is the
    variable that the handler keeps between the moves of a drag, [(x, y)]
    the pointer on the scene.  The result is the new value of the variable
    and the element. *)
Definition resizeCorner (resizeHandle : cornerHandle)
    (resizeArrowFn : option arrowFn) (element : Element.t)
    (deltaX deltaY x y : R) (shiftKey : bool)
  : option arrowFn * Element.t :=
  let isLinear :=
    (String.eqb (Element.type element) "line"
     || String.eqb (Element.type element) "arrow")%bool in
  if (String.eqb (Element.type element) "arrow"
      && Nat.eqb (List.length (Element.points element)) 2)%bool
  then
    let p1 := nth 1 (Element.points element) (0, 0) in
    let fn :=
      match resizeArrowFn with
      | Some fn => fn
      | None =>
          let atEnd :=
            match resizeHandle with
            | handleNW =>
                ((if Rlt_dec (fst p1) 0 then true else false)
                 || (if Rlt_dec (snd p1) 0 then true else false))%bool
            | handleNE => if Rle_dec 0 (fst p1) then true else false
            | handleSW => if Rle_dec (fst p1) 0 then true else false
            | handleSE =>
                ((if Rlt_dec 0 (fst p1) then true else false)
                 || (if Rlt_dec 0 (snd p1) then true else false))%bool
            end in
          if atEnd then ArrowResizeEnd else ArrowResizeOrigin
      end in
    (Some fn, callArrowFn fn element deltaX deltaY x y shiftKey)
  else
    let points := Element.points element in
    (resizeArrowFn,
     match resizeHandle with
     | handleNW =>
         let width := Element.width element - deltaX in
         let x' := Element.x element + deltaX in
         if shiftKey then
           if isLinear then
             resizePerfectLineForNWHandler
               (withPlace element x' (Element.y element) width
                  (Element.height element) points) x y
           else
             withPlace element x'
               (Element.y element + (Element.height element - width))
               width width points
         else
           withPlace element x' (Element.y element + deltaY) width
             (Element.height element - deltaY) points
     | handleNE =>
         let width := Element.width element + deltaX in
         if shiftKey then
           withPlace element (Element.x element)
             (Element.y element + (Element.height element - width))
             width width points
         else
           withPlace element (Element.x element) (Element.y element + deltaY)
             width (Element.height element - deltaY) points
     | handleSW =>
         let width := Element.width element - deltaX in
         let x' := Element.x element + deltaX in
         if shiftKey then
           withPlace element x' (Element.y element) width width points
         else
           withPlace element x' (Element.y element) width
             (Element.height element + deltaY) points
     | handleSE =>
         if shiftKey then
           if isLinear then
             let '(width, height) :=
               getPerfectElementSize (Element.type element)
                 (x - Element.x element) (y - Element.y element) in
             withPlace element (Element.x element) (Element.y element)
               width height points
           else
             let width := Element.width element + deltaX in
             withPlace element (Element.x element) (Element.y element)
               width width points
         else
           withPlace element (Element.x element) (Element.y element)
             (Element.width element + deltaX)
             (Element.height element + deltaY) points
     end).
End Corner.
End CornerResize.

(** ** [src/element/bounds.ts], [src/element/collision.ts],
    [src/scene/comparisons.ts] in double precision

    The same functions on the numbers of the language, which are IEEE 754
    doubles: [+], [-], [*], [/] round to the nearest double, and [<], [<=]
    and [===] compare doubles.  The functions of [Math] whose result the
    language leaves to the implementation are parameters. *)

Module Float64.
Import PrimFloat.
Local Open Scope string_scope.
Local Open Scope float_scope.

Module Element.
Record t : Type := mk {
  type : string;
  x : float;
  y : float;
  width : float;
  height : float;
  backgroundColor : string;
  points : list (float * float);
  isDeleted : bool
}.
End Element.

(** [const [.., v, ..] = array]: [undefined] past the end, which is [NaN]
    in every operation below. *)
Definition item (array : list float) (k : nat) : float :=
  nth k array PrimFloat.nan.

Section HitTest.
(** [Math.hypot], [Math.floor], [Math.min], [Math.cos] and [Math.sin] of the
    host. *)
Variable hypot : float -> float -> float.
Variable floor : float -> float.
Variable min : float -> float -> float.
Variable cos : float -> float.
Variable sin : float -> float.
Variable getLinearElementAbsoluteBounds : Element.t -> list float.
Variable hitTestEllipse : Element.t -> float -> float -> bool.

(** [Math.PI] *)
Definition PI : float := 0x1.921fb54442d18p+1.

Definition rotate (x1 y1 x2 y2 angle : float) : float * float :=
  ((x1 - x2) * cos angle - (y1 - y2) * sin angle + x2,
   (x1 - x2) * sin angle + (y1 - y2) * cos angle + y2).

Definition distanceBetweenPointAndSegment (x y x1 y1 x2 y2 : float)
  : float :=
  let A := x - x1 in
  let B := y - y1 in
  let C := x2 - x1 in
  let D := y2 - y1 in
  let dot := A * C + B * D in
  let lenSquare := C * C + D * D in
  let param := if negb (lenSquare =? 0) then dot / lenSquare else -1 in
  let '(xx, yy) :=
    if param <? 0 then (x1, y1)
    else if 1 <? param then (x2, y2)
    else (x1 + param * C, y1 + param * D) in
  let dx := x - xx in
  let dy := y - yy in
  hypot dx dy.

Definition getElementAbsoluteCoords (element : Element.t) : list float :=
  if (String.eqb (Element.type element) "arrow"
      || String.eqb (Element.type element) "line")%bool
  then getLinearElementAbsoluteBounds element
  else
    [Element.x element;
     Element.y element;
     Element.x element + Element.width element;
     Element.y element + Element.height element].

Definition getDiamondPoints (element : Element.t) : list float :=
  let topX := floor (Element.width element / 2) + 1 in
  let topY := 0 in
  let rightX := Element.width element in
  let rightY := floor (Element.height element / 2) + 1 in
  let bottomX := topX in
  let bottomY := Element.height element in
  let leftX := topY in
  let leftY := rightY in
  [topX; topY; rightX; rightY; bottomX; bottomY; leftX; leftY].

Definition arrowLength_callback (points : list (float * float))
    (total : float) (idx : nat) : float :=
  let '(cx, cy) := nth idx points (0, 0) in
  let '(px, py) :=
    if Nat.ltb 0 idx then nth (idx - 1) points (0, 0) else (0, 0) in
  total + hypot (cx - px) (cy - py).

Definition arrowLength (points : list (float * float)) : float :=
  fold_left (arrowLength_callback points) (seq 0 (List.length points)) 0.

Definition getArrowPoints (element : Element.t) : option (list float) :=
  let points := Element.points element in
  let '(x1, y1) :=
    if Nat.leb 2 (List.length points)
    then nth (List.length points - 2) points (0, 0)
    else (0, 0) in
  match nth_error points (List.length points - 1) with
  | None => None
  | Some (x2, y2) =>
      let size := 30 in
      let distance := hypot (x2 - x1) (y2 - y1) in
      let minSize := min size (arrowLength points / 2) in
      let xs := x2 - ((x2 - x1) / distance) * minSize in
      let ys := y2 - ((y2 - y1) / distance) * minSize in
      let angle := 20 in
      let '(x3, y3) := rotate xs ys x2 y2 ((- angle * PI) / 180) in
      let '(x4, y4) := rotate xs ys x2 y2 ((angle * PI) / 180) in
      Some [x2; y2; x3; y3; x4; y4]
  end.

Definition hitTest (element : Element.t) (x y : float) : outcome bool :=
  let lineThreshold := 10 in
  let type := Element.type element in
  if String.eqb type "ellipse" then
    Returns (hitTestEllipse element x y)
  else if String.eqb type "rectangle" then
    let coords := getElementAbsoluteCoords element in
    let x1 := item coords 0 in
    let y1 := item coords 1 in
    let x2 := item coords 2 in
    let y2 := item coords 3 in
    if negb (String.eqb (Element.backgroundColor element) "transparent")
    then
      Returns
        ((x1 - lineThreshold <? x)
         && (x <? x2 + lineThreshold)
         && (y1 - lineThreshold <? y)
         && (y <? y2 + lineThreshold))%bool
    else
      Returns
        ((distanceBetweenPointAndSegment x y x1 y1 x2 y1 <? lineThreshold)
         || (distanceBetweenPointAndSegment x y x2 y1 x2 y2
             <? lineThreshold)
         || (distanceBetweenPointAndSegment x y x2 y2 x1 y2
             <? lineThreshold)
         || (distanceBetweenPointAndSegment x y x1 y2 x1 y1
             <? lineThreshold))%bool
  else if String.eqb type "diamond" then
    let x := x - Element.x element in
    let y := y - Element.y element in
    let pts := getDiamondPoints element in
    let topX := item pts 0 in
    let topY := item pts 1 in
    let rightX := item pts 2 in
    let rightY := item pts 3 in
    let bottomX := item pts 4 in
    let bottomY := item pts 5 in
    let leftX := item pts 6 in
    let leftY := item pts 7 in
    if negb (String.eqb (Element.backgroundColor element) "transparent")
    then
      let '(bottomY, topY) :=
        if bottomY <? topY then (topY, bottomY) else (bottomY, topY) in
      let '(leftX, rightX) :=
        if rightX <? leftX then (rightX, leftX) else (leftX, rightX) in
      let topY := topY - lineThreshold in
      let bottomY := bottomY + lineThreshold in
      let leftX := leftX - lineThreshold in
      let rightX := rightX + lineThreshold in
      Returns
        (((leftX - topX) * (y - leftY) - (leftX - x) * (topY - leftY)
          <=? 0)
         && ((topX - rightX) * (y - rightY) - (x - rightX) * (topY - rightY)
             <=? 0)
         && ((rightX - bottomX) * (y - bottomY)
             - (x - bottomX) * (rightY - bottomY) <=? 0)
         && ((bottomX - leftX) * (y - leftY)
             - (x - leftX) * (bottomY - leftY) <=? 0))%bool
    else
      Returns
        ((distanceBetweenPointAndSegment x y topX topY rightX rightY
          <? lineThreshold)
         || (distanceBetweenPointAndSegment x y rightX rightY bottomX
               bottomY <? lineThreshold)
         || (distanceBetweenPointAndSegment x y bottomX bottomY leftX leftY
             <? lineThreshold)
         || (distanceBetweenPointAndSegment x y leftX leftY topX topY
             <? lineThreshold))%bool
  else if String.eqb type "arrow" then
    match getArrowPoints element with
    | None => Throws "TypeError"
    | Some pts =>
        let x1 := item pts 0 in
        let y1 := item pts 1 in
        let x2 := item pts 2 in
        let y2 := item pts 3 in
        let x3 := item pts 4 in
        let y3 := item pts 5 in
        let x4 := item pts 6 in
        let y4 := item pts 7 in
        let x := x - Element.x element in
        let y := y - Element.y element in
        Returns
          ((distanceBetweenPointAndSegment x y x3 y3 x2 y2 <? lineThreshold)
           || (distanceBetweenPointAndSegment x y x1 y1 x2 y2
               <? lineThreshold)
           || (distanceBetweenPointAndSegment x y x4 y4 x2 y2
               <? lineThreshold))%bool
    end
  else if String.eqb type "text" then
    let coords := getElementAbsoluteCoords element in
    let x1 := item coords 0 in
    let y1 := item coords 1 in
    let x2 := item coords 2 in
    let y2 := item coords 3 in
    Returns ((x1 <=? x) && (x <=? x2) && (y1 <=? y) && (y <=? y2))%bool
  else if String.eqb type "selection" then
    Returns false
  else
    Throws ("Unimplemented type " ++ type).

(** [for (let i = elements.length - 1; i >= 0; --i)] of
    [getElementContainingPosition], with [count] the number of indices
    left: [i = count - 1]. *)
Fixpoint getElementContainingPosition_loop (count : nat)
    (elements : list Element.t) (x y : float)
  : outcome (option Element.t) :=
  match count with
  | O => Returns None
  | S i =>
      match nth_error elements i with
      | None => Throws "TypeError"
      | Some element =>
          if Element.isDeleted element
          then getElementContainingPosition_loop i elements x y
          else
            let coords := getElementAbsoluteCoords element in
            let x1 := item coords 0 in
            let y1 := item coords 1 in
            let x2 := item coords 2 in
            let y2 := item coords 3 in
            if ((x1 <? x) && (x <? x2) && (y1 <? y) && (y <? y2))%bool
            then Returns (Some element)
            else getElementContainingPosition_loop i elements x y
      end
  end.

Definition getElementContainingPosition (elements : list Element.t)
    (x y : float) : outcome (option Element.t) :=
  getElementContainingPosition_loop (List.length elements) elements x y.
End HitTest.
End Float64.

(** ** Vocabulary of the statements *)

Module ZIndexSpec.
Import JsArray.
Local Open Scope Z_scope.

(** Strictly ascending indices (hence distinct), and indices of slots. *)
Definition ascending (indices : list Z) : Prop := StronglySorted Z.lt indices.

Definition inRange {T} (elements : jsarray T) (indices : list Z) : Prop :=
  Forall (fun index => 0 <= index < length elements) indices.

Definition isSelected (indices : list Z) (pos : Z) : bool :=
  existsb (Z.eqb pos) indices.

(** The values of [l], which sit at the positions [off], [off + 1], ..,
    that are not selected, in their order. *)
Fixpoint unselectedFrom {A} (off : Z) (l : list A) (indices : list Z)
  : list A :=
  match l with
  | [] => []
  | v :: l' =>
      if isSelected indices off then unselectedFrom (off + 1) l' indices
      else v :: unselectedFrom (off + 1) l' indices
  end.

Definition unselected {T} (elements : jsarray T) (indices : list Z)
  : list (option T) :=
  unselectedFrom 0 (slots elements) indices.

(** The selected values, in the order of [indices]. *)
Definition selected {T} (elements : jsarray T) (indices : list Z)
  : list (option T) :=
  map (aget elements) indices.

(** How many of the ascending [indices] are [i], [i + 1], ..: counted from
    [i = 0], the selected elements that already fill the front. *)
Fixpoint frontRun (i : Z) (indices : list Z) : nat :=
  match indices with
  | [] => O
  | index :: rest => if Z.eqb index i then S (frontRun (i + 1) rest) else O
  end.

(** The same from the back of an array of length [n]: how many of the
    descending [indices] are [n - i - 1], [n - i - 2], ... *)
Fixpoint backRun (n i : Z) (indices : list Z) : nat :=
  match indices with
  | [] => O
  | index :: rest =>
      if Z.eqb index (n - i - 1) then S (backRun n (i + 1) rest) else O
  end.

(** The result of a restack holds the values of the array it was given, each
    as many times, in as many slots. *)
Definition sameElements {T} (result elements : jsarray T) : Prop :=
  Permutation (slots result) (slots elements)
  /\ length result = length elements.

(** One swap toward the front, respectively the back, for each index in
    turn. *)
Definition swapsLeft {T} (elements : jsarray T) (indices : list Z)
  : jsarray T :=
  fold_left (fun a index => ZIndex.swap a (index - 1) index) indices elements.

Definition swapsRight {T} (elements : jsarray T) (indices : list Z)
  : jsarray T :=
  fold_left (fun a index => ZIndex.swap a (index + 1) index) indices elements.
End ZIndexSpec.

Module GeometrySpec.
Local Open Scope R_scope.

(** The length of the segment from [p] to [q], and of the polyline through
    [points]. *)
Definition segmentLength (p q : R * R) : R :=
  sqrt ((fst q - fst p) * (fst q - fst p) + (snd q - snd p) * (snd q - snd p)).

Fixpoint polylineLength (points : list (R * R)) : R :=
  match points with
  | p :: (q :: _) as rest => segmentLength p q + polylineLength rest
  | _ => 0
  end.

(** The vector [v] turned by [angle] radians, and degrees in radians. *)
Definition turn (angle : R) (v : R * R) : R * R :=
  (fst v * cos angle - snd v * sin angle,
   fst v * sin angle + snd v * cos angle).

Definition degrees (d : R) : R := d * PI / 180.

(** The vector from [p] to [q] scaled to the length [size]. *)
Definition scaledDirection (p q : R * R) (size : R) : R * R :=
  ((fst q - fst p) / segmentLength p q * size,
   (snd q - snd p) / segmentLength p q * size).

Definition opposite (v : R * R) : R * R := (- fst v, - snd v).
End GeometrySpec.

Module ResizeSpec.
Import Resize.
Local Open Scope R_scope.

(** The coordinate that a handle resizes, and a point with that coordinate
    changed by [d]. *)
Definition coordinate (resizeHandle : edgeHandle) : R * R -> R :=
  match resizeHandle with
  | handleN | handleS => snd
  | handleW | handleE => fst
  end.

Definition shifted (resizeHandle : edgeHandle) (d : R) (pnt : R * R)
  : R * R :=
  match resizeHandle with
  | handleN | handleS => (fst pnt, snd pnt + d)
  | handleW | handleE => (fst pnt + d, snd pnt)
  end.

(** The pointer delta along the resized coordinate, with the sign the handle
    applies to the points. *)
Definition signedDelta (resizeHandle : edgeHandle) (deltaX deltaY : R) : R :=
  match resizeHandle with
  | handleN => - deltaY
  | handleS => deltaY
  | handleW => - deltaX
  | handleE => deltaX
  end.

(** Point [j] comes no later than point [k] along [key]. *)
Definition byKey (key : R * R -> R) (points : list (R * R)) (j k : nat)
  : Prop :=
  keyAt key points j <= keyAt key points k.

(** Where point [j] of the element is on the canvas. *)
Definition absolute (element : Element.t) (j : nat) : R * R :=
  let pnt := nth j (Element.points element) (0, 0) in
  (Element.x element + fst pnt, Element.y element + snd pnt).

(** How far point [j] has gone on the canvas along the resized coordinate. *)
Definition moved (resizeHandle : edgeHandle) (element resized : Element.t)
    (j : nat) : R :=
  Rabs (coordinate resizeHandle (absolute resized j)
        - coordinate resizeHandle (absolute element j)).

(** The position, in the sorted copy, of the point that lies on the edge
    opposite to the handle: the last one for ["n"] and ["w"], the first one
    for ["s"] and ["e"]. *)
Definition fixedRank (resizeHandle : edgeHandle) (len : nat) : nat :=
  match resizeHandle with
  | handleN | handleW => len - 1
  | handleS | handleE => 0
  end.
End ResizeSpec.

Module RestackSpec.
Import ZIndexSpec.
Local Open Scope Z_scope.

(** Where the selected elements are after [moveOneLeft]: the indices of the
    front run as they were, the others one less. *)
Definition movedLeft (indices : list Z) : list Z :=
  let run := frontRun 0 indices in
  firstn run indices ++ map (fun index => index - 1) (skipn run indices).
End RestackSpec.

Module HistorySpec.
Import History.

(** The entries of both stacks in the order in which they were pushed: the
    undo stack, then the redo stack from its top down. *)
Definition timeline (h : SceneHistory) : list string :=
  stateHistory h ++ rev (redoStack h).

(** [k] calls of [undoOnce], respectively [redoOnce], in a row. *)
Definition undoTimes (k : nat) (h : SceneHistory) : SceneHistory :=
  Nat.iter k (fun h => snd (undoOnce h)) h.

Definition redoTimes (k : nat) (h : SceneHistory) : SceneHistory :=
  Nat.iter k (fun h => snd (redoOnce h)) h.

(** No entry is followed by an equal one. *)
Fixpoint noRepeat (entries : list string) : Prop :=
  match entries with
  | a :: (b :: _) as rest => a <> b /\ noRepeat rest
  | _ => True
  end.

(** The states that the methods of [SceneHistory] lead to from a new
    object. *)
Inductive reachable : SceneHistory -> Prop :=
| reach_create : reachable createHistory
| reach_push h e : reachable h -> reachable (pushEntry h e)
| reach_undo h : reachable h -> reachable (snd (undoOnce h))
| reach_redo h : reachable h -> reachable (snd (redoOnce h))
| reach_clear h : reachable h -> reachable (clearRedoStack h)
| reach_skip h : reachable h -> reachable (skipRecording h)
| reach_resume h : reachable h -> reachable (resumeRecording h).
End HistorySpec.

Module SegmentSpec.
Import GeometrySpec.
Local Open Scope R_scope.

(** The point of the segment from [a] to [b] at the fraction [t] of the
    way, and the points of the segment. *)
Definition pointAt (a b : R * R) (t : R) : R * R :=
  (fst a + t * (fst b - fst a), snd a + t * (snd b - snd a)).

Definition onSegment (a b q : R * R) : Prop :=
  exists t, 0 <= t <= 1 /\ q = pointAt a b t.
End SegmentSpec.

Module SceneSpec.
Import Number Bounds.
(** [e] is the front-most element of [elements] that [passes]: the elements
    in front of it, which come after it in the array, are all [skipped]. *)
Definition frontMost {A} (passes skipped : A -> Prop) (elements : list A)
    (e : A) : Prop :=
  exists behind front,
    elements = behind ++ e :: front /\ passes e /\ Forall skipped front.

(** An element that is neither an arrow nor a line. *)
Definition notLinear (e : Element.t) : Prop :=
  Element.type e <> "arrow"%string /\ Element.type e <> "line"%string.
End SceneSpec.

Module CornerSpec.
Import CornerResize.
Local Open Scope R_scope.



(** Where the ends of a two-point arrow are on the canvas. *)
Definition originOnCanvas (element : Element.t) : R * R :=
  let p0 := nth 0 (Element.points element) (0, 0) in
  (Element.x element + fst p0, Element.y element + snd p0).

Definition endOnCanvas (element : Element.t) : R * R :=
  let p1 := nth 1 (Element.points element) (0, 0) in
  (Element.x element + fst p1, Element.y element + snd p1).
End CornerSpec.

Module EdgeSpec.
Import Resize.
Local Open Scope R_scope.




End EdgeSpec.

Module HistoryStateSpec.
Import Json History.

(** The scene that an entry of a stack holds: the value of its JSON text.
    When there is no entry, [restoreEntry] is given [undefined] and there is
    nothing to restore, which is [null]. *)
Definition holds (entry : option string) (state : json) : Prop :=
  match entry with
  | Some e => parse e = Some state
  | None => state = JNull
  end.
End HistoryStateSpec.

Module ResizeWeightSpec.
Import Resize.
Local Open Scope R_scope.

(** Where the loop of a handle starts in the sorted copy: [i = 0] for
    ["w"], [i = 1] for the others. *)
Definition firstVisited (resizeHandle : edgeHandle) : nat :=
  match resizeHandle with
  | handleW => 0
  | handleN | handleS | handleE => 1
  end.

(** The share of the delta that the point at position [i] of the sorted
    copy gets: [1 / (len - i)] from the start of the loop on, nothing
    before. *)
Definition weight (resizeHandle : edgeHandle) (len i : nat) : R :=
  if Nat.ltb i (firstVisited resizeHandle) then 0
  else 1 / (INR len - INR i).
End ResizeWeightSpec.

(** ** Doubles

    The vocabulary of the statements about [Float64].  A double that is a
    number has a value, a rational: [exact].  The doubles of a grid are the
    multiples [n / 2 ^ k] of [2 ^ - k] whose [n] has at most 53 bits; the
    code's sums of such doubles are not rounded as long as they stay on the
    grid. *)

Module Float64Spec.
Import QArith Qpower.
Import Floats Float64.
Local Open Scope Z_scope.

(** The mantissa [m] shifted left by [k >= 0] bits. *)
Definition shl (m : positive) (k : Z) : positive :=
  match k with
  | Zpos p => Pos.iter xO m p
  | _ => m
  end.

(** [norm n g] is the double nearest to [n * 2 ^ g], as the format rounds
    it. *)
Definition norm (n g : Z) : spec_float :=
  binary_normalize prec emax n g false.

(** The values [n * 2 ^ g] that are doubles as they stand: [n] has at most
    53 bits and [g] is an exponent of the format. *)
Definition fits (n g : Z) : Prop :=
  Z.abs n < 2 ^ 53 /\ -1074 <= g <= 971.

(** The exponent of the double [m * 2 ^ g]. *)
Definition place (m : positive) (g : Z) : Z :=
  fexp prec emax (Zpos (digits2_pos m) + g).

(** [grid k n] is the double [n / 2 ^ k]; [grid 0 n] is the whole number
    [n]. *)
Definition grid (k n : Z) : float := SF2Prim (norm n (- k)).

Definition onGrid (k n : Z) : Prop := 0 <= k <= 1074 /\ Z.abs n < 2 ^ 53.

(** The doubles that are numbers: neither [NaN] nor an infinity. *)
Definition finiteSF (f : spec_float) : bool :=
  match f with
  | S754_zero _ | S754_finite _ _ _ => true
  | _ => false
  end.

(** The rational that such a double is: [m * 2 ^ e] with its sign. *)
Definition exactSF (f : spec_float) : Q :=
  match f with
  | S754_finite s m e => inject_Z (cond_Zopp s (Zpos m)) * Qpower 2 e
  | _ => 0
  end.

(** The integer [f / 2 ^ g], for [g] not above the exponent of [f]. *)
Definition scaledSF (f : spec_float) (g : Z) : Z :=
  match f with
  | S754_finite s m e => cond_Zopp s (Zpos m) * 2 ^ (e - g)
  | _ => 0
  end.

Definition exponentSF (f : spec_float) : Z :=
  match f with
  | S754_finite _ _ e => e
  | _ => 0
  end.

Definition finite (f : float) : bool := finiteSF (Prim2SF f).
Definition exact (f : float) : Q := exactSF (Prim2SF f).

(** An element whose position and size are multiples of [2 ^ - k] of at
    most 50 bits. *)
Definition gridElement (k : Z) (e : Element.t) : Prop :=
  exists x1 y1 width height,
    Forall (fun n => Z.abs n <= 2 ^ 50) [x1; y1; width; height]
    /\ Element.x e = grid k x1
    /\ Element.y e = grid k y1
    /\ Element.width e = grid k width
    /\ Element.height e = grid k height.

(** An element that is neither an arrow nor a line. *)
Definition notLinear (e : Element.t) : Prop :=
  Element.type e <> "arrow"%string /\ Element.type e <> "line"%string.

(** The point [(x, y)] is strictly inside the box
    [x, y, x + width, y + height] of [e]. *)
Definition insideBox (x y : float) (e : Element.t) : Prop :=
  finite x = true /\ finite y = true
  /\ (exact (Element.x e) < exact x
      /\ exact x < exact (Element.x e) + exact (Element.width e)
      /\ exact (Element.y e) < exact y
      /\ exact y < exact (Element.y e) + exact (Element.height e))%Q.

(** The test of [getElementContainingPosition] on one element that is not
    linear. *)
Definition containsPosition (x y : float) (e : Element.t) : bool :=
  (PrimFloat.ltb (Element.x e) x
   && PrimFloat.ltb x (PrimFloat.add (Element.x e) (Element.width e))
   && PrimFloat.ltb (Element.y e) y
   && PrimFloat.ltb y (PrimFloat.add (Element.y e) (Element.height e)))%bool.
End Float64Spec.

(** * Properties *)

(** ** Arrays *)

Section ArrayFacts.
Import JsArray.
Context {T : Type}.
Implicit Types (a : jsarray T) (v x : option T) (A B : list (option T)).
Local Open Scope Z_scope.

Lemma set_slot_middle A x B v :
  set_slot (A ++ x :: B) (List.length A) v = A ++ v :: B.
Proof. induction A as [|y A IH]; simpl; [reflexivity | now rewrite IH]. Qed.

Lemma aget_middle A x B ps i :
  i = Z.of_nat (List.length A) ->
  aget (mkArray (A ++ x :: B) ps) i = x.
Proof.
  intros ->. unfold aget; simpl.
  destruct (Z.ltb_spec (Z.of_nat (List.length A)) 0); [lia|].
  rewrite Nat2Z.id. apply nth_middle.
Qed.

Lemma aset_middle A x B ps i v :
  i = Z.of_nat (List.length A) ->
  aset (mkArray (A ++ x :: B) ps) i v = mkArray (A ++ v :: B) ps.
Proof.
  intros ->. unfold aset; simpl.
  destruct (Z.ltb_spec (Z.of_nat (List.length A)) 0); [lia|].
  now rewrite Nat2Z.id, set_slot_middle.
Qed.

(** A list cut at a position inside it. *)
Lemma split_at (A : list (option T)) (n : nat) :
  (n < List.length A)%nat ->
  exists x, A = firstn n A ++ x :: skipn (S n) A.
Proof.
  revert n; induction A as [|y A IH]; intros n Hn; simpl in Hn; [lia|].
  destruct n as [|n]; simpl.
  - now exists y.
  - destruct (IH n) as [x Hx]; [lia|]. exists x. f_equal. exact Hx.
Qed.

Lemma array_eta a : a = mkArray (slots a) (props a).
Proof. now destruct a. Qed.
End ArrayFacts.

(** ** Sorting the indices *)

Section SortFacts.
Import ZIndex ZIndexSpec.
Local Open Scope Z_scope.

Lemma insertAsc_below x l :
  Forall (Z.lt x) l -> insertAsc x l = x :: l.
Proof.
  destruct l as [|y l]; [reflexivity|]. intros H; inversion_clear H; simpl.
  destruct (Z.leb_spec x y); [reflexivity | lia].
Qed.

Lemma sortAsc_ascending l : ascending l -> sortAsc l = l.
Proof.
  induction 1 as [|x l Hs IH Hx]; simpl; [reflexivity|].
  rewrite IH. now apply insertAsc_below.
Qed.

Lemma insertAsc_perm x l : Permutation (insertAsc x l) (x :: l).
Proof.
  induction l as [|y l IH]; simpl; [reflexivity|].
  destruct (Z.leb x y); [reflexivity|].
  rewrite IH. apply perm_swap.
Qed.

Lemma sortAsc_perm l : Permutation (sortAsc l) l.
Proof.
  induction l as [|x l IH]; simpl; [reflexivity|].
  rewrite insertAsc_perm. now constructor.
Qed.

Lemma insertAsc_sorted x l :
  ~ In x l -> ascending l -> ascending (insertAsc x l).
Proof.
  intros Hx Hl; induction Hl as [|y l Hl IH Hy]; simpl.
  - repeat constructor.
  - destruct (Z.leb_spec x y).
    + assert (x < y) by (simpl in Hx; lia).
      constructor; [now constructor|].
      constructor; [assumption|].
      eapply Forall_impl; [|exact Hy]. simpl; intros; lia.
    + constructor; [apply IH; simpl in Hx; tauto|].
      eapply Permutation_Forall; [symmetry; apply insertAsc_perm|].
      constructor; [lia | assumption].
Qed.

Lemma sortAsc_sorted l : NoDup l -> ascending (sortAsc l).
Proof.
  induction 1 as [|x l Hx Hl IH]; simpl; [constructor|].
  apply insertAsc_sorted; [|assumption].
  intros Hin; apply Hx. eapply Permutation_in; [apply sortAsc_perm|eassumption].
Qed.

Lemma insertDesc_above x l :
  Forall (Z.lt x) l -> insertDesc x l = l ++ [x].
Proof.
  induction 1 as [|y l Hy Hl IH]; simpl; [reflexivity|].
  destruct (Z.leb_spec y x); [lia | now rewrite IH].
Qed.

Lemma sortDesc_ascending l : ascending l -> sortDesc l = rev l.
Proof.
  induction 1 as [|x l Hs IH Hx]; simpl; [reflexivity|].
  rewrite IH. apply insertDesc_above.
  eapply Permutation_Forall; [apply Permutation_rev | assumption].
Qed.

Lemma insertDesc_insertAsc x l :
  ~ In x l -> ascending l -> insertDesc x (rev l) = rev (insertAsc x l).
Proof.
  intros Hx Hl; induction Hl as [|y l Hl IH Hy]; simpl; [reflexivity|].
  destruct (Z.leb_spec x y).
  - assert (Hlt : x < y) by (simpl in Hx; lia).
    change (rev (x :: y :: l)) with (rev (y :: l) ++ [x]).
    apply insertDesc_above.
    eapply Permutation_Forall; [apply Permutation_rev|].
    constructor; [assumption|].
    eapply Forall_impl; [|exact Hy]. simpl; intros; lia.
  - simpl. rewrite <- IH by (simpl in Hx; tauto).
    assert (Hgen : forall a, insertDesc x (a ++ [y]) = insertDesc x a ++ [y]).
    { induction a as [|z a IHa]; simpl.
      - destruct (Z.leb_spec y x); [reflexivity | lia].
      - destruct (Z.leb z x); [reflexivity | now rewrite IHa]. }
    apply Hgen.
Qed.

(** Sorting in descending order gives the ascending order reversed. *)
Lemma sortDesc_rev l : NoDup l -> sortDesc l = rev (sortAsc l).
Proof.
  induction 1 as [|x l Hx Hl IH]; simpl; [reflexivity|].
  rewrite IH. apply insertDesc_insertAsc.
  - intros Hin; apply Hx.
    eapply Permutation_in; [apply sortAsc_perm | eassumption].
  - now apply sortAsc_sorted.
Qed.

Lemma ascending_app_inv l1 l2 :
  ascending (l1 ++ l2) ->
  ascending l1 /\ ascending l2
  /\ forall x y, In x l1 -> In y l2 -> x < y.
Proof.
  induction l1 as [|z l1 IH]; simpl; intros H.
  - repeat split; [constructor | assumption | contradiction].
  - inversion_clear H. destruct (IH H0) as (H2 & H3 & H4).
    rewrite Forall_app in H1. destruct H1 as [H5 H6].
    repeat split; [now constructor | assumption |].
    intros x y [<-|Hx] Hy; [|now apply H4].
    rewrite Forall_forall in H6. now apply H6.
Qed.
End SortFacts.

(** ** Selected and unselected values *)

Section SelectionFacts.
Import JsArray ZIndexSpec.
Local Open Scope Z_scope.

Lemma isSelected_ext idx idx' pos :
  (forall i, In i idx <-> In i idx') ->
  isSelected idx pos = isSelected idx' pos.
Proof.
  intros H. apply eq_true_iff_eq. unfold isSelected.
  rewrite !existsb_exists. split; intros (i & Hi & E); exists i;
    (split; [now apply H | assumption]).
Qed.

Lemma isSelected_false idx pos :
  ~ In pos idx -> isSelected idx pos = false.
Proof.
  intros H. apply not_true_is_false. unfold isSelected.
  rewrite existsb_exists. intros (i & Hi & E).
  apply Z.eqb_eq in E. now subst.
Qed.

Lemma isSelected_true idx pos : In pos idx -> isSelected idx pos = true.
Proof.
  intros H. unfold isSelected. rewrite existsb_exists.
  exists pos. split; [assumption | apply Z.eqb_refl].
Qed.

Lemma unselectedFrom_app {A} off (l1 l2 : list A) idx :
  unselectedFrom off (l1 ++ l2) idx =
  unselectedFrom off l1 idx
    ++ unselectedFrom (off + Z.of_nat (List.length l1)) l2 idx.
Proof.
  revert off; induction l1 as [|v l1 IH]; intros off; simpl.
  - now rewrite Z.add_0_r.
  - rewrite IH.
    replace (off + 1 + Z.of_nat (List.length l1))
      with (off + Z.pos (Pos.of_succ_nat (List.length l1))) by lia.
    now destruct (isSelected idx off).
Qed.

Lemma unselectedFrom_ext {A} off (l : list A) idx idx' :
  (forall i, In i idx <-> In i idx') ->
  unselectedFrom off l idx = unselectedFrom off l idx'.
Proof.
  intros H; revert off; induction l as [|v l IH]; intros off; simpl;
    [reflexivity|].
  now rewrite (isSelected_ext idx idx' off H), !IH.
Qed.

(** No selected position in the stretch: nothing is removed. *)
Lemma unselectedFrom_all {A} off (l : list A) idx :
  (forall i, In i idx -> i < off \/ off + Z.of_nat (List.length l) <= i) ->
  unselectedFrom off l idx = l.
Proof.
  revert off; induction l as [|v l IH]; intros off H; simpl;
    [reflexivity|].
  rewrite isSelected_false.
  - f_equal. apply IH. intros i Hi. specialize (H i Hi).
    simpl List.length in H. lia.
  - intros Hin. specialize (H off Hin). simpl List.length in H. lia.
Qed.

(** An index outside the stretch does not matter. *)
Lemma unselectedFrom_drop {A} off (l : list A) m idx :
  m < off \/ off + Z.of_nat (List.length l) <= m ->
  unselectedFrom off l (m :: idx) = unselectedFrom off l idx.
Proof.
  revert off; induction l as [|v l IH]; intros off H; simpl;
    [reflexivity|].
  simpl List.length in H.
  rewrite IH by lia.
  destruct (Z.eqb_spec off m); [lia | reflexivity].
Qed.

(** The selected values followed by the others are the values of the
    array, in another order. *)
Lemma selected_unselected_perm {A} (d : A) (l : list A) :
  forall off idx,
    ascending idx ->
    Forall (fun i => off <= i < off + Z.of_nat (List.length l)) idx ->
    Permutation
      (map (fun i => nth (Z.to_nat (i - off)) l d) idx
         ++ unselectedFrom off l idx) l.
Proof.
  induction l as [|v l IH]; intros off idx Hasc Hin.
  - destruct idx as [|i idx]; [reflexivity|].
    inversion_clear Hin. simpl in H. lia.
  - simpl unselectedFrom.
    destruct idx as [|i idx].
    + simpl. constructor. rewrite unselectedFrom_all by (intros ? []).
      reflexivity.
    + inversion Hasc as [|? ? Hasc' Hlt]; subst.
      inversion Hin as [|? ? Hi Hin']; subst.
      simpl List.length in *.
      assert (Htail : Forall (fun k => off + 1 <= k
                        < off + 1 + Z.of_nat (List.length l)) idx).
      { rewrite Forall_forall in *. intros k Hk.
        specialize (Hlt k Hk). specialize (Hin' k Hk). lia. }
      destruct (Z.eq_dec i off) as [->|Hne].
      * rewrite isSelected_true by now left.
        simpl map. rewrite Z.sub_diag. simpl nth.
        simpl. constructor.
        rewrite unselectedFrom_drop by lia.
        specialize (IH (off + 1) idx Hasc' Htail).
        erewrite map_ext_in; [exact IH|].
        intros k Hk. rewrite Forall_forall in Htail.
        specialize (Htail k Hk).
        replace (Z.to_nat (k - off)) with (S (Z.to_nat (k - (off + 1))))
          by lia.
        reflexivity.
      * rewrite isSelected_false.
        2:{ intros [E|Hk]; [congruence|].
            rewrite Forall_forall in Hlt. specialize (Hlt off Hk). lia. }
        assert (Hall : Forall (fun k => off + 1 <= k
                          < off + 1 + Z.of_nat (List.length l)) (i :: idx)).
        { constructor; [lia | assumption]. }
        specialize (IH (off + 1) (i :: idx) Hasc Hall).
        etransitivity; [symmetry; apply Permutation_middle|].
        constructor.
        erewrite map_ext_in; [exact IH|].
        intros k Hk. rewrite Forall_forall in Hall.
        specialize (Hall k Hk).
        replace (Z.to_nat (k - off)) with (S (Z.to_nat (k - (off + 1))))
          by lia.
        reflexivity.
Qed.
End SelectionFacts.

(** Equal lists up to the bracketing of [++]. *)
Ltac reassoc :=
  repeat (progress (rewrite <- ?app_assoc; simpl)); reflexivity.

(** ** [moveAllLeft] *)

Section MoveAllLeftFacts.
Import JsArray ZIndex ZIndexSpec.
Context {T : Type}.
Implicit Types (a : jsarray T) (M X Sx Pre : list (option T)).
Local Open Scope Z_scope.

(** The inner loop copies the stretch [M] over the [j] slots to its right
    and what follows of itself. *)
Lemma shiftRight_spec M : forall Pre X Sx ps j pos,
  X <> [] ->
  j = List.length X ->
  pos = Z.of_nat (List.length Pre + List.length M) - 1 ->
  shiftRight (List.length M) (mkArray (Pre ++ M ++ X ++ Sx) ps) pos
    (Z.of_nat j)
  = mkArray (Pre ++ firstn j (M ++ X) ++ M ++ Sx) ps.
Proof.
  induction M as [|e M IH] using rev_ind; intros Pre X Sx ps j pos HX Hj Hpos.
  - simpl. subst j. now rewrite firstn_all.
  - rewrite length_app, Nat.add_1_r. simpl shiftRight.
    destruct (exists_last HX) as (X' & x0 & ->).
    rewrite length_app in Hj. simpl in Hj.
    rewrite length_app in Hpos. simpl in Hpos.
    replace (Pre ++ (M ++ [e]) ++ (X' ++ [x0]) ++ Sx)
      with ((Pre ++ M) ++ e :: (X' ++ [x0]) ++ Sx)
      by reassoc.
    rewrite aget_middle by (rewrite length_app; lia).
    replace ((Pre ++ M) ++ e :: (X' ++ [x0]) ++ Sx)
      with ((Pre ++ M ++ e :: X') ++ x0 :: Sx)
      by reassoc.
    rewrite aset_middle by (rewrite !length_app; simpl; lia).
    replace ((Pre ++ M ++ e :: X') ++ e :: Sx)
      with (Pre ++ M ++ (e :: X') ++ e :: Sx)
      by reassoc.
    rewrite (IH Pre (e :: X') (e :: Sx) ps j (pos - 1));
      [| discriminate | simpl; lia | lia].
    assert (E : firstn j ((M ++ [e]) ++ X' ++ [x0])
                = firstn j (M ++ e :: X')).
    { replace ((M ++ [e]) ++ X' ++ [x0]) with ((M ++ e :: X') ++ [x0])
        by reassoc.
      rewrite firstn_app.
      replace (j - List.length (M ++ e :: X'))%nat with O
        by (rewrite length_app; simpl; lia).
      simpl. apply app_nil_r. }
    rewrite E. f_equal. reassoc.
Qed.

Lemma moveAllLeft_each_step a markers i index rest :
  moveAllLeft_each a markers (S i) (index :: rest)
  = moveAllLeft_each
      (shiftRight (Z.to_nat (nth i markers 0 - 1 - index + 1)) a
         (nth i markers 0 - 1) (Z.of_nat (S i)))
      markers (S (S i)) rest.
Proof. reflexivity. Qed.

(** The outer loop, once the rightmost marker [prev] has been passed:
    [X] are the [i] slots from [prev] on whose values no longer count, and
    [Sx] the unselected values to the right of them. *)
Lemma moveAllLeft_each_spec (l : list (option T)) ps rest :
  forall prev done X Sx i,
    StronglySorted Z.gt (prev :: rest) ->
    Forall (fun m => 0 <= m) rest ->
    0 <= prev <= Z.of_nat (List.length l) ->
    i = S (List.length done) ->
    i = List.length X ->
    exists X',
      List.length X' = (i + List.length rest)%nat /\
      moveAllLeft_each
        (mkArray (firstn (Z.to_nat prev) l ++ X ++ Sx) ps)
        (done ++ prev :: rest ++ [0]) i (rest ++ [0])
      = mkArray
          (X' ++ unselectedFrom 0 (firstn (Z.to_nat prev) l) rest ++ Sx) ps.
Proof.
  induction rest as [|m rest IH]; intros prev done X Sx i Hs Hpos Hp Hi HX.
  - assert (Hlen : List.length (firstn (Z.to_nat prev) l) = Z.to_nat prev)
      by (apply firstn_length_le; lia).
    exists (firstn i (firstn (Z.to_nat prev) l ++ X)). split.
    + rewrite firstn_length_le; [simpl; lia|]. rewrite length_app. lia.
    + destruct i as [|i']; [discriminate|].
      simpl app. rewrite moveAllLeft_each_step.
      rewrite (app_nth2 done) by lia.
      replace (i' - List.length done)%nat with O by lia.
      cbn [nth moveAllLeft_each].
      replace (Z.to_nat (prev - 1 - 0 + 1))
        with (List.length (firstn (Z.to_nat prev) l)) by lia.
      assert (HXne : X <> []) by (intros ->; discriminate).
      pose proof (shiftRight_spec (firstn (Z.to_nat prev) l) [] X Sx ps
                    (S i') (prev - 1) HXne HX ltac:(simpl; lia)) as E.
      cbn [app] in E. rewrite E.
      rewrite unselectedFrom_all; [reflexivity|].
      intros ? [].
  - inversion Hs as [|? ? Hs' Hgt]; subst.
    inversion Hgt as [|? ? Hm Hgt']; subst.
    inversion Hpos as [|? ? Hm0 Hpos']; subst.
    set (p := Z.to_nat prev). set (q := Z.to_nat m).
    assert (Hq : (q < p)%nat) by (unfold p, q; lia).
    assert (Hpl : (p <= List.length l)%nat) by (unfold p; lia).
    assert (Hcut : firstn p l = firstn q l ++ skipn q (firstn p l)).
    { rewrite <- (firstn_skipn q (firstn p l)) at 1.
      rewrite firstn_firstn. now rewrite Nat.min_l by lia. }
    assert (HlenM : List.length (skipn q (firstn p l)) = (p - q)%nat).
    { rewrite length_skipn, firstn_length_le; lia. }
    assert (Hlenq : List.length (firstn q l) = q)
      by (apply firstn_length_le; lia).
    destruct (skipn q (firstn p l)) as [|lm M'] eqn:EM;
      [simpl in HlenM; lia|].
    set (i' := List.length done) in *.
    assert (HXne : X <> []) by (intros ->; discriminate).
    destruct (IH m (done ++ [prev])
                (firstn (S i') ((lm :: M') ++ X) ++ [lm])
                (M' ++ Sx) (S (S i')))
      as (X' & HX' & E).
    + assumption.
    + assumption.
    + lia.
    + rewrite length_app. simpl. lia.
    + rewrite length_app, firstn_length_le; [simpl; lia|].
      rewrite length_app. lia.
    + exists X'. split; [simpl; lia|].
      simpl app. rewrite moveAllLeft_each_step.
      rewrite !(app_nth2 done) by (unfold i'; lia).
      replace (i' - List.length done)%nat with O by (unfold i'; lia).
      cbn [nth].
      replace (Z.to_nat (prev - 1 - m + 1)) with (List.length (lm :: M'))
        by (rewrite HlenM; unfold p, q; lia).
      rewrite Hcut, <- app_assoc.
      rewrite (shiftRight_spec (lm :: M') (firstn q l) X Sx ps
                 (S i') (prev - 1));
        [| assumption | assumption
         | rewrite HlenM, Hlenq; unfold p, q; lia].
      replace (firstn q l ++ firstn (S i') ((lm :: M') ++ X)
                 ++ (lm :: M') ++ Sx)
        with (firstn q l
                ++ (firstn (S i') ((lm :: M') ++ X) ++ [lm])
                ++ (M' ++ Sx))
        by reassoc.
      replace (done ++ prev :: m :: rest ++ [0])
        with ((done ++ [prev]) ++ m :: rest ++ [0])
        by reassoc.
      fold q in E. rewrite E. f_equal. f_equal.
      rewrite unselectedFrom_app, Hlenq.
      rewrite unselectedFrom_drop by lia.
      rewrite <- app_assoc. f_equal.
      cbn [unselectedFrom].
      rewrite isSelected_true by (simpl; left; unfold q; lia).
      rewrite unselectedFrom_all; [reflexivity|].
      intros k [<-|Hk]; [unfold q; lia|].
      inversion Hs' as [|? ? _ Hlt]; subst.
      rewrite Forall_forall in Hlt. specialize (Hlt k Hk).
      unfold q. lia.
Qed.

Lemma restoreLeft_spec saved : forall D X Rt ps,
  List.length X = List.length saved ->
  restoreLeft (mkArray (D ++ X ++ Rt) ps) (Z.of_nat (List.length D)) saved
  = mkArray (D ++ saved ++ Rt) ps.
Proof.
  induction saved as [|v saved IH]; intros D X Rt ps HX.
  - destruct X; [reflexivity | discriminate].
  - destruct X as [|x X]; [discriminate|]. simpl in HX.
    cbn [restoreLeft app].
    rewrite aset_middle by reflexivity.
    replace (D ++ v :: X ++ Rt) with ((D ++ [v]) ++ X ++ Rt) by reassoc.
    replace (Z.of_nat (List.length D) + 1)
      with (Z.of_nat (List.length (D ++ [v])))
      by (rewrite length_app; simpl; lia).
    rewrite IH by lia. f_equal. reassoc.
Qed.

Lemma sorted_snoc {A} (R : A -> A -> Prop) l x :
  StronglySorted R l -> Forall (fun y => R y x) l ->
  StronglySorted R (l ++ [x]).
Proof.
  induction 1 as [|y l Hl IH Hy]; intros Hx; simpl.
  - repeat constructor.
  - inversion_clear Hx. constructor; [now apply IH|].
    rewrite Forall_app. split; [assumption | now repeat constructor].
Qed.

Lemma ascending_rev l : ascending l -> StronglySorted Z.gt (rev l).
Proof.
  induction 1 as [|x l Hl IH Hx]; simpl; [constructor|].
  apply sorted_snoc; [assumption|].
  eapply Permutation_Forall; [apply Permutation_rev|].
  eapply Forall_impl; [|exact Hx]. simpl; intros; lia.
Qed.

(** [moveAllLeft] on ascending indices of slots: the selected values, then
    the others. *)
Lemma moveAllLeft_ascending a idx :
  ascending idx -> inRange a idx ->
  moveAllLeft a idx
  = mkArray (selected a idx ++ unselected a idx) (props a).
Proof.
  intros Hasc Hin. unfold moveAllLeft, selected, unselected.
  rewrite (sortAsc_ascending idx Hasc).
  destruct (rev idx) as [|prev rest] eqn:Erev.
  - assert (idx = []) as -> by (now apply (f_equal (@rev Z)) in Erev;
      rewrite rev_involutive in Erev).
    simpl. rewrite unselectedFrom_all by (intros ? []).
    apply array_eta.
  - assert (Eidx : idx = rev rest ++ [prev]).
    { apply (f_equal (@rev Z)) in Erev.
      now rewrite rev_involutive in Erev. }
    assert (Hdesc : StronglySorted Z.gt (prev :: rest))
      by (rewrite <- Erev; now apply ascending_rev).
    assert (Hall : Forall (fun i => 0 <= i < length a) (prev :: rest)).
    { rewrite <- Erev. eapply Permutation_Forall;
        [apply Permutation_rev | exact Hin]. }
    inversion Hall as [|? ? Hprev Hrest]; subst idx.
    set (sl := slots a) in *. unfold length in Hprev. fold sl in Hprev.
    set (p := Z.to_nat prev).
    destruct (split_at sl p) as [lp Hl]; [unfold p; lia|].
    cbn [app moveAllLeft_each].
    rewrite (array_eta a). fold sl. cbn [slots props].
    rewrite Hl at 1.
    destruct (moveAllLeft_each_spec sl (props a) rest prev [] [lp]
                (skipn (S p) sl) 1) as (X' & HX' & E).
    + assumption.
    + eapply Forall_impl; [|exact Hrest]. simpl; intros; lia.
    + lia.
    + reflexivity.
    + reflexivity.
    + fold p in E. cbn [app] in E. cbn [app]. rewrite E.
      pose proof (restoreLeft_spec (map (aget (mkArray sl (props a)))
                                      (rev rest ++ [prev]))
                    [] X'
                    (unselectedFrom 0 (firstn p sl) rest ++ skipn (S p) sl)
                    (props a)) as E2.
      cbn [app List.length] in E2. change (Z.of_nat 0) with 0 in E2.
      rewrite E2.
      2:{ rewrite length_map, length_app, length_rev. simpl. lia. }
      f_equal. f_equal.
      rewrite Hl at 3.
      rewrite unselectedFrom_app.
      assert (Hlenp : List.length (firstn p sl) = p)
        by (apply firstn_length_le; unfold p; lia).
      rewrite Hlenp.
      rewrite (unselectedFrom_ext 0 (firstn p sl) (rev rest ++ [prev])
                 (prev :: rest)).
      2:{ intros i. rewrite in_app_iff, <- in_rev. simpl. tauto. }
      rewrite unselectedFrom_drop by lia.
      f_equal.
      cbn [unselectedFrom].
      rewrite isSelected_true
        by (rewrite in_app_iff; right; simpl; left; unfold p; lia).
      rewrite unselectedFrom_all; [reflexivity|].
      intros k Hk. left.
      rewrite in_app_iff, <- in_rev in Hk. destruct Hk as [Hk|[<-|[]]].
      * inversion Hdesc as [|? ? _ Hlt]; subst.
        rewrite Forall_forall in Hlt. specialize (Hlt k Hk).
        unfold p. lia.
      * unfold p. lia.
Qed.
End MoveAllLeftFacts.

(** ** [moveAllRight] *)

Section MoveAllRightFacts.
Import JsArray ZIndex ZIndexSpec.
Context {T : Type}.
Implicit Types (a : jsarray T) (M X U Sx Pre : list (option T)).
Local Open Scope Z_scope.

(** The inner loop copies the stretch [M] over the [j] slots to its left
    and what precedes of itself. *)
Lemma shiftLeft_spec M : forall Pre X Sx ps j pos,
  X <> [] ->
  j = List.length X ->
  pos = Z.of_nat (List.length Pre + List.length X) ->
  shiftLeft (List.length M) (mkArray (Pre ++ X ++ M ++ Sx) ps) pos
    (Z.of_nat j)
  = mkArray (Pre ++ M ++ skipn (List.length M) (X ++ M) ++ Sx) ps.
Proof.
  induction M as [|e M IH]; intros Pre X Sx ps j pos HX Hj Hpos.
  - simpl. now rewrite app_nil_r.
  - destruct X as [|x X']; [congruence|]. simpl in Hj.
    cbn [List.length shiftLeft].
    replace (Pre ++ (x :: X') ++ (e :: M) ++ Sx)
      with ((Pre ++ x :: X') ++ e :: M ++ Sx) by reassoc.
    rewrite aget_middle by (subst pos; now rewrite length_app).
    replace ((Pre ++ x :: X') ++ e :: M ++ Sx)
      with (Pre ++ x :: X' ++ e :: M ++ Sx) by reassoc.
    rewrite aset_middle by (simpl in Hpos; lia).
    replace (Pre ++ e :: X' ++ e :: M ++ Sx)
      with ((Pre ++ [e]) ++ (X' ++ [e]) ++ M ++ Sx) by reassoc.
    rewrite (IH (Pre ++ [e]) (X' ++ [e]) Sx ps j (pos + 1)).
    + f_equal. cbn [app skipn].
      replace (X' ++ e :: M) with ((X' ++ [e]) ++ M) by reassoc.
      reassoc.
    + now destruct X'.
    + rewrite length_app. simpl. lia.
    + rewrite !length_app. simpl in *. lia.
Qed.

Lemma moveAllRight_each_step a markers i index rest :
  moveAllRight_each a markers (S i) (index :: rest)
  = moveAllRight_each
      (shiftLeft (Z.to_nat (index - (nth i markers 0 + 1))) a
         (nth i markers 0 + 1) (Z.of_nat (S i)))
      markers (S (S i)) rest.
Proof. reflexivity. Qed.

(** The outer loop, once the leftmost marker [prev] has been passed: [U]
    are the unselected values to the left, and [X] the [i] slots up to
    [prev] whose values no longer count. *)
Lemma moveAllRight_each_spec (l : list (option T)) ps rest :
  forall prev done X U i,
    StronglySorted Z.lt (prev :: rest) ->
    Forall (fun m => m < Z.of_nat (List.length l)) rest ->
    0 <= prev < Z.of_nat (List.length l) ->
    i = S (List.length done) ->
    i = List.length X ->
    Z.of_nat (List.length U + i) = prev + 1 ->
    exists X',
      List.length X' = (i + List.length rest)%nat /\
      moveAllRight_each
        (mkArray (U ++ X ++ skipn (S (Z.to_nat prev)) l) ps)
        (done ++ prev :: rest ++ [Z.of_nat (List.length l)]) i
        (rest ++ [Z.of_nat (List.length l)])
      = mkArray
          (U ++ unselectedFrom (prev + 1) (skipn (S (Z.to_nat prev)) l) rest
             ++ X') ps.
Proof.
  induction rest as [|m rest IH];
    intros prev done X U i Hs Hlt Hp Hi HX HU.
  - set (M := skipn (S (Z.to_nat prev)) l).
    assert (HlenM : List.length M
                    = (List.length l - S (Z.to_nat prev))%nat)
      by (unfold M; apply length_skipn).
    exists (skipn (List.length M) (X ++ M)). split.
    + rewrite length_skipn, length_app. simpl. lia.
    + subst i. cbn [app]. rewrite moveAllRight_each_step.
      rewrite !(app_nth2 done) by lia.
      rewrite Nat.sub_diag. cbn [nth moveAllRight_each].
      replace (Z.to_nat (Z.of_nat (List.length l) - (prev + 1)))
        with (List.length M) by lia.
      assert (HXne : X <> []) by (intros ->; discriminate).
      pose proof (shiftLeft_spec M U X [] ps (S (List.length done))
                    (prev + 1) HXne HX ltac:(lia)) as E.
      rewrite !app_nil_r in E. rewrite E.
      rewrite unselectedFrom_all; [reflexivity|].
      intros ? [].
  - inversion Hs as [|? ? Hs' Hgt]; subst.
    inversion Hgt as [|? ? Hm Hgt']; subst.
    inversion Hlt as [|? ? Hmn Hlt']; subst.
    set (p := Z.to_nat prev) in *. set (q := Z.to_nat m).
    assert (Hq : (p < q)%nat) by (unfold p, q; lia).
    assert (Hql : (q < List.length l)%nat) by (unfold q; lia).
    assert (Hcut : skipn (S p) l
                   = firstn (q - S p) (skipn (S p) l) ++ skipn q l).
    { rewrite <- (firstn_skipn (q - S p) (skipn (S p) l)) at 1.
      rewrite skipn_skipn. f_equal. f_equal. lia. }
    set (M := firstn (q - S p) (skipn (S p) l)) in *.
    assert (HlenM : List.length M = (q - S p)%nat).
    { unfold M. rewrite firstn_length_le; [reflexivity|].
      rewrite length_skipn. lia. }
    assert (Hlq : exists lq, skipn q l = lq :: skipn (S q) l).
    { destruct (split_at l q Hql) as [lq Hl]. exists lq.
      rewrite Hl at 1. rewrite skipn_app.
      rewrite firstn_length_le by lia. rewrite Nat.sub_diag.
      rewrite skipn_all2 by (rewrite firstn_length_le; lia).
      reflexivity. }
    destruct Hlq as [lq Hlq].
    set (i' := List.length done) in *.
    assert (HXne : X <> []) by (intros ->; discriminate).
    destruct (IH m (done ++ [prev])
                (skipn (List.length M) (X ++ M) ++ [lq])
                (U ++ M) (S (S i')))
      as (X' & HX' & E).
    + assumption.
    + assumption.
    + lia.
    + rewrite length_app. simpl. unfold i'. lia.
    + rewrite length_app, length_skipn, length_app. simpl. lia.
    + rewrite length_app, HlenM. unfold p, q in *. lia.
    + exists X'. split; [simpl; lia|].
      cbn [app]. rewrite moveAllRight_each_step.
      rewrite !(app_nth2 done) by (unfold i'; lia).
      replace (i' - List.length done)%nat with O by (unfold i'; lia).
      cbn [nth].
      replace (Z.to_nat (m - (prev + 1))) with (List.length M)
        by (rewrite HlenM; unfold p, q; lia).
      rewrite Hcut, Hlq.
      rewrite (shiftLeft_spec M U X (lq :: skipn (S q) l) ps (S i')
                 (prev + 1)); [| assumption | assumption | lia].
      replace (U ++ M ++ skipn (List.length M) (X ++ M)
                 ++ lq :: skipn (S q) l)
        with ((U ++ M) ++ (skipn (List.length M) (X ++ M) ++ [lq])
                ++ skipn (S q) l) by reassoc.
      replace (done ++ prev :: m :: rest ++ [Z.of_nat (List.length l)])
        with ((done ++ [prev]) ++ m :: rest ++ [Z.of_nat (List.length l)])
        by reassoc.
      fold q in E. rewrite E. f_equal.
      rewrite <- app_assoc. f_equal.
      rewrite unselectedFrom_app, HlenM.
      rewrite (unselectedFrom_all (prev + 1) M).
      2:{ intros k [<-|Hk]; [unfold p, q; lia|].
          inversion Hs' as [|? ? _ Hlt2]; subst.
          rewrite Forall_forall in Hlt2. specialize (Hlt2 k Hk).
          unfold p, q. lia. }
      rewrite <- app_assoc. f_equal.
      cbn [unselectedFrom].
      rewrite isSelected_true by (simpl; left; unfold p, q; lia).
      rewrite unselectedFrom_drop by (unfold p, q; lia).
      f_equal. f_equal. unfold p, q. lia.
Qed.

Lemma restoreRight_spec saved : forall D X Rt ps,
  List.length X = List.length saved ->
  restoreRight (mkArray (D ++ X ++ Rt) ps) (Z.of_nat (List.length Rt)) saved
  = mkArray (D ++ rev saved ++ Rt) ps.
Proof.
  induction saved as [|v saved IH]; intros D X Rt ps HX.
  - destruct X; [reflexivity | discriminate].
  - destruct (exists_last (l:=X)) as (X0 & x & ->);
      [intros ->; discriminate|].
    rewrite length_app in HX. simpl in HX.
    cbn [restoreRight].
    replace (D ++ (X0 ++ [x]) ++ Rt) with ((D ++ X0) ++ x :: Rt)
      by reassoc.
    rewrite aset_middle.
    2:{ unfold length. cbn [slots]. rewrite !length_app. simpl. lia. }
    replace ((D ++ X0) ++ v :: Rt) with (D ++ X0 ++ v :: Rt) by reassoc.
    replace (Z.of_nat (List.length Rt) + 1)
      with (Z.of_nat (List.length (v :: Rt))) by (simpl; lia).
    rewrite IH by lia. f_equal. reassoc.
Qed.

(** [moveAllRight] on ascending indices of slots: the unselected values,
    then the selected ones. *)
Lemma moveAllRight_ascending a idx :
  ascending idx -> inRange a idx ->
  moveAllRight a idx
  = mkArray (unselected a idx ++ selected a idx) (props a).
Proof.
  intros Hasc Hin. unfold moveAllRight, selected, unselected.
  rewrite (sortDesc_ascending idx Hasc), rev_involutive.
  destruct a as [sl ps]. unfold inRange, length in *. cbn [slots props] in *.
  destruct idx as [|prev rest].
  - simpl. rewrite app_nil_r.
    now rewrite unselectedFrom_all by (intros ? []).
  - inversion Hin as [|? ? Hprev Hrest]; subst.
    set (p := Z.to_nat prev).
    destruct (split_at sl p) as [lp Hl]; [unfold p; lia|].
    assert (Hlenp : List.length (firstn p sl) = p)
      by (apply firstn_length_le; unfold p; lia).
    assert (Huns : unselectedFrom 0 sl (prev :: rest)
                   = firstn p sl
                       ++ unselectedFrom (prev + 1) (skipn (S p) sl) rest).
    { rewrite Hl at 1. rewrite unselectedFrom_app, Hlenp.
      rewrite (unselectedFrom_all 0 (firstn p sl)).
      2:{ rewrite Hlenp. intros k [<-|Hk]; [unfold p; lia|].
          inversion Hasc as [|? ? _ Hlt]; subst.
          rewrite Forall_forall in Hlt. specialize (Hlt k Hk).
          unfold p. lia. }
      cbn [unselectedFrom].
      rewrite isSelected_true by (simpl; left; unfold p; lia).
      rewrite unselectedFrom_drop by (unfold p; lia).
      f_equal. f_equal. unfold p. lia. }
    destruct (moveAllRight_each_spec sl ps rest prev [] [lp]
                (firstn p sl) 1) as (X' & HX' & E).
    + assumption.
    + eapply Forall_impl; [|exact Hrest]. simpl; intros; lia.
    + lia.
    + reflexivity.
    + reflexivity.
    + rewrite Hlenp. unfold p. lia.
    + fold p in E. cbn [app] in E. rewrite <- Hl in E.
      cbn [app moveAllRight_each]. rewrite E.
      pose proof (restoreRight_spec
                    (map (aget (mkArray sl ps)) (rev (prev :: rest)))
                    (firstn p sl
                       ++ unselectedFrom (prev + 1) (skipn (S p) sl) rest)
                    X' [] ps) as E2.
      rewrite !app_nil_r in E2. cbn [List.length] in E2.
      change (Z.of_nat 0) with 0 in E2.
      rewrite <- app_assoc in E2. rewrite E2.
      2:{ rewrite length_map, length_rev. simpl. simpl in HX'. lia. }
      f_equal.
      rewrite <- map_rev, rev_involutive, Huns. reassoc.
Qed.
End MoveAllRightFacts.

(** ** [moveOneLeft] and [moveOneRight] *)

Section MoveOneFacts.
Import JsArray ZIndex ZIndexSpec.
Context {T : Type}.
Implicit Types (a : jsarray T).
Local Open Scope Z_scope.

Lemma aget_next (A : list (option T)) x y C ps i :
  i = Z.of_nat (List.length A) + 1 ->
  aget (mkArray (A ++ x :: y :: C) ps) i = y.
Proof.
  intros ->. replace (A ++ x :: y :: C) with ((A ++ [x]) ++ y :: C)
    by reassoc.
  apply aget_middle. rewrite length_app. simpl. lia.
Qed.

Lemma aset_next (A : list (option T)) x y C ps i v :
  i = Z.of_nat (List.length A) + 1 ->
  aset (mkArray (A ++ x :: y :: C) ps) i v = mkArray (A ++ x :: v :: C) ps.
Proof.
  intros ->. replace (A ++ x :: y :: C) with ((A ++ [x]) ++ y :: C)
    by reassoc.
  rewrite aset_middle by (rewrite length_app; simpl; lia).
  f_equal. reassoc.
Qed.

(** A swap of two neighbours. *)
Lemma swap_neighbours (A : list (option T)) x y C ps i :
  i = Z.of_nat (List.length A) ->
  swap (mkArray (A ++ x :: y :: C) ps) i (i + 1)
  = mkArray (A ++ y :: x :: C) ps
  /\ swap (mkArray (A ++ x :: y :: C) ps) (i + 1) i
     = mkArray (A ++ y :: x :: C) ps.
Proof.
  intros Hi. unfold swap. split.
  - rewrite (aget_middle A x (y :: C) ps i Hi).
    rewrite (aget_next A x y C ps (i + 1)) by lia.
    rewrite (aset_middle A x (y :: C) ps i y Hi).
    now rewrite (aset_next A y y C ps (i + 1) x) by lia.
  - rewrite (aget_middle A x (y :: C) ps i Hi).
    rewrite (aget_next A x y C ps (i + 1)) by lia.
    rewrite (aset_next A x y C ps (i + 1) x) by lia.
    now rewrite (aset_middle A x (x :: C) ps i y Hi).
Qed.

(** An array cut before two neighbouring slots. *)
Lemma split_neighbours a i :
  1 <= i < length a ->
  exists A x y C,
    a = mkArray (A ++ x :: y :: C) (props a)
    /\ Z.of_nat (List.length A) = i - 1.
Proof.
  intros Hi. unfold length in Hi.
  destruct (split_at (slots a) (Z.to_nat (i - 1))) as [x Hx]; [lia|].
  destruct (skipn (S (Z.to_nat (i - 1))) (slots a)) as [|y C] eqn:E.
  - apply (f_equal (@List.length _)) in E.
    rewrite length_skipn in E. simpl in E. lia.
  - exists (firstn (Z.to_nat (i - 1)) (slots a)), x, y, C. split.
    + rewrite <- Hx. apply array_eta.
    + rewrite firstn_length_le; lia.
Qed.

Lemma swap_left_spec a i :
  1 <= i < length a ->
  exists A x y C,
    a = mkArray (A ++ x :: y :: C) (props a)
    /\ Z.of_nat (List.length A) = i - 1
    /\ swap a (i - 1) i = mkArray (A ++ y :: x :: C) (props a).
Proof.
  intros Hi. destruct (split_neighbours a i Hi) as (A & x & y & C & Ea & HA).
  exists A, x, y, C. repeat split; try assumption.
  rewrite Ea at 1.
  destruct (swap_neighbours A x y C (props a) (i - 1)) as [E _]; [lia|].
  now replace (i - 1 + 1) with i in E by lia.
Qed.

Lemma swap_right_spec a i :
  0 <= i < length a - 1 ->
  exists A x y C,
    a = mkArray (A ++ x :: y :: C) (props a)
    /\ Z.of_nat (List.length A) = i
    /\ swap a (i + 1) i = mkArray (A ++ y :: x :: C) (props a).
Proof.
  intros Hi.
  destruct (split_neighbours a (i + 1)) as (A & x & y & C & Ea & HA);
    [lia|].
  exists A, x, y, C. repeat split; try assumption; try lia.
  rewrite Ea at 1.
  destruct (swap_neighbours A x y C (props a) i) as [_ E]; [lia|].
  exact E.
Qed.

Lemma swap_left_length a i :
  1 <= i < length a -> length (swap a (i - 1) i) = length a.
Proof.
  intros Hi. destruct (swap_left_spec a i Hi) as (A & x & y & C & Ea & _ & E).
  rewrite E. rewrite Ea at 2. unfold length; simpl.
  now rewrite !length_app.
Qed.

Lemma swap_left_perm a i :
  1 <= i < length a -> Permutation (slots (swap a (i - 1) i)) (slots a).
Proof.
  intros Hi. destruct (swap_left_spec a i Hi) as (A & x & y & C & Ea & _ & E).
  rewrite E. rewrite Ea at 2. simpl.
  apply Permutation_app_head, perm_swap.
Qed.

Lemma swap_right_length a i :
  0 <= i < length a - 1 -> length (swap a (i + 1) i) = length a.
Proof.
  intros Hi.
  destruct (swap_right_spec a i Hi) as (A & x & y & C & Ea & _ & E).
  rewrite E. rewrite Ea at 2. unfold length; simpl.
  now rewrite !length_app.
Qed.

Lemma swap_right_perm a i :
  0 <= i < length a - 1 ->
  Permutation (slots (swap a (i + 1) i)) (slots a).
Proof.
  intros Hi.
  destruct (swap_right_spec a i Hi) as (A & x & y & C & Ea & _ & E).
  rewrite E. rewrite Ea at 2. simpl.
  apply Permutation_app_head, perm_swap.
Qed.


(** What a swap of neighbours does to each slot. *)
Lemma aget_swap_left a i q :
  1 <= i < length a ->
  aget (swap a (i - 1) i) q
  = if Z.eqb q (i - 1) then aget a i
    else if Z.eqb q i then aget a (i - 1)
    else aget a q.
Proof.
  intros Hi. destruct (swap_left_spec a i Hi) as (A & x & y & C & Ea & HA & E).
  rewrite E. rewrite Ea. cbn [props].
  destruct (Z.eqb_spec q (i - 1)) as [->|N1].
  - rewrite (aget_middle A y (x :: C)) by lia.
    replace (A ++ x :: y :: C) with ((A ++ [x]) ++ y :: C) by reassoc.
    rewrite aget_middle; [reflexivity|].
    rewrite length_app. simpl. lia.
  - destruct (Z.eqb_spec q i) as [->|N2].
    + replace (A ++ y :: x :: C) with ((A ++ [y]) ++ x :: C) by reassoc.
      rewrite aget_middle by (rewrite length_app; simpl; lia).
      now rewrite (aget_middle A x (y :: C)) by lia.
    + unfold aget. cbn [slots props].
      destruct (Z.ltb q 0) eqn:Hq; [reflexivity|].
      apply Z.ltb_ge in Hq.
      destruct (Z.ltb_spec q (i - 1)).
      * rewrite !app_nth1 by lia. reflexivity.
      * rewrite !app_nth2 by lia.
        replace (Z.to_nat q - List.length A)%nat
          with (S (S (Z.to_nat q - List.length A - 2))) by lia.
        reflexivity.
Qed.

(** Once [isSorted] is false the loop swaps at every index. *)
Lemma moveOneLeft_each_false rest : forall a i,
  moveOneLeft_each a false i rest = swapsLeft a rest.
Proof.
  induction rest as [|index rest IH]; intros a i; [reflexivity|].
  cbn [moveOneLeft_each andb]. apply IH.
Qed.

(** While [isSorted] holds nothing moves. *)
Lemma moveOneLeft_each_true rest : forall a i,
  moveOneLeft_each a true i rest
  = swapsLeft a (skipn (frontRun i rest) rest).
Proof.
  induction rest as [|index rest IH]; intros a i; [reflexivity|].
  cbn [moveOneLeft_each frontRun andb].
  destruct (Z.eqb index i).
  - cbn [skipn]. apply IH.
  - cbn [skipn]. now rewrite moveOneLeft_each_false.
Qed.

Lemma moveOneRight_each_false rest : forall a i,
  moveOneRight_each a false i rest = swapsRight a rest.
Proof.
  induction rest as [|index rest IH]; intros a i; [reflexivity|].
  cbn [moveOneRight_each andb]. apply IH.
Qed.

Lemma moveOneRight_each_true rest : forall a i,
  moveOneRight_each a true i rest
  = swapsRight a (skipn (backRun (length a) i rest) rest).
Proof.
  induction rest as [|index rest IH]; intros a i; [reflexivity|].
  cbn [moveOneRight_each backRun andb].
  destruct (Z.eqb index (length a - i - 1)).
  - cbn [skipn]. apply IH.
  - cbn [skipn]. now rewrite moveOneRight_each_false.
Qed.


Lemma swapsLeft_perm l : forall a,
  Forall (fun i => 1 <= i < length a) l ->
  Permutation (slots (swapsLeft a l)) (slots a).
Proof.
  induction l as [|i l IH]; intros a H; [reflexivity|].
  inversion_clear H. cbn [swapsLeft fold_left].
  fold (swapsLeft (swap a (i - 1) i) l).
  rewrite IH by (now rewrite swap_left_length by assumption).
  now apply swap_left_perm.
Qed.

Lemma swapsRight_perm l : forall a,
  Forall (fun i => 0 <= i < length a - 1) l ->
  Permutation (slots (swapsRight a l)) (slots a).
Proof.
  induction l as [|i l IH]; intros a H; [reflexivity|].
  inversion_clear H. cbn [swapsRight fold_left].
  fold (swapsRight (swap a (i + 1) i) l).
  rewrite IH by (now rewrite swap_right_length by assumption).
  now apply swap_right_perm.
Qed.

(** A slot that is neither at an index nor just before one keeps its
    value. *)
Lemma swapsLeft_untouched l : forall a q,
  Forall (fun i => 1 <= i < length a) l ->
  (forall i, In i l -> q <> i - 1 /\ q <> i) ->
  aget (swapsLeft a l) q = aget a q.
Proof.
  induction l as [|i l IH]; intros a q H Hq; [reflexivity|].
  inversion_clear H. cbn [swapsLeft fold_left].
  fold (swapsLeft (swap a (i - 1) i) l).
  rewrite IH.
  - rewrite aget_swap_left by assumption.
    destruct (Hq i (or_introl eq_refl)) as [N1 N2].
    destruct (Z.eqb_spec q (i - 1)); [contradiction|].
    destruct (Z.eqb_spec q i); [contradiction | reflexivity].
  - now rewrite swap_left_length by assumption.
  - intros k Hk. apply Hq. now right.
Qed.

(** Each value at an index goes one slot toward the front. *)
Lemma swapsLeft_moved l : forall a index,
  ascending l ->
  Forall (fun i => 1 <= i < length a) l ->
  In index l ->
  aget (swapsLeft a l) (index - 1) = aget a index.
Proof.
  induction l as [|i l IH]; intros a index Hasc H Hin; [contradiction|].
  inversion Hasc as [|? ? Hasc' Hlt]; subst.
  inversion_clear H. cbn [swapsLeft fold_left].
  fold (swapsLeft (swap a (i - 1) i) l).
  assert (Hl : Forall (fun k => 1 <= k < length (swap a (i - 1) i)) l)
    by (now rewrite swap_left_length by assumption).
  rewrite Forall_forall in Hlt.
  destruct Hin as [->|Hin].
  - rewrite swapsLeft_untouched; [| assumption |].
    + rewrite aget_swap_left by assumption. now rewrite Z.eqb_refl.
    + intros k Hk. specialize (Hlt k Hk). lia.
  - rewrite IH by assumption.
    rewrite aget_swap_left by assumption.
    specialize (Hlt index Hin).
    destruct (Z.eqb_spec index (i - 1)); [lia|].
    destruct (Z.eqb_spec index i); [lia | reflexivity].
Qed.

(** The indices counted by [frontRun] are the positions themselves. *)
Lemma frontRun_prefix rest : forall i k index,
  (k < frontRun i rest)%nat ->
  nth_error rest k = Some index ->
  index = i + Z.of_nat k.
Proof.
  induction rest as [|x rest IH]; intros i k index Hk Hn;
    [simpl in Hk; lia|].
  cbn [frontRun] in Hk. destruct (Z.eqb_spec x i); [|lia].
  destruct k as [|k]; simpl in Hn.
  - injection Hn as <-. lia.
  - rewrite (IH (i + 1) k index) by (assumption || lia). lia.
Qed.

(** The other indices lie beyond them, with room for a swap. *)
Lemma frontRun_rest rest : forall i,
  ascending rest ->
  Forall (fun x => i <= x) rest ->
  Forall (fun x => i + Z.of_nat (frontRun i rest) + 1 <= x)
    (skipn (frontRun i rest) rest).
Proof.
  induction rest as [|x rest IH]; intros i Hasc Hlow; [constructor|].
  inversion Hasc as [|? ? Hasc' Hlt]; subst.
  inversion Hlow as [|? ? Hx Hlow']; subst.
  cbn [frontRun]. destruct (Z.eqb_spec x i) as [->|Hne].
  - cbn [skipn].
    eapply Forall_impl; [|apply (IH (i + 1) Hasc')].
    + simpl; intros; lia.
    + eapply Forall_impl; [|exact Hlt]. simpl; intros; lia.
  - cbn [skipn]. constructor; [simpl; lia|].
    eapply Forall_impl; [|exact Hlt]. simpl; intros; lia.
Qed.

Lemma backRun_rest n rest : forall i,
  StronglySorted Z.gt rest ->
  Forall (fun x => x <= n - i - 1) rest ->
  Forall (fun x => x <= n - i - 2)
    (skipn (backRun n i rest) rest).
Proof.
  induction rest as [|x rest IH]; intros i Hs Hup; [constructor|].
  inversion Hs as [|? ? Hs' Hgt]; subst.
  inversion Hup as [|? ? Hx Hup']; subst.
  cbn [backRun]. destruct (Z.eqb_spec x (n - i - 1)) as [->|Hne].
  - cbn [skipn].
    eapply Forall_impl; [|apply (IH (i + 1) Hs')].
    + simpl; intros; lia.
    + eapply Forall_impl; [|exact Hgt]. simpl; intros; lia.
  - cbn [skipn]. constructor; [lia|].
    eapply Forall_impl; [|exact Hgt]. simpl; intros; lia.
Qed.


Lemma Forall_skipn {A} (P : A -> Prop) k l :
  Forall P l -> Forall P (skipn k l).
Proof.
  intros H. rewrite <- (firstn_skipn k l) in H.
  rewrite Forall_app in H. tauto.
Qed.


(** Nothing blocked: [moveOneLeft] swaps at every index. *)
Lemma moveOneLeft_free a idx :
  ascending idx -> Forall (fun i => 1 <= i) idx ->
  moveOneLeft a idx = swapsLeft a idx.
Proof.
  intros Hasc H. unfold moveOneLeft.
  rewrite (sortAsc_ascending idx Hasc), moveOneLeft_each_true.
  destruct idx as [|x idx]; [reflexivity|].
  inversion_clear H. cbn [frontRun].
  destruct (Z.eqb_spec x 0); [lia | reflexivity].
Qed.

Lemma ascending_pred idx :
  ascending idx -> ascending (map (fun i => i - 1) idx).
Proof.
  induction 1 as [|x l Hl IH Hx]; simpl; constructor; [assumption|].
  rewrite Forall_map. eapply Forall_impl; [|exact Hx]. simpl; intros; lia.
Qed.

Lemma moveOneRight_free a idx :
  ascending idx -> Forall (fun i => i < length a - 1) idx ->
  moveOneRight a idx = swapsRight a (rev idx).
Proof.
  intros Hasc H. unfold moveOneRight.
  rewrite (sortDesc_ascending idx Hasc), moveOneRight_each_true.
  destruct (rev idx) as [|x r] eqn:E; [reflexivity|].
  assert (Hx : x < length a - 1).
  { rewrite Forall_forall in H. apply H. apply in_rev. rewrite E. now left. }
  cbn [backRun].
  destruct (Z.eqb_spec x (length a - 0 - 1)); [lia | reflexivity].
Qed.

End MoveOneFacts.

(** ** The restacking operations of the specification *)

Section RestackFacts.
Import JsArray ZIndex ZIndexSpec.
Context {T : Type}.
Implicit Types (a : jsarray T).
Local Open Scope Z_scope.

Lemma selected_unselected_slots a idx :
  ascending idx -> inRange a idx ->
  Permutation (selected a idx ++ unselected a idx) (slots a).
Proof.
  intros Hasc Hin. unfold selected, unselected.
  erewrite map_ext_in;
    [apply (selected_unselected_perm None (slots a) 0 idx Hasc)|].
  - eapply Forall_impl; [|exact Hin]. unfold length. simpl; intros; lia.
  - intros i Hi. unfold inRange in Hin. rewrite Forall_forall in Hin.
    specialize (Hin i Hi). unfold aget.
    destruct (Z.ltb_spec i 0); [lia|]. now rewrite Z.sub_0_r.
Qed.

Lemma sorted_inRange a idx : inRange a idx -> inRange a (sortAsc idx).
Proof.
  intros H. eapply Permutation_Forall; [|exact H].
  symmetry. apply sortAsc_perm.
Qed.

Lemma sameElements_of_perm (r a : jsarray T) :
  Permutation (slots r) (slots a) -> sameElements r a.
Proof.
  intros H. split; [assumption|]. unfold length.
  now rewrite (Permutation_length H).
Qed.

Lemma moveOneLeft_sameElements a idx :
  NoDup idx -> inRange a idx -> sameElements (moveOneLeft a idx) a.
Proof.
  intros Hnd Hin. apply sameElements_of_perm.
  unfold moveOneLeft. rewrite moveOneLeft_each_true.
  apply swapsLeft_perm.
  pose proof (sortAsc_sorted idx Hnd) as Hasc.
  pose proof (sorted_inRange a idx Hin) as Hin'.
  assert (Hlow : Forall (fun x => 0 <= x) (sortAsc idx))
    by (eapply Forall_impl; [|exact Hin']; simpl; intros; lia).
  pose proof (frontRun_rest (sortAsc idx) 0 Hasc Hlow) as Hrest.
  apply (Forall_skipn _ (frontRun 0 (sortAsc idx))) in Hin'.
  rewrite Forall_forall in *. intros i Hi.
  specialize (Hin' i Hi). specialize (Hrest i Hi). lia.
Qed.

Lemma moveOneRight_sameElements a idx :
  NoDup idx -> inRange a idx -> sameElements (moveOneRight a idx) a.
Proof.
  intros Hnd Hin. apply sameElements_of_perm.
  unfold moveOneRight. rewrite moveOneRight_each_true.
  apply swapsRight_perm.
  rewrite (sortDesc_rev idx Hnd).
  pose proof (sortAsc_sorted idx Hnd) as Hasc.
  pose proof (sorted_inRange a idx Hin) as Hin'.
  assert (Hin2 : Forall (fun i => 0 <= i < length a) (rev (sortAsc idx)))
    by (eapply Permutation_Forall; [apply Permutation_rev | exact Hin']).
  assert (Hup : Forall (fun x => x <= length a - 0 - 1)
                  (rev (sortAsc idx)))
    by (eapply Forall_impl; [|exact Hin2]; simpl; intros; lia).
  pose proof (backRun_rest (length a) (rev (sortAsc idx)) 0
                (ascending_rev _ Hasc) Hup) as Hrest.
  apply (Forall_skipn _ (backRun (length a) 0 (rev (sortAsc idx))))
    in Hin2.
  rewrite Forall_forall in *. intros i Hi.
  specialize (Hin2 i Hi). specialize (Hrest i Hi). lia.
Qed.

Lemma moveAllLeft_sameElements a idx :
  NoDup idx -> inRange a idx -> sameElements (moveAllLeft a idx) a.
Proof.
  intros Hnd Hin. apply sameElements_of_perm.
  pose proof (sortAsc_sorted idx Hnd) as Hasc.
  pose proof (sorted_inRange a idx Hin) as Hin'.
  assert (E : moveAllLeft a idx = moveAllLeft a (sortAsc idx))
    by (unfold moveAllLeft; now rewrite (sortAsc_ascending _ Hasc)).
  rewrite E, (moveAllLeft_ascending a _ Hasc Hin'). cbn [slots].
  now apply selected_unselected_slots.
Qed.

Lemma moveAllRight_sameElements a idx :
  NoDup idx -> inRange a idx -> sameElements (moveAllRight a idx) a.
Proof.
  intros Hnd Hin. apply sameElements_of_perm.
  pose proof (sortAsc_sorted idx Hnd) as Hasc.
  pose proof (sorted_inRange a idx Hin) as Hin'.
  assert (E : moveAllRight a idx = moveAllRight a (sortAsc idx)).
  { unfold moveAllRight.
    now rewrite (sortDesc_rev idx Hnd), (sortDesc_ascending _ Hasc). }
  rewrite E, (moveAllRight_ascending a _ Hasc Hin'). cbn [slots].
  rewrite Permutation_app_comm.
  now apply selected_unselected_slots.
Qed.
End RestackFacts.

Section RestackClaims.
Import JsArray ZIndex ZIndexSpec.
Local Open Scope Z_scope.

(** C1.  On [[a,b,c,d,e,f,g]] with the selected indices [[2,5]],
    [moveAllLeft] returns [[c,f,a,b,d,e,g]].  For every array and every
    strictly ascending list of indices of its slots, the result holds the
    selected values in its leading slots, in the order of the indices, and
    after them the values that are not selected, in the order they had. *)
Theorem moveAllLeft_selected_first :
  (forall (T : Type) (a b c d e f g : T),
      slots (moveAllLeft (of_list [a; b; c; d; e; f; g]) [2; 5])
      = map Some [c; f; a; b; d; e; g])
  /\ (forall (T : Type) (elements : jsarray T) (indices : list Z),
        ascending indices ->
        inRange elements indices ->
        slots (moveAllLeft elements indices)
        = selected elements indices ++ unselected elements indices).
Proof.
  split.
  - reflexivity.
  - intros T elements indices Hasc Hin.
    now rewrite (moveAllLeft_ascending elements indices Hasc Hin).
Qed.


(** C10.  For every array and every list of distinct indices of its slots,
    each of [moveOneLeft], [moveOneRight], [moveAllLeft] and [moveAllRight]
    returns an array of the same length with the same values, each as many
    times. *)
Theorem restack_sameElements :
  forall (T : Type) (elements : jsarray T) (indices : list Z),
    NoDup indices ->
    inRange elements indices ->
    sameElements (moveOneLeft elements indices) elements
    /\ sameElements (moveOneRight elements indices) elements
    /\ sameElements (moveAllLeft elements indices) elements
    /\ sameElements (moveAllRight elements indices) elements.
Proof.
  intros T elements indices Hnd Hin. repeat split.
  - now apply moveOneLeft_sameElements.
  - now apply moveOneLeft_sameElements.
  - now apply moveOneRight_sameElements.
  - now apply moveOneRight_sameElements.
  - now apply moveAllLeft_sameElements.
  - now apply moveAllLeft_sameElements.
  - now apply moveAllRight_sameElements.
  - now apply moveAllRight_sameElements.
Qed.
End RestackClaims.

(** ** The parser of JSON texts *)

Section JsonFacts.
Import Json.

Lemma skipWs_shorter s : List.length (skipWs s) <= List.length s.
Proof.
  induction s as [|c s IH]; simpl; [lia|].
  destruct (isWs c); simpl; lia.
Qed.

Lemma stripPrefix_length word : forall s r,
  stripPrefix word s = Some r ->
  List.length s = List.length word + List.length r.
Proof.
  induction word as [|c word IH]; intros s r H; simpl in H.
  - now injection H as <-.
  - destruct s as [|d s]; [discriminate|].
    destruct (Ascii.eqb c d); [|discriminate].
    simpl. now rewrite (IH s r H).
Qed.

Lemma parseChars_shorter n : forall s acc units r,
  List.length s <= n ->
  parseChars s acc = Some (units, r) ->
  List.length r < List.length s.
Proof.
  induction n as [|n IH]; intros s acc units r Hn H.
  - destruct s; [discriminate | simpl in Hn; lia].
  - destruct s as [|c s]; [discriminate|]. cbn [parseChars] in H.
    simpl in Hn.
    destruct (Ascii.eqb c "034").
    + injection H as _ <-. simpl. lia.
    + destruct (Ascii.eqb c "\").
      * destruct s as [|e s]; [discriminate|]. simpl in Hn.
        destruct (escapeUnit e).
        -- apply IH in H; simpl; lia.
        -- destruct (Ascii.eqb e "u"); [|discriminate].
           destruct s as [|h1 [|h2 [|h3 [|h4 s]]]]; try discriminate.
           destruct (hexUnit h1 h2 h3 h4); [|discriminate].
           simpl in Hn. apply IH in H; simpl; lia.
      * destruct (N.ltb (N_of_ascii c) 32); [discriminate|].
        apply IH in H; simpl; lia.
Qed.

Lemma spanDigits_length s : forall ds r,
  spanDigits s = (ds, r) ->
  List.length s = List.length ds + List.length r.
Proof.
  induction s as [|c s IH]; intros ds r H; simpl in H.
  - now injection H as <- <-.
  - destruct (isDigit c).
    + destruct (spanDigits s) as [ds' r'] eqn:E.
      injection H as <- <-. simpl. now rewrite (IH ds' r' eq_refl).
    + now injection H as <- <-.
Qed.

Lemma optionalChar_length c s found r :
  optionalChar c s = (found, r) ->
  List.length s = List.length found + List.length r.
Proof.
  unfold optionalChar. destruct (stripPrefix [c] s) as [r0|] eqn:E.
  - apply stripPrefix_length in E. intros H; injection H as <- <-.
    simpl in *. lia.
  - intros H; now injection H as <- <-.
Qed.

Lemma parseInt_shorter s int r :
  parseInt s = Some (int, r) -> List.length r < List.length s.
Proof.
  unfold parseInt. destruct (spanDigits s) as [ds r0] eqn:E.
  apply spanDigits_length in E.
  destruct ds as [|d [|d' ds]]; [discriminate| |].
  - intros H; injection H as _ <-. simpl in E. lia.
  - destruct (Ascii.eqb d "0"); [discriminate|].
    intros H; injection H as _ <-. simpl in E. lia.
Qed.

Lemma parseFrac_shorter s fr r :
  parseFrac s = Some (fr, r) -> List.length r <= List.length s.
Proof.
  unfold parseFrac. destruct (stripPrefix ["."%char] s) as [r0|] eqn:E.
  - apply stripPrefix_length in E.
    destruct (spanDigits r0) as [ds r'] eqn:Ed.
    apply spanDigits_length in Ed.
    destruct ds; [discriminate|]. intros H; injection H as _ <-. lia.
  - intros H; injection H as _ <-. lia.
Qed.

Lemma parseExp_shorter s ex r :
  parseExp s = Some (ex, r) -> List.length r <= List.length s.
Proof.
  unfold parseExp.
  destruct (match optionalChar "e" s with
            | ([], _) => optionalChar "E" s
            | found => found
            end) as [e r0] eqn:Ee.
  assert (He : List.length s = List.length e + List.length r0).
  { destruct (optionalChar "e" s) as [[|c l] r'] eqn:E1.
    - now apply optionalChar_length in Ee.
    - injection Ee as <- <-. now apply optionalChar_length in E1. }
  destruct e as [|c e].
  - intros H; injection H as _ <-. lia.
  - destruct (match optionalChar "+" r0 with
              | ([], _) => optionalChar "-" r0
              | found => found
              end) as [esign r1] eqn:Es.
    assert (Hs : List.length r0 = List.length esign + List.length r1).
    { destruct (optionalChar "+" r0) as [[|c' l] r'] eqn:E1.
      - now apply optionalChar_length in Es.
      - injection Es as <- <-. now apply optionalChar_length in E1. }
    destruct (spanDigits r1) as [ds r2] eqn:Ed.
    apply spanDigits_length in Ed.
    destruct ds; [discriminate|]. intros H; injection H as _ <-. lia.
Qed.

Lemma parseNumber_shorter s lexeme r :
  parseNumber s = Some (lexeme, r) -> List.length r < List.length s.
Proof.
  unfold parseNumber.
  destruct (optionalChar "-" s) as [sign s1] eqn:E1.
  apply optionalChar_length in E1.
  destruct (parseInt s1) as [[int s2]|] eqn:E2; [|discriminate].
  apply parseInt_shorter in E2.
  destruct (parseFrac s2) as [[fr s3]|] eqn:E3; [|discriminate].
  apply parseFrac_shorter in E3.
  destruct (parseExp s3) as [[ex s4]|] eqn:E4; [|discriminate].
  apply parseExp_shorter in E4.
  intros H; injection H as _ <-. lia.
Qed.

(** Every parser consumes at least one character. *)
Lemma parse_shorter fuel :
  (forall s v r,
      parseValue fuel s = Some (v, r) -> List.length r < List.length s)
  /\ (forall s acc items r,
        parseElements fuel s acc = Some (items, r) ->
        List.length r < List.length s)
  /\ (forall s acc members r,
        parseMembers fuel s acc = Some (members, r) ->
        List.length r < List.length s).
Proof.
  induction fuel as [|fuel (IHv & IHe & IHm)];
    [repeat split; discriminate|].
  split; [|split].
  - intros s v r H. cbn [parseValue] in H. cbv zeta in H.
    pose proof (skipWs_shorter s) as Hs.
    destruct (stripPrefix _ (skipWs s)) as [r0|] eqn:E1 in H.
    { apply stripPrefix_length in E1. injection H as _ <-.
      pose proof (skipWs_shorter r0). simpl in E1. lia. }
    destruct (stripPrefix _ (skipWs s)) as [r0|] eqn:E2 in H.
    { apply stripPrefix_length in E2. injection H as _ <-.
      pose proof (skipWs_shorter r0). simpl in E2. lia. }
    destruct (stripPrefix _ (skipWs s)) as [r0|] eqn:E3 in H.
    { apply stripPrefix_length in E3. injection H as _ <-.
      pose proof (skipWs_shorter r0). simpl in E3. lia. }
    destruct (stripPrefix _ (skipWs s)) as [r0|] eqn:E4 in H.
    { apply stripPrefix_length in E4. simpl in E4.
      destruct (parseChars r0 []) as [[str r']|] eqn:Ec; [|discriminate].
      apply (parseChars_shorter (List.length r0)) in Ec; [|lia].
      injection H as _ <-. pose proof (skipWs_shorter r'). lia. }
    destruct (stripPrefix _ (skipWs s)) as [r0|] eqn:E5 in H.
    { apply stripPrefix_length in E5. simpl in E5.
      pose proof (skipWs_shorter r0) as H0.
      destruct (stripPrefix _ (skipWs r0)) as [r'|] eqn:Eb in H.
      - apply stripPrefix_length in Eb. injection H as _ <-.
        pose proof (skipWs_shorter r'). simpl in Eb. lia.
      - destruct (parseElements fuel (skipWs r0) []) as [[items r']|] eqn:Ee;
          [|discriminate].
        apply IHe in Ee. injection H as _ <-.
        pose proof (skipWs_shorter r'). lia. }
    destruct (stripPrefix _ (skipWs s)) as [r0|] eqn:E6 in H.
    { apply stripPrefix_length in E6. simpl in E6.
      pose proof (skipWs_shorter r0) as H0.
      destruct (stripPrefix _ (skipWs r0)) as [r'|] eqn:Eb in H.
      - apply stripPrefix_length in Eb. injection H as _ <-.
        pose proof (skipWs_shorter r'). simpl in Eb. lia.
      - destruct (parseMembers fuel (skipWs r0) []) as [[members r']|] eqn:Em;
          [|discriminate].
        apply IHm in Em. injection H as _ <-.
        pose proof (skipWs_shorter r'). lia. }
    destruct (parseNumber (skipWs s)) as [[lexeme r0]|] eqn:En;
      [|discriminate].
    apply parseNumber_shorter in En. injection H as _ <-.
    pose proof (skipWs_shorter r0). lia.
  - intros s acc items r H. cbn [parseElements] in H.
    destruct (parseValue fuel s) as [[v r0]|] eqn:Ev; [|discriminate].
    apply IHv in Ev.
    destruct (stripPrefix _ r0) as [r'|] eqn:E1 in H.
    { apply stripPrefix_length in E1. simpl in E1.
      apply IHe in H. lia. }
    destruct (stripPrefix _ r0) as [r'|] eqn:E2 in H; [|discriminate].
    apply stripPrefix_length in E2. simpl in E2.
    injection H as _ <-. lia.
  - intros s acc members r H. cbn [parseMembers] in H.
    pose proof (skipWs_shorter s) as Hs.
    destruct (stripPrefix _ (skipWs s)) as [r0|] eqn:E1 in H;
      [|discriminate].
    apply stripPrefix_length in E1. simpl in E1.
    destruct (parseChars r0 []) as [[key r1]|] eqn:Ec; [|discriminate].
    apply (parseChars_shorter (List.length r0)) in Ec; [|lia].
    pose proof (skipWs_shorter r1) as H1.
    destruct (stripPrefix _ (skipWs r1)) as [r2|] eqn:E2 in H;
      [|discriminate].
    apply stripPrefix_length in E2. simpl in E2.
    destruct (parseValue fuel r2) as [[v r3]|] eqn:Ev; [|discriminate].
    apply IHv in Ev.
    destruct (stripPrefix _ r3) as [r4|] eqn:E3 in H.
    { apply stripPrefix_length in E3. simpl in E3.
      apply IHm in H. lia. }
    destruct (stripPrefix _ r3) as [r4|] eqn:E4 in H; [|discriminate].
    apply stripPrefix_length in E4. simpl in E4.
    injection H as _ <-. lia.
Qed.

(** With twice the length of the text and one more as fuel (and one more
    again inside an array or an object) the parsers do not stop for want of
    fuel: more fuel gives the same result. *)
Lemma parse_fuel fuel : forall fuel',
  (forall s,
      2 * List.length s + 1 <= fuel -> 2 * List.length s + 1 <= fuel' ->
      parseValue fuel s = parseValue fuel' s)
  /\ (forall s acc,
        2 * List.length s + 2 <= fuel -> 2 * List.length s + 2 <= fuel' ->
        parseElements fuel s acc = parseElements fuel' s acc)
  /\ (forall s acc,
        2 * List.length s + 2 <= fuel -> 2 * List.length s + 2 <= fuel' ->
        parseMembers fuel s acc = parseMembers fuel' s acc).
Proof.
  induction fuel as [|fuel IH]; intros fuel';
    [repeat split; intros; lia|].
  destruct fuel' as [|fuel']; [repeat split; intros; lia|].
  destruct (IH fuel') as (IHv & IHe & IHm).
  destruct (parse_shorter fuel) as (Sv & _ & _).
  split; [|split].
  - intros s H1 H2. cbn [parseValue]. cbv zeta.
    pose proof (skipWs_shorter s) as Hs.
    destruct (stripPrefix ["n"; "u"; "l"; "l"]%char (skipWs s));
      [reflexivity|].
    destruct (stripPrefix ["t"; "r"; "u"; "e"]%char (skipWs s));
      [reflexivity|].
    destruct (stripPrefix ["f"; "a"; "l"; "s"; "e"]%char (skipWs s));
      [reflexivity|].
    destruct (stripPrefix ["034"%char] (skipWs s)); [reflexivity|].
    destruct (stripPrefix ["["%char] (skipWs s)) as [r0|] eqn:E5.
    { apply stripPrefix_length in E5. simpl in E5.
      pose proof (skipWs_shorter r0).
      destruct (stripPrefix ["]"%char] (skipWs r0)); [reflexivity|].
      now rewrite (IHe (skipWs r0) []) by lia. }
    destruct (stripPrefix ["{"%char] (skipWs s)) as [r0|] eqn:E6;
      [|reflexivity].
    apply stripPrefix_length in E6. simpl in E6.
    pose proof (skipWs_shorter r0).
    destruct (stripPrefix ["}"%char] (skipWs r0)); [reflexivity|].
    now rewrite (IHm (skipWs r0) []) by lia.
  - intros s acc H1 H2. cbn [parseElements].
    rewrite <- (IHv s) by lia.
    destruct (parseValue fuel s) as [[v r0]|] eqn:Ev; [|reflexivity].
    apply Sv in Ev.
    destruct (stripPrefix [","%char] r0) as [r'|] eqn:E1; [|reflexivity].
    apply stripPrefix_length in E1. simpl in E1.
    apply IHe; lia.
  - intros s acc H1 H2. cbn [parseMembers].
    pose proof (skipWs_shorter s) as Hs.
    destruct (stripPrefix ["034"%char] (skipWs s)) as [r0|] eqn:E1;
      [|reflexivity].
    apply stripPrefix_length in E1. simpl in E1.
    destruct (parseChars r0 []) as [[key r1]|] eqn:Ec; [|reflexivity].
    apply (parseChars_shorter (List.length r0)) in Ec; [|lia].
    pose proof (skipWs_shorter r1) as Hr1.
    destruct (stripPrefix [":"%char] (skipWs r1)) as [r2|] eqn:E2;
      [|reflexivity].
    apply stripPrefix_length in E2. simpl in E2.
    rewrite <- (IHv r2) by lia.
    destruct (parseValue fuel r2) as [[v r3]|] eqn:Ev; [|reflexivity].
    apply Sv in Ev.
    destruct (stripPrefix [","%char] r3) as [r4|] eqn:E3; [|reflexivity].
    apply stripPrefix_length in E3. simpl in E3.
    apply IHm; lia.
Qed.

(** [parse] gives its text fuel enough. *)
Lemma parseValue_fuel s fuel :
  2 * List.length s + 1 <= fuel ->
  parseValue fuel s = parseValue (2 * List.length s + 1) s.
Proof.
  intros H. now apply (parse_fuel fuel (2 * List.length s + 1)).
Qed.
End JsonFacts.

(** ** Undo and redo *)

Section HistoryFacts.
Import Json History HistoryStateSpec.

Lemma top_snoc (stack : list string) e : top (stack ++ [e]) = Some e.
Proof.
  unfold top. rewrite length_app. simpl.
  replace (List.length stack + 1 - 1)%nat with (List.length stack) by lia.
  now rewrite nth_error_app2, Nat.sub_diag by lia.
Qed.

Lemma pop_snoc (stack : list string) e : pop (stack ++ [e]) = Some (e, stack).
Proof. unfold pop. now rewrite top_snoc, removelast_last. Qed.

Lemma length_snoc_nonzero (stack : list string) e :
  Nat.eqb (List.length (stack ++ [e])) 0 = false.
Proof. rewrite length_app. simpl. apply Nat.eqb_neq. lia. Qed.

(** A new entry, different from the top, is put on the undo stack and
    empties the redo stack. *)
Lemma pushEntry_new h e :
  top (stateHistory h) <> Some e ->
  pushEntry h e
  = mkHistory (recording h) (stateHistory h ++ [e]) [].
Proof.
  intros Hne. unfold pushEntry.
  destruct (top (stateHistory h)) as [t|] eqn:Et.
  - destruct (String.eqb_spec t e) as [->|N]; [congruence|].
    now rewrite andb_false_r.
  - now rewrite andb_false_r.
Qed.

(** The entry on top again: nothing changes. *)
Lemma pushEntry_same h e :
  top (stateHistory h) = Some e -> pushEntry h e = h.
Proof.
  intros Ht. unfold pushEntry. rewrite Ht, String.eqb_refl.
  destruct (stateHistory h) as [|x l]; [discriminate | reflexivity].
Qed.

Lemma undoOnce_snoc r older current redo :
  undoOnce (mkHistory r (older ++ [current]) redo)
  = (restoreEntry (top older), mkHistory r older (redo ++ [current])).
Proof.
  unfold undoOnce. cbn [stateHistory redoStack recording].
  now rewrite length_snoc_nonzero, pop_snoc.
Qed.

Lemma redoOnce_snoc r undo redo e :
  redoOnce (mkHistory r undo (redo ++ [e]))
  = (restoreEntry (Some e), mkHistory r (undo ++ [e]) redo).
Proof.
  unfold redoOnce. cbn [stateHistory redoStack recording].
  now rewrite length_snoc_nonzero, pop_snoc.
Qed.

Lemma redoOnce_empty r undo :
  redoOnce (mkHistory r undo []) = (JNull, mkHistory r undo []).
Proof. reflexivity. Qed.

Lemma restoreEntry_unparseable e :
  parse e = None -> restoreEntry (Some e) = JNull.
Proof. intros H. unfold restoreEntry. now rewrite H. Qed.

Lemma restoreEntry_holds entry state :
  holds entry state -> restoreEntry entry = state.
Proof.
  destruct entry as [e|]; simpl.
  - intros H. unfold restoreEntry. now rewrite H.
  - intros ->. reflexivity.
Qed.
End HistoryFacts.

Section HistoryClaims.
Import Json History HistoryStateSpec.

(** C2.  Three edits pushed as entries [e1], [e2], [e3], each different
    from the one before it, which hold the scenes [s1], [s2], [s3], on a
    history whose top entry holds the scene [s0] of before the edits:
    three [undoOnce] return [s2], [s1] and [s0] and leave the undo stack as
    it was before the edits; three [redoOnce] then return [s1], [s2], [s3]
    and give the history of after the edits back; a new entry pushed after
    one [undoOnce] empties the redo stack, and [redoOnce] then returns
    [null]; pushing the entry that is on top of the undo stack changes
    nothing. *)
Theorem undo_redo_three_edits :
  forall (h0 : SceneHistory) (e1 e2 e3 : string) (s0 s1 s2 s3 : json),
    holds (top (stateHistory h0)) s0 ->
    parse e1 = Some s1 -> parse e2 = Some s2 -> parse e3 = Some s3 ->
    top (stateHistory h0) <> Some e1 -> e1 <> e2 -> e2 <> e3 ->
    let h3 := pushEntry (pushEntry (pushEntry h0 e1) e2) e3 in
    let u1 := undoOnce h3 in
    let u2 := undoOnce (snd u1) in
    let u3 := undoOnce (snd u2) in
    let r1 := redoOnce (snd u3) in
    let r2 := redoOnce (snd r1) in
    let r3 := redoOnce (snd r2) in
    (fst u1 = s2 /\ fst u2 = s1 /\ fst u3 = s0
     /\ stateHistory (snd u3) = stateHistory h0)
    /\ (fst r1 = s1 /\ fst r2 = s2 /\ fst r3 = s3 /\ snd r3 = h3)
    /\ (forall e4, e4 <> e2 ->
          redoStack (pushEntry (snd u1) e4) = []
          /\ redoOnce (pushEntry (snd u1) e4)
             = (JNull, pushEntry (snd u1) e4))
    /\ (forall h e, top (stateHistory h) = Some e -> pushEntry h e = h).
Proof.
  intros h0 e1 e2 e3 s0 s1 s2 s3 H0 P1 P2 P3 N1 N2 N3.
  destruct h0 as [r st0 redo0]. cbn [stateHistory] in *.
  rewrite (pushEntry_new _ e1) by assumption. cbn [stateHistory recording].
  rewrite (pushEntry_new _ e2)
    by (cbn [stateHistory]; rewrite top_snoc; congruence).
  cbn [stateHistory recording].
  rewrite (pushEntry_new _ e3)
    by (cbn [stateHistory]; rewrite top_snoc; congruence).
  cbn [stateHistory recording]. cbv zeta.
  replace (((st0 ++ [e1]) ++ [e2]) ++ [e3]) with (st0 ++ [e1; e2; e3])
    by reassoc.
  replace (st0 ++ [e1; e2; e3]) with ((st0 ++ [e1; e2]) ++ [e3]) by reassoc.
  rewrite undoOnce_snoc. cbn [fst snd].
  replace (st0 ++ [e1; e2]) with ((st0 ++ [e1]) ++ [e2]) by reassoc.
  rewrite undoOnce_snoc. cbn [fst snd].
  rewrite undoOnce_snoc. cbn [fst snd app].
  rewrite !top_snoc.
  change [e3; e2; e1] with ([e3; e2] ++ [e1]).
  rewrite redoOnce_snoc. cbn [fst snd].
  change [e3; e2] with ([e3] ++ [e2]).
  rewrite redoOnce_snoc. cbn [fst snd].
  pose proof (redoOnce_snoc r ((st0 ++ [e1]) ++ [e2]) [] e3) as R3.
  cbn [app] in R3. rewrite R3. cbn [fst snd].
  rewrite (restoreEntry_holds (Some e1) s1 P1),
    (restoreEntry_holds (Some e2) s2 P2),
    (restoreEntry_holds (Some e3) s3 P3),
    (restoreEntry_holds (top st0) s0 H0).
  split; [now repeat split|].
  split; [repeat split; reflexivity|].
  split.
  - intros e4 N4.
    rewrite pushEntry_new
      by (cbn [stateHistory]; rewrite top_snoc; congruence).
    now split.
  - intros h e. apply pushEntry_same.
Qed.

(** C3, as the code has it.  When the entry that [undoOnce], respectively
    [redoOnce], is to restore is not parseable, the operation returns
    [null]; the step is taken all the same: [undoOnce] has moved the top of
    the undo stack to the redo stack, and [redoOnce] the top of the redo
    stack to the undo stack. *)
Theorem unparseable_entry_returns_null :
  (forall r older entry current redo,
      parse entry = None ->
      undoOnce (mkHistory r (older ++ [entry; current]) redo)
      = (JNull, mkHistory r (older ++ [entry]) (redo ++ [current])))
  /\ (forall r undo redo entry,
        parse entry = None ->
        redoOnce (mkHistory r undo (redo ++ [entry]))
        = (JNull, mkHistory r (undo ++ [entry]) redo)).
Proof.
  split.
  - intros r older entry current redo Hp.
    replace (older ++ [entry; current]) with ((older ++ [entry]) ++ [current])
      by reassoc.
    rewrite undoOnce_snoc, top_snoc.
    now rewrite restoreEntry_unparseable.
  - intros r undo redo entry Hp.
    rewrite redoOnce_snoc. now rewrite restoreEntry_unparseable.
Qed.
End HistoryClaims.

(** ** Numbers *)

Section NumberFacts.
Import Number.
Local Open Scope R_scope.

Lemma nlt_Fin_true a b : a < b -> nlt (Fin a) (Fin b) = true.
Proof. intros H. simpl. now destruct (Rlt_dec a b). Qed.

Lemma nlt_Fin_false a b : b <= a -> nlt (Fin a) (Fin b) = false.
Proof. intros H. simpl. destruct (Rlt_dec a b); [lra | reflexivity]. Qed.

Lemma ngt_Fin_true a b : b < a -> ngt (Fin a) (Fin b) = true.
Proof. apply nlt_Fin_true. Qed.

Lemma ngt_Fin_false a b : a <= b -> ngt (Fin a) (Fin b) = false.
Proof. apply nlt_Fin_false. Qed.

Lemma ndiv_Fin a b : b <> 0 -> ndiv (Fin a) (Fin b) = Fin (a / b).
Proof. intros H. simpl. now destruct (Req_dec_T b 0). Qed.

Lemma nneq_Fin_true a b : a <> b -> nneq (Fin a) (Fin b) = true.
Proof. intros H. simpl. now destruct (Req_dec_T a b). Qed.

Lemma nneq_Fin_false a : nneq (Fin a) (Fin a) = false.
Proof. simpl. now destruct (Req_dec_T a a). Qed.

Lemma sqrt_sum_squares_ge a b : Rabs a <= sqrt (a * a + b * b).
Proof.
  rewrite <- sqrt_Rsqr_abs. apply sqrt_le_1_alt. unfold Rsqr. nra.
Qed.
End NumberFacts.

(** ** Doubles *)

Section DoubleMantissaFacts.
Import Floats Float64Spec.
Local Open Scope Z_scope.

Lemma iter_pos_iter {A} (f : A -> A) p : forall x, iter_pos f p x = Pos.iter f x p.
Proof.
  induction p as [p IH|p IH|]; intros x; cbn [iter_pos Pos.iter].
  - rewrite !IH. now rewrite <- !Pos.iter_swap.
  - now rewrite !IH.
  - reflexivity.
Qed.

Lemma Zpos_iter_xO m p : Zpos (Pos.iter xO m p) = Zpos m * 2 ^ Zpos p.
Proof.
  induction p as [|p IH] using Pos.peano_ind.
  - cbn [Pos.iter]. lia.
  - rewrite Pos.iter_succ, Pos2Z.inj_succ, Z.pow_succ_r by lia.
    change (Zpos (Pos.iter xO m p)~0) with (2 * Zpos (Pos.iter xO m p)).
    rewrite IH.
    ring.
Qed.

Lemma digits_iter_xO m p :
  Zpos (digits2_pos (Pos.iter xO m p)) = Zpos (digits2_pos m) + Zpos p.
Proof.
  induction p as [|p IH] using Pos.peano_ind.
  - cbn [Pos.iter digits2_pos]. lia.
  - rewrite Pos.iter_succ. cbn [digits2_pos]. lia.
Qed.

Lemma digits_bounds m :
  2 ^ (Zpos (digits2_pos m) - 1) <= Zpos m < 2 ^ Zpos (digits2_pos m).
Proof.
  induction m as [m IH|m IH|]; cbn [digits2_pos].
  - rewrite Pos2Z.inj_succ, Pos2Z.inj_xI.
    replace (Z.succ (Zpos (digits2_pos m)) - 1)
      with (Zpos (digits2_pos m)) by lia.
    rewrite (Z.pow_succ_r 2 (Zpos (digits2_pos m))) by lia.
    assert (E : 2 ^ Zpos (digits2_pos m)
                = 2 * 2 ^ (Zpos (digits2_pos m) - 1)).
    { rewrite <- Z.pow_succ_r by lia. f_equal. lia. }
    lia.
  - rewrite Pos2Z.inj_succ. change (Zpos m~0) with (2 * Zpos m).
    replace (Z.succ (Zpos (digits2_pos m)) - 1)
      with (Zpos (digits2_pos m)) by lia.
    rewrite (Z.pow_succ_r 2 (Zpos (digits2_pos m))) by lia.
    assert (E : 2 ^ Zpos (digits2_pos m)
                = 2 * 2 ^ (Zpos (digits2_pos m) - 1)).
    { rewrite <- Z.pow_succ_r by lia. f_equal. lia. }
    lia.
  - simpl. lia.
Qed.

Lemma shr_exact q p :
  Pos.iter shr_1 (Build_shr_record (Zpos (Pos.iter xO q p)) false false) p
  = Build_shr_record (Zpos q) false false.
Proof.
  induction p as [|p IH] using Pos.peano_ind.
  - reflexivity.
  - rewrite Pos.iter_succ_r, Pos.iter_succ. cbn [shr_1 orb]. exact IH.
Qed.

Lemma Zpos_shl m k : 0 <= k -> Zpos (shl m k) = Zpos m * 2 ^ k.
Proof.
  intros Hk. destruct k as [|p|p]; cbn [shl]; [lia | apply Zpos_iter_xO | lia].
Qed.

Lemma digits_shl m k :
  0 <= k -> Zpos (digits2_pos (shl m k)) = Zpos (digits2_pos m) + k.
Proof.
  intros Hk. destruct k as [|p|p]; cbn [shl]; [lia | apply digits_iter_xO | lia].
Qed.

Lemma shl_shl m j k : 0 <= j -> 0 <= k -> shl (shl m j) k = shl m (j + k).
Proof.
  intros Hj Hk. apply Pos2Z.inj.
  rewrite !Zpos_shl, Z.pow_add_r by lia. ring.
Qed.

Lemma shl_0 m : shl m 0 = m.
Proof. reflexivity. Qed.

(** A mantissa that is already in its place is not changed by the
    rounding. *)
Lemma round_aux_canonical s m e :
  fexp prec emax (Zpos (digits2_pos m) + e) = e ->
  e <= emax - prec ->
  binary_round_aux prec emax s (Zpos m) e loc_Exact = S754_finite s m e.
Proof.
  intros Hc He. unfold binary_round_aux, shr_fexp.
  cbn [Zdigits2 shr_record_of_loc]. rewrite Hc, Z.sub_diag.
  cbn [shr shr_m loc_of_shr_record round_nearest_even Zdigits2
       shr_record_of_loc].
  rewrite Hc, Z.sub_diag. cbn [shr shr_m].
  apply Z.leb_le in He. now rewrite He.
Qed.

(** Bits that are zero are shifted out without rounding. *)
Lemma round_aux_shift s q e p :
  fexp prec emax (Zpos (digits2_pos q) + (e + Zpos p)) = e + Zpos p ->
  e + Zpos p <= emax - prec ->
  binary_round_aux prec emax s (Zpos (Pos.iter xO q p)) e loc_Exact
  = S754_finite s q (e + Zpos p).
Proof.
  intros Hc He. unfold binary_round_aux, shr_fexp.
  cbn [Zdigits2 shr_record_of_loc]. rewrite digits_iter_xO.
  replace (Zpos (digits2_pos q) + Zpos p + e)
    with (Zpos (digits2_pos q) + (e + Zpos p)) by lia.
  rewrite Hc. replace (e + Zpos p - e) with (Zpos p) by lia.
  cbn [shr]. rewrite iter_pos_iter, shr_exact.
  cbn [shr_m loc_of_shr_record round_nearest_even Zdigits2
       shr_record_of_loc].
  rewrite Hc, Z.sub_diag. cbn [shr shr_m].
  apply Z.leb_le in He. now rewrite He.
Qed.

(** The value [m * 2 ^ g], given as [(m * 2 ^ k) * 2 ^ (g - k)], is
    rounded to itself when its place [e'] is not above [g]. *)
Lemma binary_round_exact s m g k :
  0 <= k ->
  let e' := fexp prec emax (Zpos (digits2_pos m) + g) in
  e' <= g -> e' <= emax - prec ->
  binary_round prec emax s (shl m k) (g - k)
  = S754_finite s (shl m (g - e')) e'.
Proof.
  intros Hk e' Hg He. unfold binary_round.
  rewrite digits_shl by lia.
  replace (Zpos (digits2_pos m) + k + (g - k))
    with (Zpos (digits2_pos m) + g) by lia.
  fold e'. unfold shl_align.
  assert (Hcan : fexp prec emax (Zpos (digits2_pos (shl m (g - e'))) + e')
                 = e').
  { rewrite digits_shl by lia.
    replace (Zpos (digits2_pos m) + (g - e') + e')
      with (Zpos (digits2_pos m) + g) by lia.
    reflexivity. }
  destruct (e' - (g - k)) as [|p|p] eqn:E.
  - replace (g - k) with e' by lia. replace k with (g - e') by lia.
    now apply round_aux_canonical.
  - assert (Ek : k = (g - e') + Zpos p) by lia.
    rewrite Ek, <- shl_shl by lia. cbn [shl].
    replace (g - (g - e' + Zpos p)) with (e' - Zpos p) by lia.
    generalize (round_aux_shift s (shl m (g - e')) (e' - Zpos p) p).
    replace (e' - Zpos p + Zpos p) with e' by lia.
    intros H. apply H; [exact Hcan | lia].
  - replace (Pos.iter xO (shl m k) p) with (shl (shl m k) (Zpos p))
      by reflexivity.
    rewrite shl_shl by lia.
    replace (k + Zpos p) with (g - e') by lia.
    now apply round_aux_canonical.
Qed.
End DoubleMantissaFacts.

Section DoubleNormalFacts.
Import Floats Float64Spec.
Local Open Scope Z_scope.

Lemma digits_fit m : Zpos m < 2 ^ 53 -> Zpos (digits2_pos m) <= 53.
Proof.
  intros H. pose proof (digits_bounds m) as [Hl _].
  destruct (Z_le_gt_dec (Zpos (digits2_pos m)) 53) as [|Hgt]; [assumption|].
  assert (2 ^ 53 <= 2 ^ (Zpos (digits2_pos m) - 1))
    by (apply Z.pow_le_mono_r; lia).
  lia.
Qed.

Lemma place_fit m g :
  fits (Zpos m) g -> -1074 <= place m g <= g /\ place m g <= emax - prec.
Proof.
  intros [Hm Hg]. pose proof (digits_fit m Hm) as Hd.
  unfold place, fexp, SpecFloat.emin, emax, prec. lia.
Qed.

Lemma round_fit s m g k :
  0 <= k -> fits (Zpos m) g ->
  binary_round prec emax s (shl m k) (g - k)
  = S754_finite s (shl m (g - place m g)) (place m g).
Proof.
  intros Hk Hf. destruct (place_fit m g Hf) as [[_ H1] H2].
  now apply binary_round_exact.
Qed.

Lemma norm_pos m g :
  fits (Zpos m) g ->
  norm (Zpos m) g = S754_finite false (shl m (g - place m g)) (place m g).
Proof.
  intros Hf. unfold norm, binary_normalize.
  generalize (round_fit false m g 0 ltac:(lia) Hf).
  now rewrite shl_0, Z.sub_0_r.
Qed.

Lemma norm_neg m g :
  fits (Zpos m) g ->
  norm (Zneg m) g = S754_finite true (shl m (g - place m g)) (place m g).
Proof.
  intros Hf. unfold norm, binary_normalize.
  generalize (round_fit true m g 0 ltac:(lia) Hf).
  now rewrite shl_0, Z.sub_0_r.
Qed.

Lemma fits_opp n g : fits n g -> fits (- n) g.
Proof. unfold fits. now rewrite Z.abs_opp. Qed.

Lemma fits_pos_neg m g : fits (Zneg m) g -> fits (Zpos m) g.
Proof. exact (fits_opp (Zneg m) g). Qed.

(** The same value written with [k] more bits. *)
Lemma norm_scale n g k :
  0 <= k -> fits n g -> norm (n * 2 ^ k) (g - k) = norm n g.
Proof.
  intros Hk Hf. destruct n as [|m|m].
  - reflexivity.
  - rewrite norm_pos by assumption.
    replace (Zpos m * 2 ^ k) with (Zpos (shl m k))
      by (now rewrite Zpos_shl).
    unfold norm, binary_normalize. now apply round_fit.
  - rewrite norm_neg by (now apply fits_pos_neg).
    replace (Zneg m * 2 ^ k) with (Zneg (shl m k))
      by (rewrite <- !Pos2Z.opp_pos, Zpos_shl by lia; ring).
    unfold norm, binary_normalize. apply round_fit;
      [assumption | now apply fits_pos_neg].
Qed.

Lemma norm_valid n g : fits n g -> valid_binary (norm n g) = true.
Proof.
  intros Hf.
  assert (H : forall s m, fits (Zpos m) g ->
            valid_binary
              (S754_finite s (shl m (g - place m g)) (place m g)) = true).
  { intros s m Hm. destruct (place_fit m g Hm) as [[H0 H1] H2].
    unfold SpecFloat.valid_binary, bounded, canonical_mantissa.
    rewrite digits_shl by lia.
    replace (Zpos (digits2_pos m) + (g - place m g) + place m g)
      with (Zpos (digits2_pos m) + g) by lia.
    fold (place m g). rewrite Z.eqb_refl. apply Z.leb_le in H2.
    now rewrite H2. }
  destruct n as [|m|m].
  - reflexivity.
  - rewrite norm_pos by assumption. now apply H.
  - rewrite norm_neg by (now apply fits_pos_neg).
    apply H. now apply fits_pos_neg.
Qed.

Lemma shl_align_fst m e ez :
  ez <= e -> fst (shl_align m e ez) = shl m (e - ez).
Proof.
  intros H. unfold shl_align.
  destruct (ez - e) as [|p|p] eqn:E.
  - now replace (e - ez) with 0 by lia.
  - lia.
  - now replace (e - ez) with (Zpos p) by lia.
Qed.

(** A double [n * 2 ^ g] brought to a lower exponent [ez]. *)
Lemma norm_aligned n g :
  fits n g -> n <> 0 ->
  exists s m e,
    norm n g = S754_finite s m e
    /\ e <= g
    /\ forall ez, ez <= e ->
         cond_Zopp s (Zpos (fst (shl_align m e ez))) = n * 2 ^ (g - ez).
Proof.
  intros Hf Hn.
  assert (H : forall m ez, fits (Zpos m) g -> ez <= place m g ->
            Zpos (fst (shl_align (shl m (g - place m g)) (place m g) ez))
            = Zpos m * 2 ^ (g - ez)).
  { intros m ez Hm Hez. destruct (place_fit m g Hm) as [[_ H1] _].
    rewrite shl_align_fst, shl_shl, Zpos_shl by lia. f_equal. f_equal. lia. }
  destruct n as [|m|m]; [congruence| |].
  - exists false, (shl m (g - place m g)), (place m g).
    split; [now apply norm_pos|].
    split; [now destruct (place_fit m g Hf) as [[_ H1] _]|].
    intros ez Hez. cbn [cond_Zopp]. now apply H.
  - exists true, (shl m (g - place m g)), (place m g).
    assert (Hm : fits (Zpos m) g) by (now apply fits_pos_neg).
    split; [now apply norm_neg|].
    split; [now destruct (place_fit m g Hm) as [[_ H1] _]|].
    intros ez Hez. cbn [cond_Zopp]. rewrite H by assumption.
    rewrite <- Pos2Z.opp_pos. ring.
Qed.

Lemma norm_add a b g :
  fits a g -> fits b g -> fits (a + b) g ->
  SFadd prec emax (norm a g) (norm b g) = norm (a + b) g.
Proof.
  intros Ha Hb Hab.
  destruct (Z.eq_dec a 0) as [->|Na].
  { destruct (Z.eq_dec b 0) as [->|Nb]; [reflexivity|].
    destruct (norm_aligned b g Hb Nb) as (s & m & e & E & _).
    cbn [Z.add]. rewrite E. reflexivity. }
  destruct (Z.eq_dec b 0) as [->|Nb].
  { destruct (norm_aligned a g Ha Na) as (s & m & e & E & _).
    rewrite Z.add_0_r, E. reflexivity. }
  destruct (norm_aligned a g Ha Na) as (sa & ma & ea & Ea & Hga & Va).
  destruct (norm_aligned b g Hb Nb) as (sb & mb & eb & Eb & Hgb & Vb).
  rewrite Ea, Eb. cbn [SFadd].
  rewrite Va, Vb by lia.
  rewrite <- Z.mul_add_distr_r.
  change (IntDef.Z.min ea eb) with (Z.min ea eb).
  generalize (norm_scale _ g (g - Z.min ea eb) ltac:(lia) Hab).
  now replace (g - (g - Z.min ea eb)) with (Z.min ea eb) by lia.
Qed.

Lemma norm_sub a b g :
  fits a g -> fits b g -> fits (a - b) g ->
  SFsub prec emax (norm a g) (norm b g) = norm (a - b) g.
Proof.
  intros Ha Hb Hab.
  destruct (Z.eq_dec a 0) as [->|Na].
  { destruct b as [|b|b]; [reflexivity| |].
    - rewrite norm_pos by assumption. cbn [Z.sub Z.add Z.opp].
      now rewrite norm_neg by assumption.
    - rewrite norm_neg by (now apply fits_pos_neg). cbn [Z.sub Z.add Z.opp].
      now rewrite norm_pos by (now apply fits_pos_neg). }
  destruct (Z.eq_dec b 0) as [->|Nb].
  { destruct (norm_aligned a g Ha Na) as (s & m & e & E & _).
    rewrite Z.sub_0_r, E. reflexivity. }
  destruct (norm_aligned a g Ha Na) as (sa & ma & ea & Ea & Hga & Va).
  destruct (norm_aligned b g Hb Nb) as (sb & mb & eb & Eb & Hgb & Vb).
  rewrite Ea, Eb. cbn [SFsub].
  rewrite Va, Vb by lia.
  rewrite <- Z.mul_sub_distr_r.
  change (IntDef.Z.min ea eb) with (Z.min ea eb).
  generalize (norm_scale _ g (g - Z.min ea eb) ltac:(lia) Hab).
  now replace (g - (g - Z.min ea eb)) with (Z.min ea eb) by lia.
Qed.
End DoubleNormalFacts.

Section DoubleGridFacts.
Import Floats Float64Spec.
Local Open Scope Z_scope.

Lemma onGrid_fits k n : onGrid k n -> fits n (- k).
Proof. unfold onGrid, fits. lia. Qed.

Lemma Prim2SF_grid k n : onGrid k n -> Prim2SF (grid k n) = norm n (- k).
Proof.
  intros H. apply Prim2SF_SF2Prim, norm_valid. now apply onGrid_fits.
Qed.

Lemma grid_add k a b :
  onGrid k a -> onGrid k b -> onGrid k (a + b) ->
  PrimFloat.add (grid k a) (grid k b) = grid k (a + b).
Proof.
  intros Ha Hb Hab. apply Prim2SF_inj.
  rewrite add_spec, !Prim2SF_grid by assumption.
  apply norm_add; now apply onGrid_fits.
Qed.

Lemma grid_sub k a b :
  onGrid k a -> onGrid k b -> onGrid k (a - b) ->
  PrimFloat.sub (grid k a) (grid k b) = grid k (a - b).
Proof.
  intros Ha Hb Hab. apply Prim2SF_inj.
  rewrite sub_spec, !Prim2SF_grid by assumption.
  apply norm_sub; now apply onGrid_fits.
Qed.

(** The same double on a finer grid. *)
Lemma grid_finer k j n :
  0 <= j -> onGrid k n -> k + j <= 1074 ->
  grid (k + j) (n * 2 ^ j) = grid k n.
Proof.
  intros Hj Hn Hk. unfold grid. f_equal.
  replace (- (k + j)) with (- k - j) by lia.
  apply norm_scale; [assumption | now apply onGrid_fits].
Qed.

Lemma grid_ten k : 0 <= k <= 1074 -> grid k (10 * 2 ^ k) = 10%float.
Proof.
  intros Hk.
  generalize (grid_finer 0 k 10 ltac:(lia)
                ltac:(unfold onGrid; simpl; lia) ltac:(lia)).
  cbn [Z.add]. intros ->. reflexivity.
Qed.
End DoubleGridFacts.

Section DoubleOrderFacts.
Import QArith Qpower.
Import Floats Float64Spec.
Local Open Scope Z_scope.

Lemma valid_finite_bounds s m e :
  valid_binary (S754_finite s m e) = true ->
  Zpos m < 2 ^ 53 /\ -1074 <= e <= 971
  /\ (e = -1074 \/ 2 ^ 52 <= Zpos m).
Proof.
  unfold SpecFloat.valid_binary, bounded, canonical_mantissa.
  intros H. apply andb_true_iff in H. destruct H as [Hc He].
  apply Z.eqb_eq in Hc. apply Z.leb_le in He.
  pose proof (digits_bounds m) as [Hl Hu].
  unfold fexp, SpecFloat.emin, emax, prec in *.
  set (d := Zpos (digits2_pos m)) in *.
  assert (Hd : d <= 53) by lia.
  assert (H53 : 2 ^ d <= 2 ^ 53) by (apply Z.pow_le_mono_r; lia).
  split; [lia|]. split; [lia|].
  destruct (Z.eq_dec e (-1074)) as [|N]; [now left | right].
  assert (d = 53) as E by lia. rewrite E in Hl. exact Hl.
Qed.

Lemma pow2_pos n : 0 <= n -> 0 < 2 ^ n.
Proof. intros H. apply Z.pow_pos_nonneg; lia. Qed.

(** Of two doubles of the same sign, the one with the larger exponent is
    the larger in absolute value. *)
Lemma magnitude_lt mx ex my ey g s s' :
  valid_binary (S754_finite s mx ex) = true ->
  valid_binary (S754_finite s' my ey) = true ->
  g <= ex -> ex < ey ->
  Zpos mx * 2 ^ (ex - g) < Zpos my * 2 ^ (ey - g).
Proof.
  intros Vx Vy Hg Hlt.
  destruct (valid_finite_bounds _ _ _ Vx) as (Hx & Hex & _).
  destruct (valid_finite_bounds _ _ _ Vy) as (_ & Hey & [E|Hy]); [lia|].
  replace (ey - g) with ((ey - ex - 1) + 1 + (ex - g)) by lia.
  rewrite !Z.pow_add_r by lia.
  pose proof (pow2_pos (ex - g) ltac:(lia)) as P1.
  pose proof (pow2_pos (ey - ex - 1) ltac:(lia)) as P2.
  change (2 ^ 1) with 2. change (2 ^ 53) with (2 * 2 ^ 52) in Hx.
  assert (H1 : Zpos mx * 2 ^ (ex - g) < 2 * 2 ^ 52 * 2 ^ (ex - g))
    by (apply Z.mul_lt_mono_pos_r; lia).
  assert (H2 : 2 ^ 52 * (1 * 2 * 2 ^ (ex - g))
               <= Zpos my * (2 ^ (ey - ex - 1) * 2 * 2 ^ (ex - g))).
  { apply Z.mul_le_mono_nonneg; try lia.
    apply Z.mul_le_mono_nonneg_r; [lia|].
    apply Z.mul_le_mono_nonneg_r; lia. }
  lia.
Qed.

Lemma magnitude_finite mx ex my ey g s s' :
  valid_binary (S754_finite s mx ex) = true ->
  valid_binary (S754_finite s' my ey) = true ->
  g <= ex -> g <= ey ->
  match ex ?= ey with
  | Lt => Lt
  | Gt => Gt
  | Eq => Pos.compare_cont Eq mx my
  end = (Zpos mx * 2 ^ (ex - g) ?= Zpos my * 2 ^ (ey - g)).
Proof.
  intros Vx Vy Hx Hy.
  destruct (Z.compare_spec ex ey) as [E|L|G].
  - subst ey. change (Pos.compare_cont Eq mx my) with (Pos.compare mx my).
    rewrite Pos2Z.inj_compare.
    pose proof (pow2_pos (ex - g) ltac:(lia)) as P.
    destruct (Z.compare_spec (Zpos mx) (Zpos my)) as [->|L|L]; symmetry;
      [ apply Z.compare_refl
      | apply Z.compare_lt_iff; apply Z.mul_lt_mono_pos_r; lia
      | apply Z.compare_gt_iff; apply Z.mul_lt_mono_pos_r; lia ].
  - symmetry. apply Z.compare_lt_iff.
    now apply (magnitude_lt mx ex my ey g s s').
  - symmetry. apply Z.compare_gt_iff.
    now apply (magnitude_lt my ey mx ex g s' s).
Qed.

(** The order of the doubles that are numbers is that of their values. *)
Lemma compare_scaled f1 f2 g :
  valid_binary f1 = true -> valid_binary f2 = true ->
  finiteSF f1 = true -> finiteSF f2 = true ->
  g <= exponentSF f1 -> g <= exponentSF f2 ->
  SFcompare f1 f2 = Some (scaledSF f1 g ?= scaledSF f2 g).
Proof.
  intros V1 V2 F1 F2 H1 H2.
  destruct f1 as [s1| | |s1 m1 e1], f2 as [s2| | |s2 m2 e2];
    try discriminate; cbn [exponentSF] in *.
  - reflexivity.
  - cbn [SFcompare scaledSF]. f_equal.
    pose proof (pow2_pos (e2 - g) ltac:(lia)).
    destruct s2; cbn [cond_Zopp]; symmetry;
      [apply Z.compare_gt_iff | apply Z.compare_lt_iff]; lia.
  - cbn [SFcompare scaledSF]. f_equal.
    pose proof (pow2_pos (e1 - g) ltac:(lia)).
    destruct s1; cbn [cond_Zopp]; symmetry;
      [apply Z.compare_lt_iff | apply Z.compare_gt_iff]; lia.
  - cbn [SFcompare scaledSF]. f_equal.
    pose proof (pow2_pos (e1 - g) ltac:(lia)).
    pose proof (pow2_pos (e2 - g) ltac:(lia)).
    destruct s1, s2; cbn [cond_Zopp].
    + rewrite !Z.mul_opp_l, Z.compare_opp.
      rewrite <- (magnitude_finite m2 e2 m1 e1 g true true)
        by assumption.
      rewrite (Z.compare_antisym e2 e1).
      change (Pos.compare_cont Eq ?x ?y) with (Pos.compare x y).
      rewrite (Pos.compare_antisym m2 m1).
      destruct (e2 ?= e1); cbn [CompOpp]; try reflexivity.
      apply CompOpp_involutive.
    + symmetry. apply Z.compare_lt_iff. lia.
    + symmetry. apply Z.compare_gt_iff. lia.
    + now apply (magnitude_finite m1 e1 m2 e2 g false false).
Qed.

Lemma exact_scaled f g :
  g <= exponentSF f ->
  (exactSF f == inject_Z (scaledSF f g) * Qpower 2 g)%Q.
Proof.
  intros Hg. destruct f as [s| | |s m e]; cbn [exactSF scaledSF];
    try (rewrite Qmult_0_l; reflexivity).
  cbn [exponentSF] in Hg.
  rewrite inject_Z_mult, Zpower_Qpower by lia.
  replace e with ((e - g) + g) at 1 by lia.
  rewrite Qpower_plus by discriminate.
  change (inject_Z 2) with 2%Q. ring.
Qed.

Lemma Qpower2_pos g : (0 < Qpower 2 g)%Q.
Proof. apply Qpower_0_lt. reflexivity. Qed.

Lemma scaled_lt f1 f2 g :
  g <= exponentSF f1 -> g <= exponentSF f2 ->
  (scaledSF f1 g < scaledSF f2 g <-> (exactSF f1 < exactSF f2)%Q).
Proof.
  intros H1 H2. rewrite (exact_scaled f1 g H1), (exact_scaled f2 g H2).
  rewrite Zlt_Qlt. symmetry. apply Qmult_lt_r. apply Qpower2_pos.
Qed.

Lemma scaled_le f1 f2 g :
  g <= exponentSF f1 -> g <= exponentSF f2 ->
  (scaledSF f1 g <= scaledSF f2 g <-> (exactSF f1 <= exactSF f2)%Q).
Proof.
  intros H1 H2. rewrite (exact_scaled f1 g H1), (exact_scaled f2 g H2).
  rewrite Zle_Qle. symmetry. apply Qmult_le_r. apply Qpower2_pos.
Qed.

Lemma ltb_exact x y :
  finite x = true -> finite y = true ->
  (PrimFloat.ltb x y = true <-> (exact x < exact y)%Q).
Proof.
  intros Fx Fy. unfold finite, exact in *.
  set (g := Z.min (exponentSF (Prim2SF x)) (exponentSF (Prim2SF y))).
  rewrite ltb_spec. unfold SFltb.
  rewrite (compare_scaled _ _ g) by
    (try apply Prim2SF_valid; try assumption; unfold g; lia).
  rewrite <- (scaled_lt _ _ g) by (unfold g; lia).
  rewrite <- Z.compare_lt_iff.
  destruct (_ ?= _); split; congruence.
Qed.

Lemma leb_exact x y :
  finite x = true -> finite y = true ->
  (PrimFloat.leb x y = true <-> (exact x <= exact y)%Q).
Proof.
  intros Fx Fy. unfold finite, exact in *.
  set (g := Z.min (exponentSF (Prim2SF x)) (exponentSF (Prim2SF y))).
  rewrite leb_spec. unfold SFleb.
  rewrite (compare_scaled _ _ g) by
    (try apply Prim2SF_valid; try assumption; unfold g; lia).
  rewrite <- (scaled_le _ _ g) by (unfold g; lia).
  rewrite <- Z.compare_le_iff.
  destruct (_ ?= _); split; congruence.
Qed.

Lemma finite_grid k n : onGrid k n -> finite (grid k n) = true.
Proof.
  intros H. unfold finite. rewrite Prim2SF_grid by assumption.
  apply onGrid_fits in H.
  destruct n as [|m|m]; [reflexivity| |].
  - now rewrite norm_pos.
  - now rewrite norm_neg by (now apply fits_pos_neg).
Qed.
End DoubleOrderFacts.

Section DoubleExactFacts.
Import QArith Qpower.
Import Floats Float64Spec.
Local Open Scope Z_scope.

Lemma grid_exact k n :
  onGrid k n -> (exact (grid k n) == inject_Z n * Qpower 2 (- k))%Q.
Proof.
  intros Hn. unfold exact. rewrite Prim2SF_grid by assumption.
  assert (H : forall (s : bool) (m : positive), fits (Zpos m) (- k) ->
            (exactSF (S754_finite s (shl m (- k - place m (- k)))
                        (place m (- k)))
             == inject_Z (cond_Zopp s (Zpos m)) * Qpower 2 (- k))%Q).
  { intros s m Hm. destruct (place_fit m (- k) Hm) as [[_ H1] _].
    rewrite (exact_scaled _ (place m (- k))) by (cbn [exponentSF]; lia).
    cbn [scaledSF]. rewrite Z.sub_diag, Z.mul_1_r.
    set (e := place m (- k)) in *.
    assert (E : cond_Zopp s (Zpos (shl m (- k - e)))
                = (cond_Zopp s (Zpos m) * 2 ^ (- k - e))%Z).
    { rewrite Zpos_shl by lia. destruct s; cbn [cond_Zopp]; lia. }
    rewrite E, inject_Z_mult, Zpower_Qpower by lia.
    replace (- k)%Z with ((- k - e) + e)%Z at 2 by lia.
    rewrite Qpower_plus by discriminate.
    change (inject_Z 2) with 2%Q. ring. }
  apply onGrid_fits in Hn.
  destruct n as [|m|m].
  - reflexivity.
  - rewrite norm_pos by assumption. exact (H false m Hn).
  - assert (Hm : fits (Zpos m) (- k)) by (now apply fits_pos_neg).
    rewrite norm_neg by assumption. exact (H true m Hm).
Qed.

Lemma ten_exact k :
  0 <= k -> (inject_Z (10 * 2 ^ k) * Qpower 2 (- k) == 10)%Q.
Proof.
  intros Hk. rewrite inject_Z_mult, Zpower_Qpower by lia.
  change (inject_Z 2) with 2%Q. change (inject_Z 10) with 10%Q.
  rewrite <- Qmult_assoc, <- Qpower_plus by discriminate.
  replace (k + - k) with 0 by lia. reflexivity.
Qed.

Lemma onGrid_small k n : 0 <= k <= 49 -> Z.abs n <= 7 * 2 ^ 50 -> onGrid k n.
Proof.
  intros Hk Hn. unfold onGrid.
  change (2 ^ 53) with (8 * 2 ^ 50).
  assert (0 < 2 ^ 50) by reflexivity. lia.
Qed.

Lemma threshold_small k : 0 <= k <= 49 -> 0 < 10 * 2 ^ k <= 5 * 2 ^ 50.
Proof.
  intros Hk.
  assert (H : 2 ^ k <= 2 ^ 49) by (apply Z.pow_le_mono_r; lia).
  assert (0 < 2 ^ k) by (apply Z.pow_pos_nonneg; lia).
  change (2 ^ 50) with (2 * 2 ^ 49). lia.
Qed.

(** The sides of the box of an element on the grid, moved out by 10: the
    doubles that the code computes are the exact sums. *)
Lemma grid_low k n :
  0 <= k <= 49 -> Z.abs n <= 2 ^ 50 ->
  exists b,
    PrimFloat.sub (grid k n) 10 = b /\ finite b = true
    /\ (exact b == exact (grid k n) - 10)%Q.
Proof.
  intros Hk Hn. pose proof (threshold_small k Hk) as Hm.
  assert (H50 : 0 < 2 ^ 50) by reflexivity.
  exists (grid k (n - 10 * 2 ^ k)).
  rewrite <- (grid_ten k) by lia.
  split; [apply grid_sub; apply onGrid_small; lia|].
  split; [apply finite_grid; apply onGrid_small; lia|].
  rewrite !grid_exact by (apply onGrid_small; lia).
  rewrite <- (ten_exact k) by lia.
  unfold Z.sub. rewrite inject_Z_plus, inject_Z_opp. ring.
Qed.

Lemma grid_high k n w :
  0 <= k <= 49 -> Z.abs n <= 2 ^ 50 -> Z.abs w <= 2 ^ 50 ->
  exists b,
    PrimFloat.add (PrimFloat.add (grid k n) (grid k w)) 10 = b
    /\ finite b = true
    /\ (exact b == exact (grid k n) + exact (grid k w) + 10)%Q.
Proof.
  intros Hk Hn Hw. pose proof (threshold_small k Hk) as Hm.
  assert (H50 : 0 < 2 ^ 50) by reflexivity.
  exists (grid k (n + w + 10 * 2 ^ k)).
  rewrite <- (grid_ten k) by lia.
  split; [rewrite !grid_add by (apply onGrid_small; lia); reflexivity|].
  split; [apply finite_grid; apply onGrid_small; lia|].
  rewrite !grid_exact by (apply onGrid_small; lia).
  rewrite <- (ten_exact k) by lia.
  rewrite !inject_Z_plus. ring.
Qed.

Lemma grid_sum k n w :
  0 <= k <= 49 -> Z.abs n <= 2 ^ 50 -> Z.abs w <= 2 ^ 50 ->
  exists b,
    PrimFloat.add (grid k n) (grid k w) = b
    /\ finite b = true
    /\ (exact b == exact (grid k n) + exact (grid k w))%Q.
Proof.
  intros Hk Hn Hw.
  assert (H50 : 0 < 2 ^ 50) by reflexivity.
  exists (grid k (n + w)).
  split; [apply grid_add; apply onGrid_small; lia|].
  split; [apply finite_grid; apply onGrid_small; lia|].
  rewrite !grid_exact by (apply onGrid_small; lia).
  rewrite inject_Z_plus. ring.
Qed.

(** A double that is not a number, or is infinite, is not strictly between
    two numbers. *)
Lemma not_finite_not_between a b x :
  finite a = true -> finite b = true -> finite x = false ->
  (PrimFloat.ltb a x && PrimFloat.ltb x b)%bool = false.
Proof.
  unfold finite. intros Fa Fb Fx. rewrite !ltb_spec. unfold SFltb.
  destruct (Prim2SF x) as [s|[|]| |s m e]; try discriminate;
    destruct (Prim2SF a) as [sa| | |sa ma ea]; try discriminate;
    destruct (Prim2SF b) as [sb| | |sb mb eb]; try discriminate;
    reflexivity.
Qed.

Lemma not_finite_not_within a b x :
  finite a = true -> finite b = true -> finite x = false ->
  (PrimFloat.leb a x && PrimFloat.leb x b)%bool = false.
Proof.
  unfold finite. intros Fa Fb Fx. rewrite !leb_spec. unfold SFleb.
  destruct (Prim2SF x) as [s|[|]| |s m e]; try discriminate;
    destruct (Prim2SF a) as [sa| | |sa ma ea]; try discriminate;
    destruct (Prim2SF b) as [sb| | |sb mb eb]; try discriminate;
    reflexivity.
Qed.
End DoubleExactFacts.

(** ** The hit test of a filled rectangle *)

Section RectangleFacts.
Import QArith Qpower.
Import Floats Float64 Float64Spec.
Local Open Scope float_scope.
Variable hypot : float -> float -> float.
Variable floor : float -> float.
Variable min : float -> float -> float.
Variable cos : float -> float.
Variable sin : float -> float.
Variable getLinearElementAbsoluteBounds : Element.t -> list float.
Variable hitTestEllipse : Element.t -> float -> float -> bool.

(** The value [hitTest] returns for a filled rectangle. *)
Lemma hitTest_filled_rectangle_eq element x y :
  Element.type element = "rectangle"%string ->
  Element.backgroundColor element <> "transparent"%string ->
  hitTest hypot floor min cos sin getLinearElementAbsoluteBounds
    hitTestEllipse element x y
  = Returns
      ((Element.x element - 10 <? x)
       && (x <? Element.x element + Element.width element + 10)
       && (Element.y element - 10 <? y)
       && (y <? Element.y element + Element.height element + 10))%bool.
Proof.
  intros Ht Hb. unfold hitTest, getElementAbsoluteCoords.
  rewrite Ht. cbn [String.eqb Ascii.eqb Bool.eqb orb].
  destruct (String.eqb_spec (Element.backgroundColor element)
              "transparent"); [contradiction|].
  reflexivity.
Qed.

(** The value [hitTest] returns for a text. *)
Lemma hitTest_text_eq element x y :
  Element.type element = "text"%string ->
  hitTest hypot floor min cos sin getLinearElementAbsoluteBounds
    hitTestEllipse element x y
  = Returns
      ((Element.x element <=? x)
       && (x <=? Element.x element + Element.width element)
       && (Element.y element <=? y)
       && (y <=? Element.y element + Element.height element))%bool.
Proof.
  intros Ht. unfold hitTest, getElementAbsoluteCoords.
  rewrite Ht. reflexivity.
Qed.
End RectangleFacts.

Section RectangleClaims.
Import QArith Qpower.
Import Floats Float64 Float64Spec.
Local Open Scope Z_scope.

(** C4, as the code has it.  For a filled rectangle [hitTest] compares the
    point with the sums [x - 10], [(x + width) + 10], [y - 10] and
    [(y + height) + 10], each rounded to a double.  When the position and
    the size of the rectangle are multiples of [2 ^ - k], whole numbers for
    [k = 0], of at most 50 bits, these sums are exact: [hitTest] returns
    true exactly at the points strictly inside the box
    [x, y, x + width, y + height] grown by 10 on all sides, whatever
    doubles the coordinates of the point are; a point with a coordinate
    that is not a number, or is infinite, is not hit. *)
Theorem hitTest_filled_rectangle :
  forall (hypot : float -> float -> float) (floor : float -> float)
         (min : float -> float -> float) (cos sin : float -> float)
         (getLinearElementAbsoluteBounds : Element.t -> list float)
         (hitTestEllipse : Element.t -> float -> float -> bool)
         (element : Element.t) (k x1 y1 width height : Z),
    Element.type element = "rectangle"%string ->
    Element.backgroundColor element <> "transparent"%string ->
    0 <= k <= 49 ->
    Forall (fun n => Z.abs n <= 2 ^ 50) [x1; y1; width; height] ->
    Element.x element = grid k x1 ->
    Element.y element = grid k y1 ->
    Element.width element = grid k width ->
    Element.height element = grid k height ->
    forall x y : float,
    exists hit,
      hitTest hypot floor min cos sin getLinearElementAbsoluteBounds
        hitTestEllipse element x y
      = Returns hit
      /\ (hit = true
          <-> finite x = true /\ finite y = true
              /\ (exact (Element.x element) - 10 < exact x
                  /\ exact x
                     < exact (Element.x element)
                       + exact (Element.width element) + 10
                  /\ exact (Element.y element) - 10 < exact y
                  /\ exact y
                     < exact (Element.y element)
                       + exact (Element.height element) + 10)%Q).
Proof.
  intros hypot floor min cos sin lin ell element k x1 y1 width height
    Ht Hb Hk Hall Ex Ey Ew Eh x y.
  rewrite !Forall_cons_iff in Hall.
  destruct Hall as (Hx1 & Hy1 & Hw & Hh & _).
  rewrite (hitTest_filled_rectangle_eq _ _ _ _ _ _ _ element _ _ Ht Hb).
  rewrite Ex, Ey, Ew, Eh.
  destruct (grid_low k x1 Hk Hx1) as (xl & -> & Fxl & Vxl).
  destruct (grid_low k y1 Hk Hy1) as (yl & -> & Fyl & Vyl).
  destruct (grid_high k x1 width Hk Hx1 Hw) as (xh & -> & Fxh & Vxh).
  destruct (grid_high k y1 height Hk Hy1 Hh) as (yh & -> & Fyh & Vyh).
  eexists. split; [reflexivity|].
  rewrite <- Vxl, <- Vyl, <- Vxh, <- Vyh.
  destruct (finite x) eqn:Fx.
  - destruct (finite y) eqn:Fy.
    + rewrite !andb_true_iff, !ltb_exact by assumption. tauto.
    + rewrite <- !andb_assoc.
      rewrite (not_finite_not_between yl yh y Fyl Fyh Fy), !andb_false_r.
      split; [discriminate | intros (_ & H & _); discriminate H].
  - rewrite (not_finite_not_between xl xh x Fxl Fxh Fx).
    split; [discriminate | intros (H & _); discriminate H].
Qed.
End RectangleClaims.

(** ** Diamonds *)

Section DiamondFacts.
Import Number Geometry.
Local Open Scope R_scope.

Lemma Int_part_nonneg r : 0 <= r -> (0 <= Int_part r)%Z.
Proof.
  intros Hr. destruct (base_Int_part r) as [_ H].
  assert (Hlt : IZR (-1) < IZR (Int_part r)) by lra.
  apply lt_IZR in Hlt. lia.
Qed.

Lemma Int_part_one : Int_part (2 / 2) = 1%Z.
Proof. symmetry. apply Int_part_spec. lra. Qed.

Lemma getDiamondPoints_eq element :
  let topX := IZR (Int_part (Element.width element / 2)) + 1 in
  let rightY := IZR (Int_part (Element.height element / 2)) + 1 in
  getDiamondPoints element
  = [Fin topX; Fin 0; Fin (Element.width element); Fin rightY;
     Fin topX; Fin (Element.height element); Fin 0; Fin rightY].
Proof.
  unfold getDiamondPoints. rewrite !ndiv_Fin by lra. reflexivity.
Qed.
End DiamondFacts.

Section DiamondClaims.
Import Number Geometry.
Local Open Scope R_scope.

(** C7, as the code has it.  For every element, [getDiamondPoints] returns
    the vertices top [(floor(width / 2) + 1, 0)], right
    [(width, floor(height / 2) + 1)], bottom [(floor(width / 2) + 1, height)]
    and left [(0, floor(height / 2) + 1)], without raising.  When width and
    height are not negative the two halves that got the [+ 1] are at least
    1, so the edges from top to right, from bottom to left and from left to
    top do not have zero length. *)
Theorem getDiamondPoints_vertices :
  forall element : Element.t,
    let width := Element.width element in
    let height := Element.height element in
    let topX := IZR (Int_part (width / 2)) + 1 in
    let rightY := IZR (Int_part (height / 2)) + 1 in
    getDiamondPoints element
    = [Fin topX; Fin 0; Fin width; Fin rightY;
       Fin topX; Fin height; Fin 0; Fin rightY]
    /\ (0 <= width -> 0 <= height ->
        1 <= topX /\ 1 <= rightY
        /\ (topX, 0) <> (width, rightY)
        /\ (topX, height) <> (0, rightY)
        /\ (0, rightY) <> (topX, 0)).
Proof.
  intros element width height topX rightY. split.
  - apply getDiamondPoints_eq.
  - intros Hw Hh.
    assert (H1 : 1 <= topX).
    { unfold topX. assert (H : (0 <= Int_part (width / 2))%Z)
        by (apply Int_part_nonneg; lra).
      apply IZR_le in H. lra. }
    assert (H2 : 1 <= rightY).
    { unfold rightY. assert (H : (0 <= Int_part (height / 2))%Z)
        by (apply Int_part_nonneg; lra).
      apply IZR_le in H. lra. }
    repeat split; try assumption; intros E; injection E; intros; lra.
Qed.
End DiamondClaims.

(** ** Arrows *)

Section ArrowFacts.
Import Number Geometry GeometrySpec.
Local Open Scope R_scope.

Lemma segmentLength_nonneg p q : 0 <= segmentLength p q.
Proof. apply sqrt_pos. Qed.

Lemma polylineLength_nonneg points : 0 <= polylineLength points.
Proof.
  induction points as [|p [|q rest] IH]; simpl; try lra.
  pose proof (segmentLength_nonneg p q). simpl in IH. lra.
Qed.

Lemma segmentLength_same p : segmentLength p p = 0.
Proof.
  unfold segmentLength.
  replace ((fst p - fst p) * (fst p - fst p)
           + (snd p - snd p) * (snd p - snd p)) with 0 by ring.
  apply sqrt_0.
Qed.

Lemma segmentLength_positive p q : p <> q -> 0 < segmentLength p q.
Proof.
  intros Hne. unfold segmentLength. apply sqrt_lt_R0.
  destruct p as [px py], q as [qx qy]. simpl.
  pose proof (Rle_0_sqr (qx - px)) as Hx.
  pose proof (Rle_0_sqr (qy - py)) as Hy.
  destruct (Req_dec qx px) as [Ex|Nx].
  - destruct (Req_dec qy py) as [Ey|Ny]; [subst; congruence|].
    assert (H : 0 < Rsqr (qy - py)) by (apply Rsqr_pos_lt; lra).
    unfold Rsqr in *. lra.
  - assert (H : 0 < Rsqr (qx - px)) by (apply Rsqr_pos_lt; lra).
    unfold Rsqr in *. lra.
Qed.

Lemma segmentLength_square p q :
  segmentLength p q * segmentLength p q
  = (fst q - fst p) * (fst q - fst p) + (snd q - snd p) * (snd q - snd p).
Proof.
  unfold segmentLength. apply sqrt_sqrt.
  pose proof (Rle_0_sqr (fst q - fst p)) as Hx.
  pose proof (Rle_0_sqr (snd q - snd p)) as Hy.
  unfold Rsqr in *. lra.
Qed.

Lemma arrowLength_callback_at pre p q suf total :
  arrowLength_callback (pre ++ p :: q :: suf) (Fin total)
    (S (List.length pre))
  = Fin (total + segmentLength p q).
Proof.
  unfold arrowLength_callback.
  assert (E1 : nth (S (List.length pre)) (pre ++ p :: q :: suf) (0, 0) = q).
  { replace (pre ++ p :: q :: suf) with ((pre ++ [p]) ++ q :: suf)
      by reassoc.
    replace (S (List.length pre)) with (List.length (pre ++ [p]))
      by (rewrite length_app; simpl; lia).
    apply nth_middle. }
  assert (E2 : nth (S (List.length pre) - 1) (pre ++ p :: q :: suf) (0, 0)
               = p).
  { replace (S (List.length pre) - 1)%nat with (List.length pre) by lia.
    apply nth_middle. }
  rewrite E1, E2. destruct p as [px py], q as [cx cy]. reflexivity.
Qed.

(** The reduction adds up the segments, from the position after [pre]
    on. *)
Lemma arrowLength_from suf : forall pre p total,
  fold_left (arrowLength_callback (pre ++ p :: suf))
    (seq (S (List.length pre)) (List.length suf)) (Fin total)
  = Fin (total + polylineLength (p :: suf)).
Proof.
  induction suf as [|q suf IH]; intros pre p total.
  - simpl. f_equal. lra.
  - cbn [List.length seq fold_left].
    rewrite arrowLength_callback_at.
    replace (pre ++ p :: q :: suf) with ((pre ++ [p]) ++ q :: suf)
      by reassoc.
    replace (S (S (List.length pre)))
      with (S (List.length (pre ++ [p])))
      by (rewrite length_app; simpl; lia).
    rewrite IH. f_equal. cbn [polylineLength]. lra.
Qed.

(** The length that [getArrowPoints] halves is that of the path from the
    anchor through the points. *)
Lemma arrowLength_polyline points :
  arrowLength points = Fin (polylineLength ((0, 0) :: points)).
Proof.
  unfold arrowLength. destruct points as [|p suf]; [reflexivity|].
  cbn [List.length seq fold_left].
  unfold arrowLength_callback at 2. cbn [nth Nat.ltb Nat.leb].
  destruct p as [cx cy]. cbn [nadd nsub hypot lift2].
  rewrite (arrowLength_from suf [] (cx, cy)).
  f_equal. cbn [polylineLength]. unfold segmentLength. simpl. lra.
Qed.

Lemma polylineLength_from_origin points :
  nth 0 points (0, 0) = (0, 0) ->
  polylineLength ((0, 0) :: points) = polylineLength points.
Proof.
  destruct points as [|p rest]; [reflexivity|]. simpl nth. intros ->.
  cbn [polylineLength]. rewrite segmentLength_same. lra.
Qed.

Lemma turn_norm angle v :
  fst (turn angle v) * fst (turn angle v)
  + snd (turn angle v) * snd (turn angle v)
  = fst v * fst v + snd v * snd v.
Proof.
  unfold turn. simpl. pose proof (sin2_cos2 angle) as H.
  unfold Rsqr in H.
  transitivity ((fst v * fst v + snd v * snd v)
                * (sin angle * sin angle + cos angle * cos angle));
    [ring | rewrite H; ring].
Qed.

Lemma scaledDirection_norm p q size :
  p <> q ->
  fst (scaledDirection p q size) * fst (scaledDirection p q size)
  + snd (scaledDirection p q size) * snd (scaledDirection p q size)
  = size * size.
Proof.
  intros Hne. pose proof (segmentLength_positive p q Hne) as Hd.
  pose proof (segmentLength_square p q) as Hsq.
  unfold scaledDirection. simpl.
  set (d := segmentLength p q) in *.
  set (dx := fst q - fst p) in *. set (dy := snd q - snd p) in *.
  transitivity ((dx * dx + dy * dy) / (d * d) * (size * size));
    [field; lra|].
  rewrite <- Hsq. field. lra.
Qed.

(** A wing is as long as the vector that was turned. *)
Lemma wing_length tip angle p q size :
  p <> q -> 0 <= size ->
  let w := turn angle (opposite (scaledDirection p q size)) in
  segmentLength tip (fst tip + fst w, snd tip + snd w) = size.
Proof.
  intros Hne Hs w. unfold segmentLength. cbn [fst snd].
  replace (fst tip + fst w - fst tip) with (fst w) by ring.
  replace (snd tip + snd w - snd tip) with (snd w) by ring.
  unfold w. rewrite turn_norm. unfold opposite. cbn [fst snd].
  replace (- fst (scaledDirection p q size) * - fst (scaledDirection p q size)
           + - snd (scaledDirection p q size)
             * - snd (scaledDirection p q size))
    with (fst (scaledDirection p q size) * fst (scaledDirection p q size)
          + snd (scaledDirection p q size) * snd (scaledDirection p q size))
    by ring.
  rewrite scaledDirection_norm by assumption.
  now apply sqrt_square.
Qed.

(** What [getArrowPoints] returns for an arrow whose last segment, from
    [p1] to [p2], has a direction. *)
Lemma getArrowPoints_eq element before p1 p2 :
  Element.points element = before ++ [p1; p2] ->
  p1 <> p2 ->
  let size :=
    Rmin 30 (polylineLength ((0, 0) :: Element.points element) / 2) in
  let back := opposite (scaledDirection p1 p2 size) in
  let w1 := turn (degrees (- 20)) back in
  let w2 := turn (degrees 20) back in
  getArrowPoints element
  = Some [Fin (fst p2); Fin (snd p2);
          Fin (fst p2 + fst w1); Fin (snd p2 + snd w1);
          Fin (fst p2 + fst w2); Fin (snd p2 + snd w2)].
Proof.
  intros Hp Hne size back w1 w2.
  pose proof (segmentLength_positive p1 p2 Hne) as Hd.
  subst w1 w2 back size.
  unfold getArrowPoints.
  rewrite arrowLength_polyline.
  rewrite Hp, length_app. cbn [List.length].
  replace (List.length before + 2 - 2)%nat with (List.length before) by lia.
  replace (List.length before + 2 - 1)%nat with (S (List.length before))
    by lia.
  replace (Nat.leb 2 (List.length before + 2)) with true
    by (symmetry; apply Nat.leb_le; lia).
  rewrite nth_middle.
  assert (E : nth_error (before ++ [p1; p2]) (S (List.length before))
              = Some p2).
  { replace (before ++ [p1; p2]) with ((before ++ [p1]) ++ [p2])
      by reassoc.
    rewrite nth_error_app2 by (rewrite length_app; simpl; lia).
    rewrite length_app. cbn [List.length].
    now replace (S (List.length before) - (List.length before + 1))%nat
      with O by lia. }
  rewrite E.
  set (len := polylineLength ((0, 0) :: before ++ [p1; p2])).
  destruct p1 as [x1 y1], p2 as [x2 y2].
  cbn [nsub hypot lift2].
  change (sqrt ((x2 - x1) * (x2 - x1) + (y2 - y1) * (y2 - y1)))
    with (segmentLength (x1, y1) (x2, y2)).
  set (d := segmentLength (x1, y1) (x2, y2)) in *.
  unfold rotate.
  repeat (rewrite ndiv_Fin by lra;
          cbn [nmin nmul nsub nadd nopp lift2 lift1 ncos nsin]).
  unfold turn, opposite, scaledDirection, degrees.
  cbn [fst snd]. fold d.
  replace (- (20) * PI / 180) with (- 20 * PI / 180) by lra.
  apply f_equal.
  repeat (apply f_equal2;
          [try reflexivity; apply f_equal; field; lra|]).
  reflexivity.
Qed.
End ArrowFacts.

Section ArrowPathFacts.
Import Number Geometry GeometrySpec.
Local Open Scope R_scope.

(** The two ends of the last segment as [getArrowPoints] picks them: the
    last two points, or [[0, 0]] and the point when there is only one. *)
Lemma getArrowPoints_ends (points before : list (R * R)) p1 p2 :
  (0, 0) :: points = before ++ [p1; p2] ->
  (if Nat.leb 2 (List.length points)
   then nth (List.length points - 2) points (0, 0)
   else (0, 0)) = p1
  /\ nth_error points (List.length points - 1) = Some p2.
Proof.
  intros Hp. destruct before as [|b before].
  - injection Hp as <- ->. split; reflexivity.
  - injection Hp as _ ->. rewrite length_app. cbn [List.length].
    replace (List.length before + 2 - 2)%nat with (List.length before)
      by lia.
    replace (List.length before + 2 - 1)%nat with (S (List.length before))
      by lia.
    replace (Nat.leb 2 (List.length before + 2)) with true
      by (symmetry; apply Nat.leb_le; lia).
    split; [apply nth_middle|].
    replace (before ++ [p1; p2]) with ((before ++ [p1]) ++ [p2])
      by (now rewrite <- app_assoc).
    rewrite nth_error_app2 by (rewrite length_app; simpl; lia).
    rewrite length_app. cbn [List.length].
    now replace (S (List.length before) - (List.length before + 1))%nat
      with O by lia.
Qed.

(** What [getArrowPoints] returns when the last segment, from [p1] to
    [p2], has a direction. *)
Lemma getArrowPoints_path element before p1 p2 :
  (0, 0) :: Element.points element = before ++ [p1; p2] ->
  p1 <> p2 ->
  let size :=
    Rmin 30 (polylineLength ((0, 0) :: Element.points element) / 2) in
  let back := opposite (scaledDirection p1 p2 size) in
  let w1 := turn (degrees (- 20)) back in
  let w2 := turn (degrees 20) back in
  getArrowPoints element
  = Some [Fin (fst p2); Fin (snd p2);
          Fin (fst p2 + fst w1); Fin (snd p2 + snd w1);
          Fin (fst p2 + fst w2); Fin (snd p2 + snd w2)].
Proof.
  intros Hp Hne size back w1 w2.
  pose proof (segmentLength_positive p1 p2 Hne) as Hd.
  destruct (getArrowPoints_ends _ _ _ _ Hp) as [E1 E2].
  subst w1 w2 back size.
  unfold getArrowPoints.
  rewrite arrowLength_polyline, E1, E2.
  set (len := polylineLength ((0, 0) :: Element.points element)).
  destruct p1 as [x1 y1], p2 as [x2 y2].
  cbn [nsub hypot lift2].
  change (sqrt ((x2 - x1) * (x2 - x1) + (y2 - y1) * (y2 - y1)))
    with (segmentLength (x1, y1) (x2, y2)).
  set (d := segmentLength (x1, y1) (x2, y2)) in *.
  unfold rotate.
  repeat (rewrite ndiv_Fin by lra;
          cbn [nmin nmul nsub nadd nopp lift2 lift1 ncos nsin]).
  unfold turn, opposite, scaledDirection, degrees.
  cbn [fst snd]. fold d.
  replace (- (20) * PI / 180) with (- 20 * PI / 180) by lra.
  apply f_equal.
  repeat (apply f_equal2;
          [try reflexivity; apply f_equal; field; lra|]).
  reflexivity.
Qed.

(** When the last segment has no direction the division is [0 / 0], and
    the ends of the wings are not numbers. *)
Lemma getArrowPoints_pointless element before p :
  (0, 0) :: Element.points element = before ++ [p; p] ->
  getArrowPoints element
  = Some [Fin (fst p); Fin (snd p); NaN; NaN; NaN; NaN].
Proof.
  intros Hp.
  destruct (getArrowPoints_ends _ _ _ _ Hp) as [E1 E2].
  unfold getArrowPoints.
  rewrite arrowLength_polyline, E1, E2.
  destruct p as [px py]. cbn [nsub hypot lift2 fst snd].
  replace ((px - px) * (px - px) + (py - py) * (py - py)) with 0 by ring.
  rewrite sqrt_0. cbn [ndiv].
  destruct (Req_dec_T 0 0) as [_|N]; [reflexivity | contradiction].
Qed.
End ArrowPathFacts.

Section ArrowClaims.
Import Number Geometry GeometrySpec.
Local Open Scope R_scope.

(** C6, as the code has it.  The last segment of an arrow goes from [p1]
    to the tip [p2]: its last two points, or [[0, 0]] and its point when it
    has only one.  When the segment has a direction, the two wings that
    [getArrowPoints] returns after the tip are the vector from the tip back
    along the segment, turned by -20 and by +20 degrees around the tip, and
    their length is [min(30, half the length of the path from [0, 0]
    through the points)]: the path starts at [[0, 0]] also when the first
    point is elsewhere.  When the segment has no direction the ends of the
    wings are [NaN]. *)
Theorem arrowhead_wings :
  forall (element : Element.t) (before : list (R * R)) (p1 p2 : R * R),
    (0, 0) :: Element.points element = before ++ [p1; p2] ->
    let size :=
      Rmin 30 (polylineLength ((0, 0) :: Element.points element) / 2) in
    let back := opposite (scaledDirection p1 p2 size) in
    let w1 := turn (degrees (- 20)) back in
    let w2 := turn (degrees 20) back in
    let end1 := (fst p2 + fst w1, snd p2 + snd w1) in
    let end2 := (fst p2 + fst w2, snd p2 + snd w2) in
    (p1 <> p2 ->
     getArrowPoints element
     = Some [Fin (fst p2); Fin (snd p2);
             Fin (fst end1); Fin (snd end1); Fin (fst end2); Fin (snd end2)]
     /\ segmentLength p2 end1 = size
     /\ segmentLength p2 end2 = size)
    /\ (p1 = p2 ->
        getArrowPoints element
        = Some [Fin (fst p2); Fin (snd p2); NaN; NaN; NaN; NaN]).
Proof.
  intros element before p1 p2 Hp size back w1 w2 end1 end2.
  assert (Hsize : 0 <= size).
  { unfold size.
    pose proof (polylineLength_nonneg ((0, 0) :: Element.points element)).
    unfold Rmin. destruct (Rle_dec 30 _); lra. }
  split.
  - intros Hne. split; [|split].
    + exact (getArrowPoints_path element before p1 p2 Hp Hne).
    + apply (wing_length p2 (degrees (- 20)) p1 p2 size Hne Hsize).
    + apply (wing_length p2 (degrees 20) p1 p2 size Hne Hsize).
  - intros ->. now apply (getArrowPoints_pointless element before).
Qed.

End ArrowClaims.

(** ** The hit test of an arrow *)

Section ArrowHitFacts.
Import Number Geometry GeometrySpec.
Local Open Scope R_scope.

(** A segment whose ends both lie at least [m] to the right of the point
    is at least [m] away from it. *)
Lemma distance_at_least x y x1 y1 x2 y2 m :
  0 <= m -> x + m <= x1 -> x + m <= x2 ->
  exists d,
    distanceBetweenPointAndSegment (Fin x) (Fin y) (Fin x1) (Fin y1)
      (Fin x2) (Fin y2) = Fin d
    /\ m <= d.
Proof.
  intros Hm H1 H2. unfold distanceBetweenPointAndSegment.
  cbn [nadd nsub nmul lift2].
  set (lenSquare := (x2 - x1) * (x2 - x1) + (y2 - y1) * (y2 - y1)).
  set (dot := (x - x1) * (x2 - x1) + (y - y1) * (y2 - y1)).
  assert (Hfar : forall xx yy, x + m <= xx ->
            m <= sqrt ((x - xx) * (x - xx) + (y - yy) * (y - yy))).
  { intros xx yy Hxx.
    eapply Rle_trans; [|apply sqrt_sum_squares_ge].
    rewrite Rabs_left1 by lra. lra. }
  assert (Hparam : exists param,
            (if nneq (Fin lenSquare) (Fin 0)
             then ndiv (Fin dot) (Fin lenSquare) else Fin (-1))
            = Fin param).
  { cbn [nneq]. destruct (Req_dec_T lenSquare 0) as [E|N].
    - now exists (-1).
    - exists (dot / lenSquare). now apply ndiv_Fin. }
  destruct Hparam as [param ->].
  cbn [nlt ngt].
  destruct (Rlt_dec param 0) as [Hneg|Hpos].
  - cbn [nsub hypot lift2]. eexists. split; [reflexivity|]. now apply Hfar.
  - destruct (Rlt_dec 1 param) as [Hbig|Hsmall].
    + cbn [nsub hypot lift2]. eexists. split; [reflexivity|].
      now apply Hfar.
    + cbn [nadd nmul nsub hypot lift2]. eexists. split; [reflexivity|].
      apply Hfar. nra.
Qed.

Lemma far_segment_not_hit x y x1 y1 x2 y2 :
  x + 10 <= x1 -> x + 10 <= x2 ->
  nlt (distanceBetweenPointAndSegment (Fin x) (Fin y) (Fin x1) (Fin y1)
         (Fin x2) (Fin y2)) (Fin 10) = false.
Proof.
  intros H1 H2.
  destruct (distance_at_least x y x1 y1 x2 y2 10) as (d & -> & Hd);
    try lra.
  now apply nlt_Fin_false.
Qed.

(** The middle of a segment is on it. *)
Lemma distance_middle :
  distanceBetweenPointAndSegment (Fin 50) (Fin 0) (Fin 0) (Fin 0)
    (Fin 100) (Fin 0) = Fin 0.
Proof.
  unfold distanceBetweenPointAndSegment. cbn [nadd nsub nmul lift2].
  rewrite nneq_Fin_true by lra.
  rewrite ndiv_Fin by lra.
  replace (((50 - 0) * (100 - 0) + (0 - 0) * (0 - 0))
           / ((100 - 0) * (100 - 0) + (0 - 0) * (0 - 0)))
    with (1 / 2) by (field; lra).
  rewrite nlt_Fin_false by lra.
  unfold ngt. rewrite nlt_Fin_false by lra.
  cbn [nadd nsub nmul hypot lift2]. f_equal.
  replace ((50 - (0 + 1 / 2 * (100 - 0))) * (50 - (0 + 1 / 2 * (100 - 0)))
           + (0 - (0 + 1 / 2 * (0 - 0))) * (0 - (0 + 1 / 2 * (0 - 0))))
    with 0 by field.
  apply sqrt_0.
Qed.

(** A wing does not reach further back than its length. *)
Lemma wing_reach angle p q size :
  p <> q -> 0 <= size ->
  - size <= fst (turn angle (opposite (scaledDirection p q size))).
Proof.
  intros Hne Hs.
  set (w := turn angle (opposite (scaledDirection p q size))).
  assert (Hw : fst w * fst w + snd w * snd w = size * size).
  { unfold w. rewrite turn_norm. unfold opposite. cbn [fst snd].
    rewrite <- (scaledDirection_norm p q size Hne). ring. }
  pose proof (Rle_0_sqr (snd w)) as Hy. unfold Rsqr in Hy.
  destruct (Rle_dec (- size) (fst w)) as [H|H]; [assumption|].
  exfalso.
  assert (Hp : 0 < (- size - fst w) * (size - fst w))
    by (apply Rmult_lt_0_compat; lra).
  lra.
Qed.
End ArrowHitFacts.

Section ArrowHitClaims.
Import Number Geometry GeometrySpec.
Local Open Scope R_scope.

(** C5, at the arrow from (0, 0) to (100, 0) anchored at the origin.  The
    point (50, 0) is on the arrow's only segment, and [hitTest] returns
    false there: of the six numbers that [getArrowPoints] returns, the eight
    names that [hitTest] takes apart stand for the tip, the ends of the two
    wings and [undefined], so the segments it measures are the one between
    the ends of the wings, the first wing, and one with an undefined end. *)
Theorem arrow_shaft_not_hit :
  forall (getLinearElementAbsoluteBounds : Element.t -> list num)
         (hitTestEllipse : Element.t -> R -> R -> bool),
    let element :=
      Element.mk "arrow" 0 0 100 0 "transparent" [(0, 0); (100, 0)] in
    distanceBetweenPointAndSegment (Fin 50) (Fin 0) (Fin 0) (Fin 0)
      (Fin 100) (Fin 0) = Fin 0
    /\ hitTest getLinearElementAbsoluteBounds hitTestEllipse element 50 0
       = Returns false.
Proof.
  intros lin ell element. split; [apply distance_middle|].
  assert (Hne : (0, 0) <> (100, 0)) by (intros E; injection E; lra).
  pose proof (getArrowPoints_eq element [] (0, 0) (100, 0) eq_refl Hne) as E.
  cbv zeta in E.
  set (size := Rmin 30 (polylineLength ((0, 0) :: Element.points element) / 2))
    in *.
  assert (Hsize : 0 <= size <= 30).
  { unfold size.
    pose proof (polylineLength_nonneg ((0, 0) :: Element.points element)).
    unfold Rmin. destruct (Rle_dec 30 _); lra. }
  pose proof (wing_reach (degrees (- 20)) (0, 0) (100, 0) size Hne
                ltac:(lra)) as H1.
  pose proof (wing_reach (degrees 20) (0, 0) (100, 0) size Hne
                ltac:(lra)) as H2.
  set (w1 := turn (degrees (- 20))
               (opposite (scaledDirection (0, 0) (100, 0) size))) in *.
  set (w2 := turn (degrees 20)
               (opposite (scaledDirection (0, 0) (100, 0) size))) in *.
  unfold hitTest.
  change (Element.type element) with "arrow"%string.
  change (String.eqb "arrow" "ellipse") with false.
  change (String.eqb "arrow" "rectangle") with false.
  change (String.eqb "arrow" "diamond") with false.
  change (String.eqb "arrow" "arrow") with true.
  cbv iota. rewrite E. cbn [item nth fst snd].
  change (Element.x element) with 0. change (Element.y element) with 0.
  cbn [nsub lift2].
  rewrite (far_segment_not_hit (50 - 0) (0 - 0)) by lra.
  rewrite (far_segment_not_hit (50 - 0) (0 - 0)) by lra.
  reflexivity.
Qed.
End ArrowHitClaims.

(** ** Resizing a linear element by an edge handle *)

Section SortedCopyFacts.
Import Resize ResizeSpec.
Local Open Scope R_scope.
Variable key : R * R -> R.
Variable points : list (R * R).

Lemma insertBy_perm j order :
  Permutation (insertBy key points j order) (j :: order).
Proof.
  induction order as [|k order IH]; simpl; [reflexivity|].
  destruct (Rle_dec _ _); [reflexivity|].
  rewrite IH. apply perm_swap.
Qed.

Lemma sortedCopy_perm :
  Permutation (sortedCopy key points) (seq 0 (List.length points)).
Proof.
  unfold sortedCopy. induction (seq 0 (List.length points)) as [|j l IH];
    simpl; [reflexivity|].
  rewrite insertBy_perm. now constructor.
Qed.

Lemma insertBy_sorted j order :
  StronglySorted (byKey key points) order ->
  StronglySorted (byKey key points) (insertBy key points j order).
Proof.
  induction 1 as [|k order Hs IH Hk]; simpl.
  - repeat constructor.
  - destruct (Rle_dec (keyAt key points j) (keyAt key points k)) as [H|H].
    + constructor; [now constructor|].
      constructor; [exact H|].
      eapply Forall_impl; [|exact Hk].
      unfold byKey. simpl. intros; lra.
    + constructor; [assumption|].
      eapply Permutation_Forall; [symmetry; apply insertBy_perm|].
      constructor; [unfold byKey; lra | assumption].
Qed.

(** The copy is in the order of the key. *)
Lemma sortedCopy_sorted :
  StronglySorted (byKey key points) (sortedCopy key points).
Proof.
  unfold sortedCopy. induction (seq 0 (List.length points)) as [|j l IH];
    simpl; [constructor|].
  now apply insertBy_sorted.
Qed.

Lemma sortedCopy_NoDup : NoDup (sortedCopy key points).
Proof.
  eapply Permutation_NoDup; [symmetry; apply sortedCopy_perm|].
  apply seq_NoDup.
Qed.

Lemma sortedCopy_range :
  Forall (fun j => (j < List.length points)%nat) (sortedCopy key points).
Proof.
  eapply Permutation_Forall; [symmetry; apply sortedCopy_perm|].
  apply Forall_forall. intros j Hj. apply in_seq in Hj. lia.
Qed.

Lemma sortedCopy_length :
  List.length (sortedCopy key points) = List.length points.
Proof. now rewrite (Permutation_length sortedCopy_perm), length_seq. Qed.
End SortedCopyFacts.

Section ForEachFacts.
Import Resize.
Local Open Scope R_scope.

Lemma update_length j f points :
  List.length (update j f points) = List.length points.
Proof.
  revert j; induction points as [|p rest IH]; intros [|j]; simpl;
    try reflexivity.
  now rewrite IH.
Qed.

Lemma nth_update_same j f points d :
  (j < List.length points)%nat ->
  nth j (update j f points) d = f (nth j points d).
Proof.
  revert j; induction points as [|p rest IH]; intros [|j] H; simpl in *;
    try lia; [reflexivity|].
  apply IH. lia.
Qed.

Lemma nth_update_other j k f points d :
  j <> k -> nth k (update j f points) d = nth k points d.
Proof.
  revert j k; induction points as [|p rest IH]; intros [|j] [|k] H; simpl;
    try reflexivity; try congruence.
  apply IH. congruence.
Qed.

(** A point that the loop does not visit keeps its coordinates. *)
Lemma forEachFrom_other body sorted : forall i points j d,
  ~ In j sorted ->
  nth j (forEachFrom body i sorted points) d = nth j points d.
Proof.
  induction sorted as [|k rest IH]; intros i points j d Hj; [reflexivity|].
  cbn [forEachFrom]. rewrite IH by (simpl in Hj; tauto).
  apply nth_update_other. simpl in Hj. intros ->. tauto.
Qed.

(** The point at position [k] of what is left of the sorted copy gets the
    body at [i + k], once. *)
Lemma forEachFrom_visited body sorted : forall i points k j d,
  NoDup sorted ->
  Forall (fun j => (j < List.length points)%nat) sorted ->
  nth_error sorted k = Some j ->
  nth j (forEachFrom body i sorted points) d
  = body (i + k)%nat (nth j points d).
Proof.
  induction sorted as [|j0 rest IH]; intros i points k j d Hnd Hr Hk;
    [destruct k; discriminate|].
  inversion Hnd as [|? ? Hnotin Hnd']; subst.
  inversion Hr as [|? ? Hj0 Hr']; subst.
  cbn [forEachFrom]. destruct k as [|k]; simpl in Hk.
  - injection Hk as <-. rewrite forEachFrom_other by assumption.
    rewrite nth_update_same by assumption. now rewrite Nat.add_0_r.
  - rewrite (IH (S i) _ k j d Hnd').
    + rewrite nth_update_other.
      * f_equal. lia.
      * intros ->. apply Hnotin. eapply nth_error_In; eassumption.
    + eapply Forall_impl; [|exact Hr']. simpl. intros.
      now rewrite update_length.
    + assumption.
Qed.
End ForEachFacts.

Section ResizeFacts.
Import Resize ResizeSpec.
Local Open Scope R_scope.

(** The point of the first position is the only one before the second. *)
Lemma first_not_later (sorted : list nat) j :
  NoDup sorted -> nth_error sorted 0 = Some j -> ~ In j (skipn 1 sorted).
Proof.
  destruct sorted as [|j0 rest]; [discriminate|]. simpl.
  intros Hnd E. injection E as <-. now inversion Hnd.
Qed.

Lemma NoDup_skipn {A} k (l : list A) : NoDup l -> NoDup (skipn k l).
Proof.
  intros H. rewrite <- (firstn_skipn k l) in H.
  now apply NoDup_app_remove_l in H.
Qed.

Lemma later_position (sorted : list nat) i j :
  (1 <= i)%nat -> nth_error sorted i = Some j ->
  nth_error (skipn 1 sorted) (i - 1) = Some j.
Proof.
  intros Hi E. rewrite nth_error_skipn. rewrite <- E. f_equal. lia.
Qed.

Lemma INR_last len : (0 < len)%nat -> INR len - INR (len - 1) = 1.
Proof.
  intros H. rewrite minus_INR by lia. simpl. lra.
Qed.

(** The points after a resize: those of the sorted copy from position 1
    on (from position 0 on for ["w"]) have the resized coordinate changed
    by the signed delta over [len - i]. *)
Lemma resize_points resizeHandle element deltaX deltaY :
  (0 < List.length (Element.points element))%nat ->
  let points := Element.points element in
  let len := List.length points in
  let delta := signedDelta resizeHandle deltaX deltaY in
  Element.points (resize resizeHandle element deltaX deltaY)
  = forEachFrom
      (fun i pnt => shifted resizeHandle (delta / (INR len - INR i)) pnt)
      (match resizeHandle with handleW => 0 | _ => 1 end)
      (skipn (match resizeHandle with handleW => 0 | _ => 1 end)
         (sortedCopy (coordinate resizeHandle) points))
      points.
Proof.
  intros Hlen points len delta.
  assert (E : Nat.ltb 0 (List.length (Element.points element)) = true)
    by (apply Nat.ltb_lt; lia).
  assert (Hext : forall body body' i sorted pts,
            (forall k p, body k p = body' k p) ->
            forEachFrom body i sorted pts = forEachFrom body' i sorted pts).
  { intros body body' i sorted; revert i.
    induction sorted as [|j rest IH]; intros i pts H; [reflexivity|].
    cbn [forEachFrom]. rewrite (IH (S i) _ H). f_equal.
    clear IH. revert j. induction pts as [|p pts IHp]; intros [|j];
      simpl; try reflexivity; [now rewrite H | now rewrite IHp]. }
  destruct resizeHandle; unfold resize; rewrite E; cbn [Element.points];
    apply Hext; intros k p; unfold shifted, delta, signedDelta;
    f_equal; unfold len, points, Rdiv; ring.
Qed.

(** The points of the sorted copy from position 1 on. *)
Lemma resize_later resizeHandle element deltaX deltaY i j :
  let points := Element.points element in
  let len := List.length points in
  (1 <= i < len)%nat ->
  nth_error (sortedCopy (coordinate resizeHandle) points) i = Some j ->
  nth j (Element.points (resize resizeHandle element deltaX deltaY)) (0, 0)
  = shifted resizeHandle
      (signedDelta resizeHandle deltaX deltaY / (INR len - INR i))
      (nth j points (0, 0)).
Proof.
  intros points len Hi Hj.
  pose proof (sortedCopy_NoDup (coordinate resizeHandle) points) as Hnd.
  pose proof (sortedCopy_range (coordinate resizeHandle) points) as Hr.
  assert (Hpts := resize_points resizeHandle element deltaX deltaY
                    ltac:(fold points len; lia)).
  cbv zeta in Hpts. fold points len in Hpts. rewrite Hpts.
  set (sorted := sortedCopy (coordinate resizeHandle) points) in *.
  assert (Hfrom1 :
            forall body,
              nth j (forEachFrom body 1 (skipn 1 sorted) points) (0, 0)
              = body i (nth j points (0, 0))).
  { intros body.
    rewrite (forEachFrom_visited body (skipn 1 sorted) 1 points (i - 1) j);
      [ now replace (1 + (i - 1))%nat with i by lia
      | now apply NoDup_skipn | now apply Forall_skipn
      | apply later_position; [lia | assumption] ]. }
  destruct resizeHandle; try apply Hfrom1.
  now rewrite (forEachFrom_visited _ (skipn 0 sorted) 0 points i j).
Qed.

Lemma weight_at_least_one len i : (i < len)%nat -> 1 <= INR len - INR i.
Proof.
  intros H. apply le_INR in H. rewrite S_INR in H. lra.
Qed.

(** How far those points go on the canvas: the share [1 / (len - i)] of the
    delta when the anchor stays, the rest of it when the anchor follows the
    handle. *)
Lemma moved_later resizeHandle element deltaX deltaY i j :
  let points := Element.points element in
  let len := List.length points in
  (1 <= i < len)%nat ->
  nth_error (sortedCopy (coordinate resizeHandle) points) i = Some j ->
  moved resizeHandle element (resize resizeHandle element deltaX deltaY) j
  = Rabs (signedDelta resizeHandle deltaX deltaY)
    * match resizeHandle with
      | handleN | handleW => 1 - / (INR len - INR i)
      | handleS | handleE => / (INR len - INR i)
      end.
Proof.
  intros points len Hi Hj.
  pose proof (weight_at_least_one len i ltac:(lia)) as Ha.
  assert (Hinv : 0 < / (INR len - INR i) <= 1).
  { split; [apply Rinv_0_lt_compat; lra|].
    rewrite <- Rinv_1. apply Rinv_le_contravar; lra. }
  unfold moved, absolute.
  rewrite (resize_later resizeHandle element deltaX deltaY i j Hi Hj).
  fold points len.
  set (a := INR len - INR i) in *.
  destruct (nth j points (0, 0)) as [px py].
  destruct resizeHandle;
    cbn [resize Element.x Element.y shifted signedDelta coordinate fst snd].
  - replace (Element.y element + deltaY + (py + - deltaY / a)
             - (Element.y element + py))
      with (- deltaY * - (1 - / a)) by (unfold Rdiv; ring).
    rewrite Rabs_mult, (Rabs_Ropp (1 - / a)), (Rabs_right (1 - / a)) by lra.
    reflexivity.
  - replace (Element.x element + deltaX + (px + - deltaX / a)
             - (Element.x element + px))
      with (- deltaX * - (1 - / a)) by (unfold Rdiv; ring).
    rewrite Rabs_mult, (Rabs_Ropp (1 - / a)), (Rabs_right (1 - / a)) by lra.
    reflexivity.
  - replace (Element.y element + (py + deltaY / a)
             - (Element.y element + py))
      with (deltaY * / a) by (unfold Rdiv; ring).
    rewrite Rabs_mult, (Rabs_right (/ a)) by lra. reflexivity.
  - replace (Element.x element + (px + deltaX / a)
             - (Element.x element + px))
      with (deltaX * / a) by (unfold Rdiv; ring).
    rewrite Rabs_mult, (Rabs_right (/ a)) by lra. reflexivity.
Qed.
End ResizeFacts.

Section ResizeMoreFacts.
Import Resize ResizeSpec ResizeWeightSpec.
Local Open Scope R_scope.

Lemma shifted_0 resizeHandle pnt : shifted resizeHandle 0 pnt = pnt.
Proof.
  destruct pnt as [px py].
  destruct resizeHandle; cbn [shifted fst snd]; f_equal; lra.
Qed.

(** The points after a resize, position by position of the sorted copy. *)
Lemma resize_at resizeHandle element deltaX deltaY i j :
  let points := Element.points element in
  let len := List.length points in
  (i < len)%nat ->
  nth_error (sortedCopy (coordinate resizeHandle) points) i = Some j ->
  nth j (Element.points (resize resizeHandle element deltaX deltaY)) (0, 0)
  = shifted resizeHandle
      (signedDelta resizeHandle deltaX deltaY * weight resizeHandle len i)
      (nth j points (0, 0)).
Proof.
  intros points len Hi Hj.
  pose proof (sortedCopy_NoDup (coordinate resizeHandle) points) as Hnd.
  pose proof (sortedCopy_range (coordinate resizeHandle) points) as Hr.
  unfold weight.
  destruct (Nat.ltb i (firstVisited resizeHandle)) eqn:E.
  - apply Nat.ltb_lt in E. rewrite Rmult_0_r, shifted_0.
    assert (Hpts := resize_points resizeHandle element deltaX deltaY
                      ltac:(fold points len; lia)).
    cbv zeta in Hpts. fold points len in Hpts. rewrite Hpts.
    destruct resizeHandle; cbn [firstVisited] in E; try lia;
      assert (i = 0%nat) as -> by lia;
      apply forEachFrom_other; now apply first_not_later.
  - apply Nat.ltb_ge in E.
    replace (signedDelta resizeHandle deltaX deltaY
             * (1 / (INR len - INR i)))
      with (signedDelta resizeHandle deltaX deltaY / (INR len - INR i))
      by (unfold Rdiv; ring).
    destruct resizeHandle; cbn [firstVisited] in E;
      try (apply resize_later; [fold points len; lia | assumption]).
    assert (Hpts := resize_points handleW element deltaX deltaY
                      ltac:(fold points len; lia)).
    cbv zeta in Hpts. fold points len in Hpts. rewrite Hpts.
    now rewrite (forEachFrom_visited _ (skipn 0 _) 0 points i j).
Qed.

Lemma weight_range resizeHandle len i :
  (i < len)%nat -> 0 <= weight resizeHandle len i <= 1.
Proof.
  intros Hi. unfold weight.
  destruct (Nat.ltb i (firstVisited resizeHandle)); [lra|].
  pose proof (weight_at_least_one len i Hi) as Ha.
  unfold Rdiv. rewrite Rmult_1_l. split.
  - left. apply Rinv_0_lt_compat. lra.
  - rewrite <- Rinv_1. apply Rinv_le_contravar; lra.
Qed.

(** The weights grow with the position. *)
Lemma weight_ascending resizeHandle len i i' :
  (i <= i')%nat -> (i' < len)%nat ->
  weight resizeHandle len i <= weight resizeHandle len i'.
Proof.
  intros Hii Hi'. unfold weight.
  destruct (Nat.ltb i (firstVisited resizeHandle)) eqn:E.
  - apply (weight_range resizeHandle len i' Hi').
  - apply Nat.ltb_ge in E.
    replace (Nat.ltb i' (firstVisited resizeHandle)) with false
      by (symmetry; apply Nat.ltb_ge; lia).
    pose proof (weight_at_least_one len i ltac:(lia)) as Ha.
    pose proof (weight_at_least_one len i' Hi') as Hb.
    assert (Hab : INR len - INR i' <= INR len - INR i).
    { apply le_INR in Hii. lra. }
    unfold Rdiv. rewrite !Rmult_1_l. apply Rinv_le_contravar; lra.
Qed.

(** How far a point goes on the canvas. *)
Lemma moved_at resizeHandle element deltaX deltaY i j :
  let points := Element.points element in
  let len := List.length points in
  (i < len)%nat ->
  nth_error (sortedCopy (coordinate resizeHandle) points) i = Some j ->
  moved resizeHandle element (resize resizeHandle element deltaX deltaY) j
  = Rabs (signedDelta resizeHandle deltaX deltaY)
    * match resizeHandle with
      | handleN | handleW => 1 - weight resizeHandle len i
      | handleS | handleE => weight resizeHandle len i
      end.
Proof.
  intros points len Hi Hj.
  pose proof (weight_range resizeHandle len i Hi) as Hw.
  unfold moved, absolute.
  rewrite (resize_at resizeHandle element deltaX deltaY i j Hi Hj).
  fold points len.
  set (w := weight resizeHandle len i) in *.
  destruct (nth j points (0, 0)) as [px py].
  destruct resizeHandle;
    cbn [resize Element.x Element.y shifted signedDelta coordinate fst snd].
  - replace (Element.y element + deltaY + (py + - deltaY * w)
             - (Element.y element + py))
      with (- deltaY * - (1 - w)) by ring.
    rewrite Rabs_mult, (Rabs_Ropp (1 - w)), (Rabs_right (1 - w)) by lra.
    reflexivity.
  - replace (Element.x element + deltaX + (px + - deltaX * w)
             - (Element.x element + px))
      with (- deltaX * - (1 - w)) by ring.
    rewrite Rabs_mult, (Rabs_Ropp (1 - w)), (Rabs_right (1 - w)) by lra.
    reflexivity.
  - replace (Element.y element + (py + deltaY * w)
             - (Element.y element + py))
      with (deltaY * w) by ring.
    rewrite Rabs_mult, (Rabs_right w) by lra. reflexivity.
  - replace (Element.x element + (px + deltaX * w)
             - (Element.x element + px))
      with (deltaX * w) by ring.
    rewrite Rabs_mult, (Rabs_right w) by lra. reflexivity.
Qed.
End ResizeMoreFacts.

Section ResizeClaims.
Import Resize ResizeSpec ResizeWeightSpec.
Local Open Scope R_scope.

(** C8.  A linear element of more than two points resized by the handle
    ["n"], ["s"], ["e"] or ["w"]: the points are taken in the order of the
    resized coordinate, and the point at position [i] of that order has
    this coordinate changed by the delta times its weight (the delta
    counted negative for ["n"] and ["w"]), its other coordinate being kept.
    The weight is [1 / (len - i)] from the first position of the loop on,
    which is 1 for ["n"], ["s"], ["e"] and 0 for ["w"], and nothing before
    it; the weights grow with [i].  Of two points the one that comes
    nearer, in the order, to the edge opposite to the handle goes no
    farther on the canvas; and the point on that edge, last of the order
    for ["n"] and ["w"] and first for ["s"] and ["e"], stays where it is,
    so no point moves less. *)
Theorem edge_resize_distribution :
  forall (resizeHandle : edgeHandle) (element : Element.t)
         (deltaX deltaY : R),
    (2 < List.length (Element.points element))%nat ->
    let points := Element.points element in
    let len := List.length points in
    let sorted := sortedCopy (coordinate resizeHandle) points in
    let delta := signedDelta resizeHandle deltaX deltaY in
    let resized := resize resizeHandle element deltaX deltaY in
    Permutation sorted (seq 0 len)
    /\ StronglySorted (byKey (coordinate resizeHandle) points) sorted
    /\ (forall i j,
          (i < len)%nat ->
          nth_error sorted i = Some j ->
          nth j (Element.points resized) (0, 0)
          = shifted resizeHandle (delta * weight resizeHandle len i)
              (nth j points (0, 0)))
    /\ (forall i i',
          (i <= i')%nat -> (i' < len)%nat ->
          weight resizeHandle len i <= weight resizeHandle len i')
    /\ (forall i i' j j',
          (i <= i')%nat -> (i' < len)%nat ->
          nth_error sorted i = Some j ->
          nth_error sorted i' = Some j' ->
          match resizeHandle with
          | handleN | handleW =>
              moved resizeHandle element resized j'
              <= moved resizeHandle element resized j
          | handleS | handleE =>
              moved resizeHandle element resized j
              <= moved resizeHandle element resized j'
          end)
    /\ (forall j,
          nth_error sorted (fixedRank resizeHandle len) = Some j ->
          absolute resized j = absolute element j).
Proof.
  intros resizeHandle element deltaX deltaY Hlen points len sorted delta
    resized.
  assert (Hlen' : (2 < len)%nat) by exact Hlen.
  split; [apply sortedCopy_perm|].
  split; [apply sortedCopy_sorted|].
  split; [intros i j; apply resize_at|].
  split; [intros i i'; apply weight_ascending|].
  split.
  - intros i i' j j' Hi Hi' Hj Hj'.
    unfold resized.
    rewrite (moved_at resizeHandle element deltaX deltaY i j)
      by (assumption || fold points len; lia).
    rewrite (moved_at resizeHandle element deltaX deltaY i' j')
      by (assumption || fold points len; lia).
    fold points len.
    pose proof (weight_ascending resizeHandle len i i' Hi Hi') as Hw.
    pose proof (Rabs_pos (signedDelta resizeHandle deltaX deltaY)) as Hd.
    destruct resizeHandle; apply Rmult_le_compat_l; lra.
  - intros j Hj. unfold absolute, resized.
    destruct resizeHandle; cbn [fixedRank] in Hj.
    + rewrite (resize_at handleN element deltaX deltaY (len - 1) j)
        by (assumption || fold points len; lia).
      fold points len. unfold weight.
      replace (Nat.ltb (len - 1) (firstVisited handleN)) with false
        by (symmetry; apply Nat.ltb_ge; simpl; lia).
      rewrite INR_last by lia.
      cbn [resize Element.x Element.y shifted signedDelta fst snd].
      f_equal; field.
    + rewrite (resize_at handleW element deltaX deltaY (len - 1) j)
        by (assumption || fold points len; lia).
      fold points len. unfold weight.
      replace (Nat.ltb (len - 1) (firstVisited handleW)) with false
        by (symmetry; apply Nat.ltb_ge; simpl; lia).
      rewrite INR_last by lia.
      cbn [resize Element.x Element.y shifted signedDelta fst snd].
      f_equal; field.
    + rewrite (resize_at handleS element deltaX deltaY 0 j)
        by (assumption || fold points len; lia).
      fold points len. unfold weight. cbn [firstVisited Nat.ltb Nat.leb].
      rewrite Rmult_0_r, shifted_0. reflexivity.
    + rewrite (resize_at handleE element deltaX deltaY 0 j)
        by (assumption || fold points len; lia).
      fold points len. unfold weight. cbn [firstVisited Nat.ltb Nat.leb].
      rewrite Rmult_0_r, shifted_0. reflexivity.
Qed.

End ResizeClaims.

(** ** The claims at concrete inputs *)

Section Instances.
Import JsArray ZIndex ZIndexSpec.
Local Open Scope Z_scope.

Lemma moveAllLeft_selected_first_witness :
  ascending [1; 3]
  /\ inRange (of_list [10; 20; 30; 40; 50]%nat) [1; 3]
  /\ slots (moveAllLeft (of_list [10; 20; 30; 40; 50]%nat) [1; 3])
     = map Some [20; 40; 10; 30; 50]%nat.
Proof.
  assert (Hasc : ascending [1; 3]) by (repeat constructor).
  assert (Hin : inRange (of_list [10; 20; 30; 40; 50]%nat) [1; 3])
    by (repeat constructor; cbv; discriminate).
  split; [exact Hasc|]. split; [exact Hin|].
  rewrite (proj2 moveAllLeft_selected_first nat _ [1; 3] Hasc Hin).
  reflexivity.
Defined.


Lemma restack_sameElements_witness :
  NoDup [3; 1]
  /\ inRange (of_list [10; 20; 30; 40; 50]%nat) [3; 1]
  /\ sameElements (moveAllRight (of_list [10; 20; 30; 40; 50]%nat) [3; 1])
       (of_list [10; 20; 30; 40; 50]%nat).
Proof.
  assert (Hnd : NoDup [3; 1]).
  { repeat constructor; simpl; intros H;
      repeat (destruct H as [H|H]; try discriminate H); exact H. }
  assert (Hin : inRange (of_list [10; 20; 30; 40; 50]%nat) [3; 1])
    by (repeat constructor; cbv; discriminate).
  split; [exact Hnd|]. split; [exact Hin|].
  apply (restack_sameElements nat _ [3; 1] Hnd Hin).
Defined.
End Instances.

Section HistoryInstances.
Import Json History HistoryStateSpec.
Local Open Scope string_scope.

Lemma undo_redo_three_edits_witness :
  let h0 := mkHistory true ["[]"] [] in
  let one := JNumber ["1"%char] in
  let two := JNumber ["2"%char] in
  let three := JNumber ["3"%char] in
  let h3 := pushEntry (pushEntry (pushEntry h0 "[1]") "[1,2]") "[1,2,3]" in
  holds (top (stateHistory h0)) (JArray [])
  /\ parse "[1]" = Some (JArray [one])
  /\ parse "[1,2]" = Some (JArray [one; two])
  /\ parse "[1,2,3]" = Some (JArray [one; two; three])
  /\ top (stateHistory h0) <> Some "[1]"
  /\ "[1]" <> "[1,2]"
  /\ "[1,2]" <> "[1,2,3]"
  /\ fst (undoOnce h3) = JArray [one; two]
  /\ fst (undoOnce (snd (undoOnce h3))) = JArray [one]
  /\ fst (undoOnce (snd (undoOnce (snd (undoOnce h3))))) = JArray [].
Proof.
  intros h0 one two three h3.
  assert (H0 : holds (top (stateHistory h0)) (JArray [])) by reflexivity.
  assert (P1 : parse "[1]" = Some (JArray [one])) by reflexivity.
  assert (P2 : parse "[1,2]" = Some (JArray [one; two])) by reflexivity.
  assert (P3 : parse "[1,2,3]" = Some (JArray [one; two; three]))
    by reflexivity.
  assert (N1 : top (stateHistory h0) <> Some "[1]")
    by (vm_compute; discriminate).
  assert (N2 : "[1]" <> "[1,2]") by discriminate.
  assert (N3 : "[1,2]" <> "[1,2,3]") by discriminate.
  destruct (undo_redo_three_edits h0 "[1]" "[1,2]" "[1,2,3]" _ _ _ _
              H0 P1 P2 P3 N1 N2 N3) as [(E1 & E2 & E3 & _) _].
  repeat (split; [assumption|]). exact E3.
Defined.

(** An entry that does not parse is below the top of the undo stack,
    respectively on top of the redo stack: the operation returns [null]
    and both stacks have changed. *)
Lemma unparseable_entry_advances :
  parse "{" = None
  /\ undoOnce (mkHistory true ["{"; "[]"] [])
     = (JNull, mkHistory true ["{"] ["[]"])
  /\ mkHistory true ["{"] ["[]"] <> mkHistory true ["{"; "[]"] []
  /\ redoOnce (mkHistory true ["[]"] ["{"])
     = (JNull, mkHistory true ["[]"; "{"] [])
  /\ mkHistory true ["[]"; "{"] [] <> mkHistory true ["[]"] ["{"].
Proof.
  split; [reflexivity|]. split; [reflexivity|].
  split; [discriminate|]. split; [reflexivity | discriminate].
Qed.

Lemma unparseable_entry_returns_null_witness :
  parse "{" = None
  /\ undoOnce (mkHistory false (["[]"] ++ ["{"; "[1]"]) ["[2]"])
     = (JNull, mkHistory false (["[]"] ++ ["{"]) (["[2]"] ++ ["[1]"]))
  /\ redoOnce (mkHistory false ["[]"] (["[2]"] ++ ["{"]))
     = (JNull, mkHistory false (["[]"] ++ ["{"]) ["[2]"]).
Proof.
  assert (Hp : parse "{" = None) by reflexivity.
  split; [exact Hp|]. split.
  - exact (proj1 unparseable_entry_returns_null false ["[]"] "{" "[1]"
             ["[2]"] Hp).
  - exact (proj2 unparseable_entry_returns_null false ["[]"] ["[2]"] "{"
             Hp).
Defined.
End HistoryInstances.

Section GeometryInstances.
Import Number Geometry GeometrySpec.
Local Open Scope R_scope.

Lemma segmentLength_horizontal a b : a <= b -> segmentLength (a, 0) (b, 0) = b - a.
Proof.
  intros H. unfold segmentLength. cbn [fst snd].
  replace ((b - a) * (b - a) + (0 - 0) * (0 - 0)) with ((b - a) * (b - a))
    by ring.
  apply sqrt_square. lra.
Qed.

(** An arrow whose points are (30, 0) and (40, 0): the polyline is 10 long,
    and half of it is 5; the wings are 20 long, half of the 40 from
    [[0, 0]] through both points. *)
Lemma arrowhead_wings_measured_from_origin :
  let element :=
    Element.mk "arrow" 0 0 10 0 "transparent" [(30, 0); (40, 0)] in
  let end1 := (40 - 20 * cos (20 * PI / 180), 20 * sin (20 * PI / 180)) in
  let end2 :=
    (40 - 20 * cos (20 * PI / 180), - (20 * sin (20 * PI / 180))) in
  Rmin 30 (polylineLength (Element.points element) / 2) = 5
  /\ getArrowPoints element
     = Some [Fin 40; Fin 0; Fin (fst end1); Fin (snd end1);
             Fin (fst end2); Fin (snd end2)]
  /\ segmentLength (40, 0) end1 = 20
  /\ segmentLength (40, 0) end2 = 20.
Proof.
  intros element end1 end2.
  assert (Hne : (30, 0) <> (40, 0)) by (intros E; injection E; lra).
  assert (L1 : polylineLength (Element.points element) = 10).
  { cbn [element Element.points polylineLength].
    rewrite segmentLength_horizontal; lra. }
  assert (L2 : polylineLength ((0, 0) :: Element.points element) = 40).
  { cbn [element Element.points polylineLength].
    rewrite !segmentLength_horizontal; lra. }
  assert (Ed : segmentLength (30, 0) (40, 0) = 10)
    by (rewrite segmentLength_horizontal; lra).
  split; [rewrite L1; unfold Rmin; destruct (Rle_dec 30 (10 / 2)); lra|].
  pose proof (getArrowPoints_path element [(0, 0)] (30, 0) (40, 0)
                eq_refl Hne) as E.
  pose proof (wing_length (40, 0) (degrees (- 20)) (30, 0) (40, 0) 20 Hne
                ltac:(lra)) as W1.
  pose proof (wing_length (40, 0) (degrees 20) (30, 0) (40, 0) 20 Hne
                ltac:(lra)) as W2.
  cbv zeta in E, W1, W2.
  assert (Es : Rmin 30 (polylineLength ((0, 0) :: Element.points element)
                        / 2) = 20).
  { rewrite L2. unfold Rmin. destruct (Rle_dec 30 (40 / 2)); lra. }
  rewrite Es in E.
  unfold turn, opposite, scaledDirection, degrees in E, W1, W2.
  cbn [fst snd] in E, W1, W2. rewrite Ed in E, W1, W2.
  replace (- 20 * PI / 180) with (- (20 * PI / 180)) in E, W1 by lra.
  rewrite cos_neg, sin_neg in E, W1.
  unfold end1, end2. cbn [fst snd].
  split; [|split].
  - rewrite E. apply f_equal.
    repeat (apply f_equal2; [try reflexivity; apply f_equal; field|]).
    reflexivity.
  - etransitivity; [|exact W1]. f_equal. f_equal; field.
  - etransitivity; [|exact W2]. f_equal. f_equal; field.
Qed.

Lemma arrowhead_wings_witness :
  let element :=
    Element.mk "arrow" 0 0 100 0 "transparent" [(0, 0); (100, 0)] in
  (0, 0) :: Element.points element = [(0, 0)] ++ [(0, 0); (100, 0)]
  /\ (0, 0) <> (100, 0)
  /\ getArrowPoints element
     = Some [Fin 100; Fin 0;
             Fin (100 - 30 * cos (20 * PI / 180));
             Fin (30 * sin (20 * PI / 180));
             Fin (100 - 30 * cos (20 * PI / 180));
             Fin (- (30 * sin (20 * PI / 180)))]
  /\ segmentLength (100, 0)
       (100 - 30 * cos (20 * PI / 180), 30 * sin (20 * PI / 180)) = 30.
Proof.
  intros element.
  assert (Hp : (0, 0) :: Element.points element
               = [(0, 0)] ++ [(0, 0); (100, 0)]) by reflexivity.
  assert (Hne : (0, 0) <> (100, 0)) by (intros E; injection E; lra).
  split; [exact Hp|]. split; [exact Hne|].
  destruct (arrowhead_wings element [(0, 0)] (0, 0) (100, 0) Hp)
    as [H _].
  destruct (H Hne) as (E & L1 & _). clear H.
  assert (Es : Rmin 30 (polylineLength ((0, 0) :: Element.points element)
                        / 2) = 30).
  { cbn [element Element.points polylineLength].
    rewrite segmentLength_same, (segmentLength_horizontal 0 100) by lra.
    unfold Rmin. destruct (Rle_dec 30 ((0 + (100 - 0 + 0)) / 2)); lra. }
  assert (Ed : segmentLength (0, 0) (100, 0) = 100)
    by (rewrite segmentLength_horizontal; lra).
  rewrite Es in E, L1.
  unfold turn, opposite, scaledDirection, degrees in E, L1.
  cbn [fst snd] in E, L1. rewrite Ed in E, L1.
  replace (- 20 * PI / 180) with (- (20 * PI / 180)) in E, L1 by lra.
  rewrite cos_neg, sin_neg in E, L1.
  split.
  - rewrite E. apply f_equal.
    repeat (apply f_equal2; [try reflexivity; apply f_equal; field|]).
    reflexivity.
  - etransitivity; [|exact L1]. f_equal. f_equal; field.
Defined.

(** A diamond of width 2 and height 2: the right vertex [(width, ..)] and
    the bottom vertex [(.., height)] carry no [+ 1], and both are (2, 2), so
    the edge between them has zero length. *)
Lemma diamond_right_is_bottom :
  getDiamondPoints (Element.mk "diamond" 0 0 2 2 "transparent" [])
  = [Fin 2; Fin 0; Fin 2; Fin 2; Fin 2; Fin 2; Fin 0; Fin 2]
  /\ (item (getDiamondPoints
              (Element.mk "diamond" 0 0 2 2 "transparent" [])) 2,
      item (getDiamondPoints
              (Element.mk "diamond" 0 0 2 2 "transparent" [])) 3)
     = (item (getDiamondPoints
                (Element.mk "diamond" 0 0 2 2 "transparent" [])) 4,
        item (getDiamondPoints
                (Element.mk "diamond" 0 0 2 2 "transparent" [])) 5).
Proof.
  assert (E : getDiamondPoints
                (Element.mk "diamond" 0 0 2 2 "transparent" [])
              = [Fin 2; Fin 0; Fin 2; Fin 2; Fin 2; Fin 2; Fin 0; Fin 2]).
  { rewrite getDiamondPoints_eq. cbn [Element.width Element.height].
    rewrite Int_part_one.
    replace (1 + 1) with 2 by lra. reflexivity. }
  rewrite E. split; reflexivity.
Qed.

Lemma getDiamondPoints_vertices_witness :
  0 <= 2 /\ 0 <= 3
  /\ 1 <= IZR (Int_part (2 / 2)) + 1
  /\ 1 <= IZR (Int_part (3 / 2)) + 1.
Proof.
  assert (Hw : 0 <= 2) by lra. assert (Hh : 0 <= 3) by lra.
  split; [exact Hw|]. split; [exact Hh|].
  destruct (getDiamondPoints_vertices
              (Element.mk "diamond" 0 0 2 3 "transparent" []))
    as [_ H].
  destruct (H Hw Hh) as (H1 & H2 & _). split; [exact H1 | exact H2].
Defined.
End GeometryInstances.

Section DoubleInstances.
Import QArith Qpower.
Import Floats Float64 Float64Spec.
Local Open Scope float_scope.

(** A rectangle at x = 0.3 of width 100 and the point (-9.7, 25): the point
    is strictly inside the box grown by 10, by less than the rounding of
    [0.3 - 10], and it is not hit.  A rectangle at x = -15.3 of width 4.3
    and the point (-1.0000000000000002, 25): the point is beyond the right
    side by more than 10, by less than the rounding of [-15.3 + 4.3], and
    it is hit. *)
Lemma hitTest_rounds_the_border :
  let inside :=
    Element.mk "rectangle" 0x1.3333333333333p-2 0 100 50 "#ffffff" [] false in
  let x := (-0x1.3666666666666p+3) in
  let beyond :=
    Element.mk "rectangle" (-0x1.e99999999999ap+3) 0 0x1.1333333333333p+2
      50 "#ffffff" [] false in
  let x' := (-0x1.0000000000001p+0) in
  ((exact (Element.x inside) - 10 < exact x
    /\ exact x < exact (Element.x inside) + exact (Element.width inside) + 10
    /\ exact (Element.y inside) - 10 < exact 25
    /\ exact 25
       < exact (Element.y inside) + exact (Element.height inside) + 10)%Q
   /\ forall hypot floor min cos sin getLinearElementAbsoluteBounds
             hitTestEllipse,
        hitTest hypot floor min cos sin getLinearElementAbsoluteBounds
          hitTestEllipse inside x 25
        = Returns false)
  /\ ((exact (Element.x beyond) + exact (Element.width beyond) + 10
       < exact x')%Q
      /\ forall hypot floor min cos sin getLinearElementAbsoluteBounds
                hitTestEllipse,
           hitTest hypot floor min cos sin getLinearElementAbsoluteBounds
             hitTestEllipse beyond x' 25
           = Returns true).
Proof.
  intros. split.
  - split; [repeat split; vm_compute; reflexivity|].
    intros. vm_compute. reflexivity.
  - split; [vm_compute; reflexivity|].
    intros. vm_compute. reflexivity.
Qed.

Lemma hitTest_filled_rectangle_witness :
  let element := Element.mk "rectangle" 0 0 100 50 "#ffffff" [] false in
  let nothing (_ _ : float) := PrimFloat.nan in
  Element.type element = "rectangle"%string
  /\ Element.backgroundColor element <> "transparent"%string
  /\ (0 <= 0 <= 49)%Z
  /\ Forall (fun n => (Z.abs n <= 2 ^ 50)%Z) [0; 0; 100; 50]%Z
  /\ Element.x element = grid 0 0
  /\ Element.y element = grid 0 0
  /\ Element.width element = grid 0 100
  /\ Element.height element = grid 0 50
  /\ hitTest nothing (fun f => f) nothing (fun f => f) (fun f => f)
       (fun _ => []) (fun _ _ _ => false) element (-9.5) 59.75
     = Returns true
  /\ hitTest nothing (fun f => f) nothing (fun f => f) (fun f => f)
       (fun _ => []) (fun _ _ _ => false) element (-10) 25
     = Returns false.
Proof.
  intros element nothing.
  assert (Ht : Element.type element = "rectangle"%string) by reflexivity.
  assert (Hb : Element.backgroundColor element <> "transparent"%string)
    by discriminate.
  assert (Hk : (0 <= 0 <= 49)%Z) by lia.
  assert (Hall : Forall (fun n => (Z.abs n <= 2 ^ 50)%Z) [0; 0; 100; 50]%Z)
    by (repeat constructor; vm_compute; discriminate).
  do 8 (split; [assumption || reflexivity|]).
  pose proof (hitTest_filled_rectangle nothing (fun f => f)
                nothing (fun f => f) (fun f => f) (fun _ => [])
                (fun _ _ _ => false) element 0 0 0 100 50 Ht Hb Hk Hall
                eq_refl eq_refl eq_refl eq_refl)%Z as H.
  split.
  - destruct (H (-9.5) 59.75) as (hit & E & Hhit).
    rewrite E. f_equal. apply Hhit.
    repeat split; vm_compute; reflexivity.
  - destruct (H (-10) 25) as (hit & E & Hhit).
    rewrite E. f_equal. destruct hit; [|reflexivity].
    destruct (proj1 Hhit eq_refl) as (_ & _ & Hlt & _).
    vm_compute in Hlt. discriminate Hlt.
Defined.
End DoubleInstances.

Section ResizeInstances.
Import Resize ResizeSpec ResizeWeightSpec.
Local Open Scope R_scope.

(** A line through (0, 0), (20, 30) and (10, 5) resized by the handle ["w"]
    with a delta of 6: in the order of x the points are the first, the
    third and the second, and they go left by 6 / 3, 6 / 2 and 6 / 1. *)
Lemma edge_resize_distribution_witness :
  let element :=
    Element.mk "line" 0 0 20 30 "transparent" [(0, 0); (20, 30); (10, 5)] in
  let resized := resize handleW element 6 0 in
  (2 < List.length (Element.points element))%nat
  /\ sortedCopy fst (Element.points element) = [0; 2; 1]%nat
  /\ nth 0 (Element.points resized) (0, 0) = (-2, 0)
  /\ nth 2 (Element.points resized) (0, 0) = (7, 5)
  /\ nth 1 (Element.points resized) (0, 0) = (14, 30).
Proof.
  intros element resized.
  assert (Hlen : (2 < List.length (Element.points element))%nat)
    by (simpl; lia).
  assert (Hs : sortedCopy fst (Element.points element) = [0; 2; 1]%nat).
  { unfold sortedCopy, element.
    cbn [Element.points List.length seq fold_right insertBy].
    unfold keyAt. cbn [nth fst].
    destruct (Rle_dec 20 10); [lra|]. cbn [insertBy].
    unfold keyAt. cbn [nth fst].
    destruct (Rle_dec 0 10); [reflexivity | lra]. }
  destruct (edge_resize_distribution handleW element 6 0 Hlen)
    as (_ & _ & H & _).
  cbv zeta in H. cbn [coordinate] in H. rewrite Hs in H.
  split; [exact Hlen|]. split; [exact Hs|].
  subst resized. split; [|split].
  - rewrite (H 0%nat 0%nat) by (simpl; (lia || reflexivity)).
    unfold weight. cbn [firstVisited Nat.ltb Nat.leb shifted signedDelta
                          Element.points element nth List.length fst snd INR].
    f_equal; field.
  - rewrite (H 1%nat 2%nat) by (simpl; (lia || reflexivity)).
    unfold weight. cbn [firstVisited Nat.ltb Nat.leb shifted signedDelta
                          Element.points element nth List.length fst snd INR].
    f_equal; field.
  - rewrite (H 2%nat 1%nat) by (simpl; (lia || reflexivity)).
    unfold weight. cbn [firstVisited Nat.ltb Nat.leb shifted signedDelta
                          Element.points element nth List.length fst snd INR].
    f_equal; field.
Defined.

End ResizeInstances.

(** * Further properties *)

(** ** More on the restacking operations *)

Section SortMore.
Import ZIndex ZIndexSpec.
Local Open Scope Z_scope.

Lemma insertAsc_weakly_sorted x l :
  StronglySorted Z.le l -> StronglySorted Z.le (insertAsc x l).
Proof.
  induction 1 as [|y l Hl IH Hy]; simpl; [repeat constructor|].
  destruct (Z.leb_spec x y).
  - constructor; [now constructor|].
    constructor; [assumption|].
    eapply Forall_impl; [|exact Hy]. simpl; intros; lia.
  - constructor; [assumption|].
    eapply Permutation_Forall; [symmetry; apply insertAsc_perm|].
    constructor; [lia | assumption].
Qed.

Lemma sortAsc_weakly_sorted l : StronglySorted Z.le (sortAsc l).
Proof.
  induction l as [|x l IH]; [constructor|].
  now apply insertAsc_weakly_sorted.
Qed.

Lemma insertDesc_perm x l : Permutation (insertDesc x l) (x :: l).
Proof.
  induction l as [|y l IH]; simpl; [reflexivity|].
  destruct (Z.leb y x); [reflexivity|].
  rewrite IH. apply perm_swap.
Qed.

Lemma sortDesc_perm l : Permutation (sortDesc l) l.
Proof.
  induction l as [|x l IH]; simpl; [reflexivity|].
  rewrite insertDesc_perm. now constructor.
Qed.

Lemma insertDesc_weakly_sorted x l :
  StronglySorted Z.ge l -> StronglySorted Z.ge (insertDesc x l).
Proof.
  induction 1 as [|y l Hl IH Hy]; simpl; [repeat constructor|].
  destruct (Z.leb_spec y x).
  - constructor; [now constructor|].
    constructor; [lia|].
    eapply Forall_impl; [|exact Hy]. simpl; intros; lia.
  - constructor; [assumption|].
    eapply Permutation_Forall; [symmetry; apply insertDesc_perm|].
    constructor; [lia | assumption].
Qed.

Lemma sortDesc_weakly_sorted l : StronglySorted Z.ge (sortDesc l).
Proof.
  induction l as [|x l IH]; [constructor|].
  now apply insertDesc_weakly_sorted.
Qed.

(** Two sorted lists with the same entries are the same list. *)
Lemma sorted_perm_eq (R : Z -> Z -> Prop) :
  (forall x y, R x y -> R y x -> x = y) ->
  forall l l',
    StronglySorted R l -> StronglySorted R l' -> Permutation l l' -> l = l'.
Proof.
  intros Hanti. induction l as [|x l IH]; intros l' Hl Hl' Hp.
  - now apply Permutation_nil in Hp.
  - destruct l' as [|y l'];
      [symmetry in Hp; now apply Permutation_nil in Hp|].
    inversion Hl as [|? ? Hl1 Hx]; subst.
    inversion Hl' as [|? ? Hl1' Hy]; subst.
    rewrite Forall_forall in Hx, Hy.
    assert (x = y) as ->.
    { assert (Hin : In x (y :: l'))
        by (eapply Permutation_in; [exact Hp | now left]).
      assert (Hin' : In y (x :: l))
        by (eapply Permutation_in; [symmetry; exact Hp | now left]).
      destruct Hin as [->|Hin]; [reflexivity|].
      destruct Hin' as [->|Hin']; [reflexivity|].
      apply Hanti; [now apply Hx | now apply Hy]. }
    f_equal. apply IH; try assumption.
    now apply Permutation_cons_inv in Hp.
Qed.

Lemma sortAsc_of_perm l l' : Permutation l l' -> sortAsc l = sortAsc l'.
Proof.
  intros Hp. apply (sorted_perm_eq Z.le); [intros; lia | | |].
  - apply sortAsc_weakly_sorted.
  - apply sortAsc_weakly_sorted.
  - now rewrite !sortAsc_perm.
Qed.

Lemma sortDesc_of_perm l l' : Permutation l l' -> sortDesc l = sortDesc l'.
Proof.
  intros Hp. apply (sorted_perm_eq Z.ge); [intros; lia | | |].
  - apply sortDesc_weakly_sorted.
  - apply sortDesc_weakly_sorted.
  - now rewrite !sortDesc_perm.
Qed.
End SortMore.

Section MoveOneRightFacts.
Import JsArray ZIndex ZIndexSpec.
Context {T : Type}.
Implicit Types (a : jsarray T).
Local Open Scope Z_scope.

Lemma swap_right_left a i :
  0 <= i < length a - 1 -> swap a (i + 1) i = swap a (i + 1 - 1) (i + 1).
Proof.
  intros Hi.
  destruct (swap_right_spec a i Hi) as (A & x & y & C & Ea & HA & E).
  replace (i + 1 - 1) with i by lia. rewrite E.
  destruct (swap_neighbours A x y C (props a) i) as [E1 _]; [lia|].
  rewrite <- E1. now rewrite <- Ea.
Qed.

Lemma aget_swap_right a i q :
  0 <= i < length a - 1 ->
  aget (swap a (i + 1) i) q
  = if Z.eqb q i then aget a (i + 1)
    else if Z.eqb q (i + 1) then aget a i
    else aget a q.
Proof.
  intros Hi. rewrite swap_right_left by assumption.
  rewrite aget_swap_left by lia.
  replace (i + 1 - 1) with i by lia. reflexivity.
Qed.

Lemma swapsRight_length l : forall a,
  Forall (fun i => 0 <= i < length a - 1) l ->
  length (swapsRight a l) = length a.
Proof.
  induction l as [|i l IH]; intros a H; [reflexivity|].
  inversion_clear H. cbn [swapsRight fold_left].
  fold (swapsRight (swap a (i + 1) i) l).
  rewrite IH; rewrite swap_right_length by assumption; [reflexivity|].
  assumption.
Qed.

Lemma swapsRight_untouched l : forall a q,
  Forall (fun i => 0 <= i < length a - 1) l ->
  (forall i, In i l -> q <> i + 1 /\ q <> i) ->
  aget (swapsRight a l) q = aget a q.
Proof.
  induction l as [|i l IH]; intros a q H Hq; [reflexivity|].
  inversion_clear H. cbn [swapsRight fold_left].
  fold (swapsRight (swap a (i + 1) i) l).
  rewrite IH.
  - rewrite aget_swap_right by assumption.
    destruct (Hq i (or_introl eq_refl)) as [N1 N2].
    destruct (Z.eqb_spec q i); [contradiction|].
    destruct (Z.eqb_spec q (i + 1)); [contradiction | reflexivity].
  - now rewrite swap_right_length by assumption.
  - intros k Hk. apply Hq. now right.
Qed.

(** Each value at an index goes one slot toward the back. *)
Lemma swapsRight_moved l : forall a index,
  StronglySorted Z.gt l ->
  Forall (fun i => 0 <= i < length a - 1) l ->
  In index l ->
  aget (swapsRight a l) (index + 1) = aget a index.
Proof.
  induction l as [|i l IH]; intros a index Hs H Hin; [contradiction|].
  inversion Hs as [|? ? Hs' Hgt]; subst.
  inversion_clear H. cbn [swapsRight fold_left].
  fold (swapsRight (swap a (i + 1) i) l).
  assert (Hl : Forall (fun k => 0 <= k < length (swap a (i + 1) i) - 1) l)
    by (now rewrite swap_right_length by assumption).
  rewrite Forall_forall in Hgt.
  destruct Hin as [->|Hin].
  - rewrite swapsRight_untouched; [| assumption |].
    + rewrite aget_swap_right by assumption.
      destruct (Z.eqb_spec (index + 1) index); [lia|].
      now rewrite Z.eqb_refl.
    + intros k Hk. specialize (Hgt k Hk). lia.
  - rewrite IH by assumption.
    rewrite aget_swap_right by assumption.
    specialize (Hgt index Hin).
    destruct (Z.eqb_spec index i); [lia|].
    destruct (Z.eqb_spec index (i + 1)); [lia | reflexivity].
Qed.

(** The indices counted by [backRun] are the last positions. *)
Lemma backRun_prefix n rest : forall i k index,
  (k < backRun n i rest)%nat ->
  nth_error rest k = Some index ->
  index = n - i - 1 - Z.of_nat k.
Proof.
  induction rest as [|x rest IH]; intros i k index Hk Hn;
    [simpl in Hk; lia|].
  cbn [backRun] in Hk. destruct (Z.eqb_spec x (n - i - 1)); [|lia].
  destruct k as [|k]; simpl in Hn.
  - injection Hn as <-. lia.
  - rewrite (IH (i + 1) k index) by (assumption || lia). lia.
Qed.

(** The other indices lie before them, with room for a swap. *)
Lemma backRun_below n rest : forall i,
  StronglySorted Z.gt rest ->
  Forall (fun x => x <= n - i - 1) rest ->
  Forall (fun x => x <= n - i - Z.of_nat (backRun n i rest) - 2)
    (skipn (backRun n i rest) rest).
Proof.
  induction rest as [|x rest IH]; intros i Hs Hup; [constructor|].
  inversion Hs as [|? ? Hs' Hgt]; subst.
  inversion Hup as [|? ? Hx Hup']; subst.
  cbn [backRun]. destruct (Z.eqb_spec x (n - i - 1)) as [->|Hne].
  - cbn [skipn].
    eapply Forall_impl; [|apply (IH (i + 1) Hs')].
    + simpl; intros; lia.
    + eapply Forall_impl; [|exact Hgt]. simpl; intros; lia.
  - cbn [skipn]. constructor; [simpl; lia|].
    eapply Forall_impl; [|exact Hgt]. simpl; intros; lia.
Qed.

Lemma descending_skipn k l :
  StronglySorted Z.gt l -> StronglySorted Z.gt (skipn k l).
Proof.
  revert k. induction l as [|x l IH]; intros [|k] H; simpl; try assumption.
  inversion H; subst. now apply IH.
Qed.

(** [moveOneRight] on ascending indices of slots, slot by slot; [k] counts
    the indices from the largest one. *)
Lemma moveOneRight_ascending a idx k index :
  ascending idx -> inRange a idx ->
  nth_error (rev idx) k = Some index ->
  aget (moveOneRight a idx)
    (if Nat.ltb k (backRun (length a) 0 (rev idx)) then index else index + 1)
  = aget a index.
Proof.
  intros Hasc Hin Hk. unfold moveOneRight.
  rewrite (sortDesc_ascending idx Hasc), moveOneRight_each_true.
  assert (Hin2 : Forall (fun i => 0 <= i < length a) (rev idx))
    by (eapply Permutation_Forall; [apply Permutation_rev | exact Hin]).
  assert (Hup : Forall (fun x => x <= length a - 0 - 1) (rev idx))
    by (eapply Forall_impl; [|exact Hin2]; simpl; intros; lia).
  pose proof (backRun_below (length a) (rev idx) 0 (ascending_rev _ Hasc) Hup)
    as Hrest.
  assert (Hrange : Forall (fun i => 0 <= i < length a - 1)
                     (skipn (backRun (length a) 0 (rev idx)) (rev idx))).
  { apply (Forall_skipn _ (backRun (length a) 0 (rev idx))) in Hin2.
    rewrite Forall_forall in *. intros i Hi.
    specialize (Hin2 i Hi). specialize (Hrest i Hi). lia. }
  destruct (Nat.ltb_spec k (backRun (length a) 0 (rev idx))) as [Hlt|Hge].
  - apply swapsRight_untouched; [assumption|].
    intros i Hi. rewrite Forall_forall in Hrest. specialize (Hrest i Hi).
    rewrite (backRun_prefix (length a) (rev idx) 0 k index Hlt Hk). lia.
  - apply swapsRight_moved;
      [apply descending_skipn; now apply ascending_rev | assumption |].
    apply (nth_error_In _ (k - backRun (length a) 0 (rev idx))).
    rewrite nth_error_skipn. rewrite <- Hk. f_equal. lia.
Qed.

Lemma swap_right_left_undo a i :
  0 <= i < length a - 1 -> swap (swap a (i + 1) i) (i + 1 - 1) (i + 1) = a.
Proof.
  intros Hi.
  destruct (swap_right_spec a i Hi) as (A & x & y & C & Ea & HA & E).
  rewrite E. replace (i + 1 - 1) with i by lia.
  destruct (swap_neighbours A y x C (props a) i) as [E2 _]; [lia|].
  rewrite E2. now symmetry.
Qed.

(** Swapping back in the reverse order undoes [swapsRight]. *)
Lemma swapsLeft_swapsRight idx : forall a,
  Forall (fun i => 0 <= i < length a - 1) idx ->
  swapsLeft (swapsRight a idx) (rev (map (fun i => i + 1) idx)) = a.
Proof.
  induction idx as [|x idx IH] using rev_ind; intros a H; [reflexivity|].
  rewrite Forall_app in H. destruct H as [H Hx]. inversion_clear Hx.
  unfold swapsRight. rewrite fold_left_app. cbn [fold_left].
  fold (swapsRight a idx).
  rewrite map_app, rev_app_distr. cbn [map rev app].
  unfold swapsLeft. cbn [fold_left].
  fold (swapsLeft
          (swap (swap (swapsRight a idx) (x + 1) x) (x + 1 - 1) (x + 1))
          (rev (map (fun i => i + 1) idx))).
  rewrite swap_right_left_undo by (now rewrite swapsRight_length).
  now apply IH.
Qed.

Lemma ascending_succ idx :
  ascending idx -> ascending (map (fun i => i + 1) idx).
Proof.
  induction 1 as [|x l Hl IH Hx]; simpl; constructor; [assumption|].
  rewrite Forall_map. eapply Forall_impl; [|exact Hx]. simpl; intros; lia.
Qed.
End MoveOneRightFacts.

Section RangeFacts.
Import JsArray ZIndex ZIndexSpec.
Local Open Scope Z_scope.

(** The indices [off], [off + 1], .., [off + k - 1]. *)
Lemma range_ascending k : forall off,
  ascending (map Z.of_nat (seq off k)).
Proof.
  induction k as [|k IH]; intros off; [constructor|].
  cbn [seq map]. constructor; [apply IH|].
  rewrite Forall_map, Forall_forall. intros i Hi.
  apply in_seq in Hi. lia.
Qed.

Lemma range_In k off i :
  In i (map Z.of_nat (seq off k))
  <-> Z.of_nat off <= i < Z.of_nat off + Z.of_nat k.
Proof.
  rewrite in_map_iff. split.
  - intros (j & <- & Hj). apply in_seq in Hj. lia.
  - intros Hi. exists (Z.to_nat i). split; [lia|]. apply in_seq. lia.
Qed.

Lemma ascending_NoDup l : ascending l -> NoDup l.
Proof.
  induction 1 as [|x l Hl IH Hx]; constructor; [|assumption].
  intros Hin. rewrite Forall_forall in Hx. specialize (Hx x Hin). lia.
Qed.

(** Distinct indices that fill a range are, once sorted, that range. *)
Lemma sortAsc_range idx off k :
  NoDup idx ->
  (forall i, In i idx <-> Z.of_nat off <= i < Z.of_nat off + Z.of_nat k) ->
  sortAsc idx = map Z.of_nat (seq off k).
Proof.
  intros Hnd Hin.
  apply (sorted_perm_eq Z.lt); [intros; lia | | |].
  - now apply sortAsc_sorted.
  - apply range_ascending.
  - rewrite sortAsc_perm. apply NoDup_Permutation; [assumption | |].
    + apply ascending_NoDup, range_ascending.
    + intros i. rewrite Hin. symmetry. apply range_In.
Qed.

Lemma frontRun_range k : forall off,
  frontRun (Z.of_nat off) (map Z.of_nat (seq off k)) = k.
Proof.
  induction k as [|k IH]; intros off; [reflexivity|].
  cbn [seq map frontRun]. rewrite Z.eqb_refl. f_equal.
  replace (Z.of_nat off + 1) with (Z.of_nat (S off)) by lia. apply IH.
Qed.

Lemma backRun_range n k : forall off i,
  Z.of_nat off + Z.of_nat k = n - i ->
  backRun n i (rev (map Z.of_nat (seq off k))) = k.
Proof.
  induction k as [|k IH]; intros off i H; [reflexivity|].
  rewrite seq_S, map_app, rev_app_distr. cbn [map rev app backRun].
  replace (Z.of_nat (off + k)) with (n - i - 1) by lia.
  rewrite Z.eqb_refl. f_equal. apply IH. lia.
Qed.

Section Slots.
Context {T : Type}.
Implicit Types (a : jsarray T).

Lemma unselectedFrom_none {A} (l : list A) idx : forall off,
  (forall i, off <= i < off + Z.of_nat (List.length l) -> In i idx) ->
  unselectedFrom off l idx = [].
Proof.
  induction l as [|v l IH]; intros off H; [reflexivity|].
  cbn [unselectedFrom].
  rewrite isSelected_true by (apply H; simpl; lia).
  apply IH. intros i Hi. apply H. simpl List.length. lia.
Qed.

Lemma selected_range a k : forall off,
  (off + k <= List.length (slots a))%nat ->
  selected a (map Z.of_nat (seq off k)) = firstn k (skipn off (slots a)).
Proof.
  unfold selected. induction k as [|k IH]; intros off H; [reflexivity|].
  cbn [seq map]. rewrite IH by lia.
  destruct (skipn off (slots a)) as [|v rest] eqn:E.
  - apply (f_equal (@List.length _)) in E. rewrite length_skipn in E.
    simpl in E. lia.
  - cbn [firstn]. f_equal.
    + unfold aget. destruct (Z.ltb_spec (Z.of_nat off) 0); [lia|].
      rewrite Nat2Z.id.
      rewrite <- (firstn_skipn off (slots a)), E.
      rewrite app_nth2; rewrite length_firstn; [|lia].
      now replace (off - Nat.min off (List.length (slots a)))%nat
        with 0%nat by lia.
    + f_equal.
      change (S off) with (1 + off)%nat. rewrite <- skipn_skipn, E.
      reflexivity.
Qed.

Lemma unselected_range a k off idx :
  (off + k <= List.length (slots a))%nat ->
  (forall i, In i idx <-> Z.of_nat off <= i < Z.of_nat off + Z.of_nat k) ->
  unselected a idx = firstn off (slots a) ++ skipn (off + k) (slots a).
Proof.
  intros H Hin. unfold unselected.
  set (A := firstn off (slots a)).
  set (B := firstn k (skipn off (slots a))).
  set (C := skipn (off + k) (slots a)).
  assert (HA : List.length A = off) by (unfold A; rewrite length_firstn; lia).
  assert (HB : List.length B = k)
    by (unfold B; rewrite length_firstn, length_skipn; lia).
  assert (E : slots a = A ++ B ++ C).
  { unfold A, B, C. rewrite (Nat.add_comm off k), <- skipn_skipn.
    now rewrite !firstn_skipn. }
  rewrite E, !unselectedFrom_app.
  rewrite (unselectedFrom_all 0 A idx)
    by (intros i Hi; apply Hin in Hi; lia).
  rewrite (unselectedFrom_none B idx)
    by (intros i Hi; apply Hin; lia).
  rewrite (unselectedFrom_all _ C idx)
    by (intros i Hi; apply Hin in Hi; lia).
  reflexivity.
Qed.
End Slots.
End RangeFacts.

Section RestackMore.
Import JsArray ZIndex ZIndexSpec.
Local Open Scope Z_scope.

(** X1.  [moveAllRight] is the mirror image of [moveAllLeft]: on
    [[a,b,c,d,e,f,g]] with the selected indices [[2,5]] it returns
    [[a,b,d,e,g,c,f]], the example of its source comment; and for every
    array and every strictly ascending list of indices of slots, the
    unselected values come first, in their order, followed by the selected
    values in the order of their indices.  Nothing else of the array
    changes. *)
Theorem moveAllRight_selected_last :
  (forall (T : Type) (a b c d e f g : T),
      slots (moveAllRight (of_list [a; b; c; d; e; f; g]) [2; 5])
      = map Some [a; b; d; e; g; c; f])
  /\ (forall (T : Type) (elements : jsarray T) (indices : list Z),
        ascending indices ->
        inRange elements indices ->
        moveAllRight elements indices
        = mkArray (unselected elements indices ++ selected elements indices)
            (props elements)).
Proof.
  split; [reflexivity|].
  intros T elements indices Hasc Hin. now apply moveAllRight_ascending.
Qed.

(** X2.  [moveOneRight] moves each selected element one slot toward the
    back, except those that already fill the back of the array: with the
    ascending indices counted from the largest one, the first [backRun] of
    them are the last slots and stay; every other selected element is found
    one slot further. *)
Theorem moveOneRight_one_slot :
  forall (T : Type) (elements : jsarray T) (indices : list Z) k index,
    ascending indices ->
    inRange elements indices ->
    nth_error (rev indices) k = Some index ->
    aget (moveOneRight elements indices)
      (if Nat.ltb k (backRun (length elements) 0 (rev indices))
       then index else index + 1)
    = aget elements index.
Proof.
  intros T elements indices k index Hasc Hin Hk.
  now apply moveOneRight_ascending.
Qed.

(** X3.  When no selected element is in the last slot, [moveOneLeft] at the
    indices plus one undoes [moveOneRight]. *)
Theorem moveOneLeft_undoes_moveOneRight :
  forall (T : Type) (elements : jsarray T) (indices : list Z),
    ascending indices ->
    Forall (fun index => 0 <= index < length elements - 1) indices ->
    moveOneLeft (moveOneRight elements indices)
      (map (fun index => index + 1) indices)
    = elements.
Proof.
  intros T elements indices Hasc Hin.
  rewrite moveOneRight_free;
    [|assumption | eapply Forall_impl; [|exact Hin]; simpl; intros; lia].
  assert (Hrev : Forall (fun i => 0 <= i < length elements - 1)
                   (rev indices))
    by (eapply Permutation_Forall; [apply Permutation_rev | exact Hin]).
  rewrite moveOneLeft_free.
  - rewrite <- (rev_involutive (map _ indices)), <- map_rev.
    now apply swapsLeft_swapsRight.
  - now apply ascending_succ.
  - rewrite Forall_map. eapply Forall_impl; [|exact Hin].
    simpl; intros; lia.
Qed.

(** X4.  The order in which the selected indices are given does not matter:
    two lists with the same indices, each as many times, give the same
    array, for all four operations. *)
Theorem restack_order_irrelevant :
  forall (T : Type) (elements : jsarray T) (indices indices' : list Z),
    Permutation indices indices' ->
    moveOneLeft elements indices = moveOneLeft elements indices'
    /\ moveOneRight elements indices = moveOneRight elements indices'
    /\ moveAllLeft elements indices = moveAllLeft elements indices'
    /\ moveAllRight elements indices = moveAllRight elements indices'.
Proof.
  intros T elements indices indices' Hp.
  unfold moveOneLeft, moveOneRight, moveAllLeft, moveAllRight.
  rewrite (sortAsc_of_perm _ _ Hp), (sortDesc_of_perm _ _ Hp).
  repeat split.
Qed.

(** X5.  Selected elements that already fill the first slots are left where
    they are by [moveOneLeft] and [moveAllLeft], and selected elements that
    fill the last slots by [moveOneRight] and [moveAllRight]: the array is
    returned unchanged.  The empty selection is the case [k = 0]. *)
Theorem restack_already_in_place :
  forall (T : Type) (elements : jsarray T) (indices : list Z) (k : Z),
    NoDup indices ->
    0 <= k <= length elements ->
    ((forall index, In index indices <-> 0 <= index < k) ->
     moveOneLeft elements indices = elements
     /\ moveAllLeft elements indices = elements)
    /\ ((forall index,
            In index indices
            <-> length elements - k <= index < length elements) ->
        moveOneRight elements indices = elements
        /\ moveAllRight elements indices = elements).
Proof.
  intros T elements indices k Hnd Hk.
  unfold length in *. set (n := List.length (slots elements)) in *.
  split; intros Hin.
  - assert (E : sortAsc indices = map Z.of_nat (seq 0 (Z.to_nat k))).
    { apply sortAsc_range; [assumption|]. intros i. rewrite Hin. lia. }
    split.
    + unfold moveOneLeft. rewrite E, moveOneLeft_each_true.
      change 0 with (Z.of_nat 0). rewrite frontRun_range.
      rewrite skipn_all2 by (rewrite length_map, length_seq; lia).
      reflexivity.
    + assert (E' : moveAllLeft elements indices
                   = moveAllLeft elements (sortAsc indices)).
      { unfold moveAllLeft.
        now rewrite (sortAsc_ascending (sortAsc indices))
          by (now apply sortAsc_sorted). }
      rewrite E', E, moveAllLeft_ascending.
      * rewrite (selected_range elements (Z.to_nat k) 0) by (fold n; lia).
        rewrite (unselected_range elements (Z.to_nat k) 0)
          by (fold n; try lia; intros i; rewrite range_In; lia).
        cbn [skipn firstn app Nat.add]. rewrite firstn_skipn.
        symmetry. apply array_eta.
      * apply range_ascending.
      * unfold inRange. rewrite Forall_forall. intros i Hi.
        apply range_In in Hi. unfold length. fold n. lia.
  - assert (E : sortAsc indices
                = map Z.of_nat (seq (n - Z.to_nat k) (Z.to_nat k))).
    { apply sortAsc_range; [assumption|]. intros i. rewrite Hin. lia. }
    assert (Ed : sortDesc indices
                 = rev (map Z.of_nat (seq (n - Z.to_nat k) (Z.to_nat k))))
      by (now rewrite sortDesc_rev, E).
    split.
    + unfold moveOneRight. rewrite Ed, moveOneRight_each_true.
      rewrite backRun_range by (unfold length; fold n; lia).
      rewrite skipn_all2
        by (rewrite length_rev, length_map, length_seq; lia).
      reflexivity.
    + assert (E' : moveAllRight elements indices
                   = moveAllRight elements (sortAsc indices)).
      { unfold moveAllRight.
        rewrite (sortDesc_rev indices Hnd).
        now rewrite (sortDesc_ascending (sortAsc indices))
          by (now apply sortAsc_sorted). }
      rewrite E', E, moveAllRight_ascending.
      * rewrite (selected_range elements (Z.to_nat k) (n - Z.to_nat k))
          by (fold n; lia).
        rewrite (unselected_range elements (Z.to_nat k) (n - Z.to_nat k))
          by (fold n; try lia; intros i; rewrite range_In; lia).
        replace (n - Z.to_nat k + Z.to_nat k)%nat with n by lia.
        rewrite (skipn_all2 (n := n)) by (fold n; lia).
        rewrite (firstn_all2 (n := Z.to_nat k))
          by (rewrite length_skipn; fold n; lia).
        rewrite app_nil_r, firstn_skipn.
        symmetry. apply array_eta.
      * apply range_ascending.
      * unfold inRange. rewrite Forall_forall. intros i Hi.
        apply range_In in Hi. unfold length. fold n. lia.
Qed.
End RestackMore.

Section OrderFacts.
Import JsArray ZIndex ZIndexSpec RestackSpec.
Context {T : Type}.
Implicit Types (a : jsarray T).
Local Open Scope Z_scope.

Lemma ascending_app l1 l2 :
  ascending l1 -> ascending l2 ->
  (forall x y, In x l1 -> In y l2 -> x < y) ->
  ascending (l1 ++ l2).
Proof.
  induction 1 as [|x l1 Hl1 IH Hx]; intros H2 H; [assumption|].
  cbn [app]. constructor.
  - apply IH; [assumption|]. intros u v Hu Hv. apply H; [now right | assumption].
  - apply Forall_app. split; [assumption|].
    rewrite Forall_forall. intros y Hy. apply H; [now left | assumption].
Qed.

(** Only the selection within the positions of [l] matters. *)
Lemma unselectedFrom_same {A} (l : list A) idx idx' : forall off,
  (forall q, off <= q < off + Z.of_nat (List.length l) ->
             (In q idx <-> In q idx')) ->
  unselectedFrom off l idx = unselectedFrom off l idx'.
Proof.
  induction l as [|v l IH]; intros off H; [reflexivity|].
  cbn [unselectedFrom].
  assert (E : isSelected idx off = isSelected idx' off).
  { unfold isSelected.
    destruct (existsb (Z.eqb off) idx) eqn:E1;
      destruct (existsb (Z.eqb off) idx') eqn:E2; try reflexivity.
    - apply existsb_exists in E1. destruct E1 as (q & Hq & Heq).
      apply Z.eqb_eq in Heq. subst q.
      apply H in Hq; [|cbn [List.length]; lia].
      assert (existsb (Z.eqb off) idx' = true)
        by (apply existsb_exists; exists off; split;
            [assumption | apply Z.eqb_refl]).
      congruence.
    - apply existsb_exists in E2. destruct E2 as (q & Hq & Heq).
      apply Z.eqb_eq in Heq. subst q.
      apply H in Hq; [|cbn [List.length]; lia].
      assert (existsb (Z.eqb off) idx = true)
        by (apply existsb_exists; exists off; split;
            [assumption | apply Z.eqb_refl]).
      congruence. }
  rewrite E, (IH (off + 1)); [reflexivity|].
  intros q Hq. apply H. cbn [List.length]. lia.
Qed.

(** A swap of a selected value with the unselected one before it keeps the
    unselected values in their order. *)
Lemma swapsLeft_unselected l : forall a P,
  ascending l ->
  Forall (fun i => 1 <= i < length a) l ->
  (forall p i, In p P -> In i l -> p < i - 1) ->
  unselected (swapsLeft a l) (P ++ map (fun i => i - 1) l)
  = unselected a (P ++ l).
Proof.
  induction l as [|i l IH]; intros a P Hasc Hrange HP; [reflexivity|].
  inversion Hasc as [|? ? Hasc' Hlt]; subst.
  inversion Hrange as [|? ? Hi Hrange']; subst.
  rewrite Forall_forall in Hlt.
  cbn [swapsLeft fold_left map].
  fold (swapsLeft (swap a (i - 1) i) l).
  replace (P ++ i - 1 :: map (fun i => i - 1) l)
    with ((P ++ [i - 1]) ++ map (fun i => i - 1) l)
    by (now rewrite <- app_assoc).
  rewrite IH; [|assumption | now rewrite swap_left_length by assumption |].
  2:{ intros p j Hp Hj. specialize (Hlt j Hj).
      apply in_app_or in Hp. destruct Hp as [Hp|[<-|[]]]; [|lia].
      specialize (HP p i Hp (or_introl eq_refl)). lia. }
  destruct (swap_left_spec a i Hi) as (A & x & y & C & Ea & HA & ->).
  rewrite Ea at 2. unfold unselected. cbn [slots].
  rewrite !unselectedFrom_app. cbn [unselectedFrom].
  replace (0 + Z.of_nat (List.length A)) with (i - 1) by lia.
  replace (i - 1 + 1) with i by lia.
  assert (HnotP : forall q, i - 1 <= q -> ~ In q P).
  { intros q Hq Hin. specialize (HP q i Hin (or_introl eq_refl)). lia. }
  assert (Hnotl : forall q, q <= i -> ~ In q l).
  { intros q Hq Hin. specialize (Hlt q Hin). lia. }
  rewrite (isSelected_true ((P ++ [i - 1]) ++ l) (i - 1))
    by (apply in_or_app; left; apply in_or_app; right; now left).
  rewrite (isSelected_false ((P ++ [i - 1]) ++ l) i).
  2:{ intros Hin. apply in_app_or in Hin. destruct Hin as [Hin|Hin].
      - apply in_app_or in Hin. destruct Hin as [Hin|[Hin|[]]]; [|lia].
        now apply (HnotP i ltac:(lia)).
      - now apply (Hnotl i ltac:(lia)). }
  rewrite (isSelected_false (P ++ i :: l) (i - 1)).
  2:{ intros Hin. apply in_app_or in Hin.
      destruct Hin as [Hin|[Hin|Hin]]; [|lia|].
      - now apply (HnotP (i - 1) ltac:(lia)).
      - now apply (Hnotl (i - 1) ltac:(lia)). }
  rewrite (isSelected_true (P ++ i :: l) i)
    by (apply in_or_app; right; now left).
  assert (Hsame : forall q, q <> i - 1 -> q <> i ->
                    (In q ((P ++ [i - 1]) ++ l) <-> In q (P ++ i :: l))).
  { intros q N1 N2. rewrite !in_app_iff. cbn [In]. intuition lia. }
  f_equal; [|f_equal]; apply unselectedFrom_same; intros q Hq;
    apply Hsame; lia.
Qed.
End OrderFacts.

Section OrderMore.
Import JsArray ZIndex ZIndexSpec RestackSpec.
Local Open Scope Z_scope.

(** X30.  [moveOneLeft] keeps the order of the selected elements among
    themselves, and the order of the others among themselves: with the
    selected elements looked up at their new indices, which are the old ones
    for the front run and one less for the others, the selected values and
    the unselected values are the same lists as before. *)
Theorem moveOneLeft_keeps_orders :
  forall (T : Type) (elements : jsarray T) (indices : list Z),
    ascending indices ->
    inRange elements indices ->
    ascending (movedLeft indices)
    /\ selected (moveOneLeft elements indices) (movedLeft indices)
       = selected elements indices
    /\ unselected (moveOneLeft elements indices) (movedLeft indices)
       = unselected elements indices.
Proof.
  intros T elements indices Hasc Hin.
  assert (Hlow : Forall (fun x => 0 <= x) indices)
    by (eapply Forall_impl; [|exact Hin]; simpl; intros; lia).
  pose proof (frontRun_rest indices 0 Hasc Hlow) as Hrest.
  set (run := frontRun 0 indices) in *.
  set (P := firstn run indices). set (l := skipn run indices) in *.
  assert (Eidx : indices = P ++ l) by (symmetry; apply firstn_skipn).
  assert (HascP : ascending P /\ ascending l).
  { rewrite Eidx in Hasc. apply ascending_app_inv in Hasc. tauto. }
  assert (HP : forall p, In p P -> 0 <= p < Z.of_nat run).
  { intros p Hp. apply In_nth_error in Hp. destruct Hp as [k Hk].
    assert (Hk' : (k < run)%nat).
    { assert (k < List.length P)%nat by (apply nth_error_Some; congruence).
      unfold P in H. rewrite length_firstn in H. lia. }
    unfold P in Hk. rewrite nth_error_firstn in Hk.
    destruct (Nat.ltb_spec k run); [|lia].
    pose proof (frontRun_prefix indices 0 k p Hk' Hk). lia. }
  assert (Hl : Forall (fun i => 1 <= i < length elements) l).
  { apply (Forall_skipn _ run) in Hin. fold l in Hin.
    rewrite Forall_forall in *. intros i Hi.
    specialize (Hin i Hi). specialize (Hrest i Hi). lia. }
  assert (HPl : forall p i, In p P -> In i l -> p < i - 1).
  { intros p i Hp Hi. specialize (HP p Hp).
    rewrite Forall_forall in Hrest. specialize (Hrest i Hi). lia. }
  assert (Emove : moveOneLeft elements indices = swapsLeft elements l).
  { unfold moveOneLeft.
    now rewrite (sortAsc_ascending indices Hasc), moveOneLeft_each_true. }
  unfold movedLeft. fold run P l. rewrite Emove.
  split; [|split].
  - apply ascending_app; [tauto | apply ascending_pred; tauto |].
    intros p j Hp Hj. apply in_map_iff in Hj. destruct Hj as (i & <- & Hi).
    specialize (HPl p i Hp Hi). lia.
  - rewrite Eidx. unfold selected. rewrite !map_app, map_map. f_equal.
    + apply map_ext_in. intros p Hp.
      apply swapsLeft_untouched; [assumption|].
      intros i Hi. specialize (HPl p i Hp Hi). lia.
    + apply map_ext_in. intros i Hi.
      apply swapsLeft_moved; [tauto | assumption | assumption].
  - replace (unselected elements indices) with (unselected elements (P ++ l))
      by (now rewrite <- Eidx).
    apply swapsLeft_unselected; [tauto | assumption|]. exact HPl.
Qed.
End OrderMore.

(** ** More on undo and redo *)

Section HistoryMoreFacts.
Import Json History HistorySpec.

Lemma history_eta h :
  h = mkHistory (recording h) (stateHistory h) (redoStack h).
Proof. now destruct h. Qed.

Lemma snoc_cases (stack : list string) :
  stack = [] \/ exists older e, stack = older ++ [e].
Proof.
  destruct stack as [|x stack] using rev_ind; [now left|].
  right. now exists stack, x.
Qed.

Lemma top_dec (stack : list string) e :
  {top stack = Some e} + {top stack <> Some e}.
Proof.
  destruct (top stack) as [t|]; [|right; discriminate].
  destruct (string_dec t e) as [->|N]; [now left|].
  right. intros E. injection E as E. contradiction.
Qed.

Lemma undoOnce_empty r redo :
  undoOnce (mkHistory r [] redo) = (JNull, mkHistory r [] redo).
Proof. reflexivity. Qed.

Lemma restoreEntry_undefined : restoreEntry None = JNull.
Proof. reflexivity. Qed.

Lemma noRepeat_prefix l1 : forall l2, noRepeat (l1 ++ l2) -> noRepeat l1.
Proof.
  induction l1 as [|a l1 IH]; intros l2 H; [exact I|].
  destruct l1 as [|b l1]; [exact I|].
  cbn [app noRepeat] in *. destruct H as [Hab H]. split; [assumption|].
  now apply (IH l2).
Qed.

Lemma noRepeat_snoc l e :
  noRepeat l -> top l <> Some e -> noRepeat (l ++ [e]).
Proof.
  induction l as [|a l IH]; intros H Ht; [exact I|].
  destruct l as [|b l].
  - cbn. split; [|exact I]. intros ->. now apply Ht.
  - cbn [app noRepeat] in *. destruct H as [Hab H]. split; [assumption|].
    apply IH; [assumption|].
    intros E. apply Ht. unfold top in *. cbn [List.length] in *.
    replace (S (S (List.length l)) - 1) with (S (S (List.length l) - 1))
      by lia.
    exact E.
Qed.

Lemma undoOnce_timeline h : timeline (snd (undoOnce h)) = timeline h.
Proof.
  rewrite (history_eta h).
  destruct (snoc_cases (stateHistory h)) as [->|(older & e & ->)].
  - reflexivity.
  - rewrite undoOnce_snoc. unfold timeline. cbn [snd stateHistory redoStack].
    rewrite rev_app_distr. cbn [rev app]. now rewrite <- app_assoc.
Qed.

Lemma redoOnce_timeline h : timeline (snd (redoOnce h)) = timeline h.
Proof.
  rewrite (history_eta h).
  destruct (snoc_cases (redoStack h)) as [->|(older & e & ->)].
  - reflexivity.
  - rewrite redoOnce_snoc. unfold timeline. cbn [snd stateHistory redoStack].
    rewrite rev_app_distr. cbn [rev app]. now rewrite <- app_assoc.
Qed.

Lemma undoTimes_stack k : forall r undo redo,
  k <= List.length undo ->
  undoTimes k (mkHistory r undo redo)
  = mkHistory r (firstn (List.length undo - k) undo)
      (redo ++ rev (skipn (List.length undo - k) undo)).
Proof.
  unfold undoTimes.
  induction k as [|k IH]; intros r undo redo Hk.
  - cbn [Nat.iter]. rewrite Nat.sub_0_r, firstn_all, skipn_all.
    cbn [rev]. now rewrite app_nil_r.
  - rewrite Nat.iter_succ_r.
    destruct (snoc_cases undo) as [->|(older & e & ->)];
      [simpl in Hk; lia|].
    rewrite undoOnce_snoc. cbn [snd].
    rewrite length_app in *. cbn [List.length] in *.
    rewrite IH by lia.
    replace (List.length older + 1 - S k) with (List.length older - k)
      by lia.
    f_equal.
    + rewrite firstn_app.
      replace (List.length older - k - List.length older) with 0 by lia.
      cbn [firstn]. now rewrite app_nil_r.
    + rewrite skipn_app.
      replace (List.length older - k - List.length older) with 0 by lia.
      cbn [skipn]. rewrite rev_app_distr. cbn [rev app].
      now rewrite <- app_assoc.
Qed.

Lemma redoTimes_undoTimes k : forall h,
  k <= List.length (stateHistory h) ->
  redoTimes k (undoTimes k h) = h.
Proof.
  unfold redoTimes, undoTimes.
  induction k as [|k IH]; intros h Hk; [reflexivity|].
  rewrite (Nat.iter_succ_r k _ (fun h => snd (undoOnce h))).
  change (Nat.iter (S k) ?f ?x) with (f (Nat.iter k f x)).
  destruct h as [r undo redo]. cbn [stateHistory] in Hk.
  destruct (snoc_cases undo) as [->|(older & e & ->)];
    [simpl in Hk; lia|].
  rewrite undoOnce_snoc. cbn [snd].
  rewrite IH by (cbn [stateHistory]; rewrite length_app in Hk;
                 cbn [List.length] in Hk; lia).
  now rewrite redoOnce_snoc.
Qed.
End HistoryMoreFacts.

Section HistoryMore.
Import Json History HistorySpec.

(** X6.  Undo followed by redo, and redo followed by undo, give back the
    history they started from: after an undo, [redoOnce] restores the entry
    that was on top and the two stacks; after a redo, [undoOnce] restores
    the entry that was on top before and the two stacks. *)
Theorem undo_redo_round_trip :
  forall h : SceneHistory,
    (stateHistory h <> [] ->
     redoOnce (snd (undoOnce h)) = (restoreEntry (top (stateHistory h)), h))
    /\ (redoStack h <> [] ->
        undoOnce (snd (redoOnce h))
        = (restoreEntry (top (stateHistory h)), h)).
Proof.
  intros h. rewrite (history_eta h). cbn [stateHistory redoStack].
  split; intros Hne.
  - destruct (snoc_cases (stateHistory h)) as [E|(older & e & E)];
      [contradiction|].
    rewrite E, undoOnce_snoc. cbn [snd].
    now rewrite redoOnce_snoc, top_snoc.
  - destruct (snoc_cases (redoStack h)) as [E|(older & e & E)];
      [contradiction|].
    rewrite E, redoOnce_snoc. cbn [snd].
    now rewrite undoOnce_snoc.
Qed.

(** X7.  [undoOnce] and [redoOnce] only move entries between the two
    stacks: the undo stack followed by the redo stack read from its top down
    is the same list before and after, and the recording flag is
    untouched. *)
Theorem undo_redo_keep_entries :
  forall h : SceneHistory,
    timeline (snd (undoOnce h)) = timeline h
    /\ timeline (snd (redoOnce h)) = timeline h
    /\ recording (snd (undoOnce h)) = recording h
    /\ recording (snd (redoOnce h)) = recording h.
Proof.
  intros h. split; [apply undoOnce_timeline|].
  split; [apply redoOnce_timeline|].
  rewrite (history_eta h). split.
  - destruct (snoc_cases (stateHistory h)) as [->|(older & e & ->)];
      [reflexivity | now rewrite undoOnce_snoc].
  - destruct (snoc_cases (redoStack h)) as [->|(older & e & ->)];
      [reflexivity | now rewrite redoOnce_snoc].
Qed.

(** X8.  [undoOnce] leaves the history as it is exactly when the undo stack
    is empty, and it then returns [null]; the same holds of [redoOnce] and
    the redo stack. *)
Theorem undo_redo_nothing_iff_empty :
  forall h : SceneHistory,
    (snd (undoOnce h) = h <-> stateHistory h = [])
    /\ (stateHistory h = [] -> fst (undoOnce h) = JNull)
    /\ (snd (redoOnce h) = h <-> redoStack h = [])
    /\ (redoStack h = [] -> fst (redoOnce h) = JNull).
Proof.
  intros h. rewrite (history_eta h). cbn [stateHistory redoStack].
  split; [|split; [|split]].
  - destruct (snoc_cases (stateHistory h)) as [->|(older & e & ->)];
      [split; reflexivity|].
    rewrite undoOnce_snoc. cbn [snd]. split.
    + intros E. apply (f_equal stateHistory) in E. cbn in E.
      apply (f_equal (@List.length _)) in E. rewrite length_app in E.
      simpl in E. lia.
    + intros E. now destruct older.
  - now intros ->.
  - destruct (snoc_cases (redoStack h)) as [->|(older & e & ->)];
      [split; reflexivity|].
    rewrite redoOnce_snoc. cbn [snd]. split.
    + intros E. apply (f_equal redoStack) in E. cbn in E.
      apply (f_equal (@List.length _)) in E. rewrite length_app in E.
      simpl in E. lia.
    + intros E. now destruct older.
  - now intros ->.
Qed.

(** X9.  Undoing the only entry of the undo stack returns [null], since
    there is no earlier entry to parse, and yet moves the entry to the redo
    stack, so that the undo stack is empty afterwards; [redoOnce] then
    brings the entry back. *)
Theorem undo_only_entry :
  forall (r : bool) (e : string) (redo : list string),
    undoOnce (mkHistory r [e] redo) = (JNull, mkHistory r [] (redo ++ [e]))
    /\ redoOnce (mkHistory r [] (redo ++ [e]))
       = (restoreEntry (Some e), mkHistory r [e] redo).
Proof.
  intros r e redo. split.
  - change [e] with ([] ++ [e]). rewrite undoOnce_snoc. reflexivity.
  - now rewrite redoOnce_snoc.
Qed.

(** X10.  Any number of undos that the undo stack has entries for, followed
    by as many redos, gives back the history; after [k] undos the undo stack
    has lost its [k] last entries. *)
Theorem undo_redo_many :
  forall (h : SceneHistory) (k : nat),
    k <= List.length (stateHistory h) ->
    redoTimes k (undoTimes k h) = h
    /\ stateHistory (undoTimes k h)
       = firstn (List.length (stateHistory h) - k) (stateHistory h).
Proof.
  intros h k Hk. split; [now apply redoTimes_undoTimes|].
  rewrite (history_eta h) at 1. now rewrite undoTimes_stack.
Qed.

(** X11.  In every history reached from a new one by the methods of
    [SceneHistory], no entry is followed by an equal one, on the undo stack
    and across both stacks: an undo or a redo never restores the entry that
    it leaves. *)
Theorem reachable_no_repeat :
  forall h : SceneHistory, reachable h -> noRepeat (timeline h).
Proof.
  induction 1 as [|h e _ IH|h _ IH|h _ IH|h _ IH|h _ IH|h _ IH].
  - exact I.
  - destruct (top_dec (stateHistory h) e)
      as [E|N].
    + now rewrite pushEntry_same.
    + rewrite pushEntry_new by assumption. unfold timeline.
      cbn [stateHistory redoStack rev]. rewrite app_nil_r.
      apply noRepeat_snoc; [|assumption].
      now apply (noRepeat_prefix _ (rev (redoStack h))).
  - now rewrite undoOnce_timeline.
  - now rewrite redoOnce_timeline.
  - unfold timeline. cbn [clearRedoStack stateHistory redoStack rev].
    rewrite app_nil_r. now apply (noRepeat_prefix _ (rev (redoStack h))).
  - exact IH.
  - exact IH.
Qed.

(** X12.  After [pushEntry] the entry is on top of the undo stack, and
    pushing it once more changes nothing.  When it differs from the entry
    that was on top, an undo right after the push restores that entry and
    the undo stack, while the redo stack then holds the pushed entry
    alone. *)
Theorem pushEntry_on_top :
  forall (h : SceneHistory) (e : string),
    top (stateHistory (pushEntry h e)) = Some e
    /\ pushEntry (pushEntry h e) e = pushEntry h e
    /\ (top (stateHistory h) <> Some e ->
        undoOnce (pushEntry h e)
        = (restoreEntry (top (stateHistory h)),
           mkHistory (recording h) (stateHistory h) [e])).
Proof.
  intros h e.
  assert (Htop : top (stateHistory (pushEntry h e)) = Some e).
  { destruct (top_dec (stateHistory h) e)
      as [E|N].
    - now rewrite pushEntry_same.
    - rewrite pushEntry_new by assumption. apply top_snoc. }
  split; [exact Htop|]. split; [now apply pushEntry_same|].
  intros N. rewrite pushEntry_new by assumption.
  now rewrite undoOnce_snoc.
Qed.
End HistoryMore.

(** ** Distances and the hit test of outlines *)

Section SegmentFacts.
Import Number Geometry GeometrySpec SegmentSpec.
Local Open Scope R_scope.

Lemma segmentLength_pointAt x y x1 y1 x2 y2 t :
  segmentLength (x, y) (pointAt (x1, y1) (x2, y2) t)
  = sqrt ((x - (x1 + t * (x2 - x1))) * (x - (x1 + t * (x2 - x1)))
          + (y - (y1 + t * (y2 - y1))) * (y - (y1 + t * (y2 - y1)))).
Proof.
  unfold segmentLength, pointAt. cbn [fst snd]. f_equal. ring.
Qed.

(** [distanceBetweenPointAndSegment] measures the distance to a point of
    the segment, and no point of the segment is closer. *)
Lemma distance_closest x y x1 y1 x2 y2 :
  exists t,
    0 <= t <= 1
    /\ distanceBetweenPointAndSegment (Fin x) (Fin y) (Fin x1) (Fin y1)
         (Fin x2) (Fin y2)
       = Fin (segmentLength (x, y) (pointAt (x1, y1) (x2, y2) t))
    /\ forall s, 0 <= s <= 1 ->
         segmentLength (x, y) (pointAt (x1, y1) (x2, y2) t)
         <= segmentLength (x, y) (pointAt (x1, y1) (x2, y2) s).
Proof.
  unfold distanceBetweenPointAndSegment.
  cbn [nadd nsub nmul lift2].
  set (C := x2 - x1). set (D := y2 - y1).
  set (A := x - x1). set (B := y - y1).
  set (lenSquare := C * C + D * D).
  set (dot := A * C + B * D).
  assert (Hlen : 0 <= lenSquare) by (unfold lenSquare; nra).
  assert (Hsq : forall t s,
             (A * A + B * B - 2 * t * dot + t * t * lenSquare
              <= A * A + B * B - 2 * s * dot + s * s * lenSquare) ->
             segmentLength (x, y) (pointAt (x1, y1) (x2, y2) t)
             <= segmentLength (x, y) (pointAt (x1, y1) (x2, y2) s)).
  { intros t s H. rewrite !segmentLength_pointAt. apply sqrt_le_1_alt.
    unfold dot, lenSquare, A, B, C, D in H. nra. }
  cbn [nneq]. destruct (Req_dec_T lenSquare 0) as [E|N].
  - (* a segment of length 0 *)
    cbn [nlt]. destruct (Rlt_dec (-1) 0) as [_|]; [|lra].
    exists 0. split; [lra|]. split.
    + cbn [nsub hypot lift2]. rewrite segmentLength_pointAt.
      f_equal. f_equal. ring.
    + intros s Hs. apply Hsq.
      assert (HC : C = 0) by (unfold lenSquare in E; nra).
      assert (HD : D = 0) by (unfold lenSquare in E; nra).
      unfold dot. rewrite E, HC, HD. lra.
  - rewrite ndiv_Fin by assumption.
    set (param := dot / lenSquare).
    assert (Hdot : dot = param * lenSquare)
      by (unfold param; field; assumption).
    assert (Hpos : 0 < lenSquare) by lra.
    clearbody param.
    cbn [nlt ngt].
    destruct (Rlt_dec param 0) as [Hneg|Hnneg].
    + exists 0. split; [lra|]. split.
      * cbn [nsub hypot lift2]. rewrite segmentLength_pointAt.
        f_equal. f_equal. ring.
      * intros s Hs. apply Hsq. rewrite Hdot.
        assert (0 <= s * lenSquare * (s - 2 * param))
          by (apply Rmult_le_pos; [apply Rmult_le_pos|]; lra).
        lra.
    + destruct (Rlt_dec 1 param) as [Hbig|Hsmall].
      * exists 1. split; [lra|]. split.
        -- cbn [nsub hypot lift2]. rewrite segmentLength_pointAt.
           f_equal. f_equal. unfold C, D. ring.
        -- intros s Hs. apply Hsq. rewrite Hdot.
           assert (0 <= (1 - s) * lenSquare * (2 * param - 1 - s))
             by (apply Rmult_le_pos; [apply Rmult_le_pos|]; lra).
           lra.
      * exists param. split; [lra|]. split.
        -- cbn [nadd nmul nsub hypot lift2]. rewrite segmentLength_pointAt.
           reflexivity.
        -- intros s Hs. apply Hsq. rewrite Hdot.
           assert (0 <= lenSquare * ((s - param) * (s - param)))
             by (apply Rmult_le_pos; [lra | apply Rle_0_sqr]).
           lra.
Qed.

End SegmentFacts.

Section ArrowPointsFacts.
Import Number Geometry.

(** [getArrowPoints] returns as soon as the arrow has a point. *)
Lemma getArrowPoints_some element :
  Element.points element <> [] ->
  exists pts, getArrowPoints element = Some pts.
Proof.
  intros Hp. unfold getArrowPoints.
  destruct (if Nat.leb 2 (List.length (Element.points element))
            then nth (List.length (Element.points element) - 2)
                   (Element.points element) (0%R, 0%R)
            else (0%R, 0%R)) as [x1 y1].
  destruct (nth_error (Element.points element)
              (List.length (Element.points element) - 1))
    as [[x2 y2]|] eqn:En.
  - eexists; reflexivity.
  - apply nth_error_None in En.
    destruct (Element.points element); [contradiction | simpl in En; lia].
Qed.
End ArrowPointsFacts.

Section HitTestMore.
Import Number Geometry GeometrySpec SegmentSpec.
Local Open Scope R_scope.

(** X13.  [distanceBetweenPointAndSegment] returns the distance from the
    point to the segment: the value is the distance to some point of the
    segment, and no point of the segment is closer.  A segment whose ends
    coincide is that one point. *)
Theorem distance_to_segment :
  forall x y x1 y1 x2 y2 : R,
    exists d,
      distanceBetweenPointAndSegment (Fin x) (Fin y) (Fin x1) (Fin y1)
        (Fin x2) (Fin y2) = Fin d
      /\ (exists q,
             onSegment (x1, y1) (x2, y2) q /\ d = segmentLength (x, y) q)
      /\ (forall q,
             onSegment (x1, y1) (x2, y2) q -> d <= segmentLength (x, y) q).
Proof.
  intros x y x1 y1 x2 y2.
  destruct (distance_closest x y x1 y1 x2 y2) as (t & Ht & E & Hmin).
  eexists. split; [exact E|]. split.
  - exists (pointAt (x1, y1) (x2, y2) t). split; [now exists t | reflexivity].
  - intros q (s & Hs & ->). now apply Hmin.
Qed.

(** X16.  [hitTest] throws for an arrow that has no point, and for every
    element whose type is none of the six it knows, ["line"] among them;
    for all other elements it returns a boolean, and for a selection
    always false. *)
Theorem hitTest_throws :
  forall (getLinearElementAbsoluteBounds : Element.t -> list num)
         (hitTestEllipse : Element.t -> R -> R -> bool)
         (element : Element.t) (x y : R),
    let known := ["ellipse"; "rectangle"; "diamond"; "arrow"; "text";
                  "selection"]%string in
    (~ In (Element.type element) known ->
     hitTest getLinearElementAbsoluteBounds hitTestEllipse element x y
     = Throws ("Unimplemented type " ++ Element.type element))
    /\ (Element.type element = "arrow"%string ->
        Element.points element = [] ->
        hitTest getLinearElementAbsoluteBounds hitTestEllipse element x y
        = Throws "TypeError")
    /\ (In (Element.type element) known ->
        (Element.type element = "arrow"%string ->
         Element.points element <> []) ->
        exists hit,
          hitTest getLinearElementAbsoluteBounds hitTestEllipse element x y
          = Returns hit)
    /\ (Element.type element = "selection"%string ->
        hitTest getLinearElementAbsoluteBounds hitTestEllipse element x y
        = Returns false).
Proof.
  intros lin ell element x y known. unfold hitTest.
  split; [|split; [|split]].
  - intros Hn. unfold known in Hn. cbn [In] in Hn.
    repeat match goal with
           | |- context [String.eqb (Element.type element) ?s] =>
               destruct (String.eqb_spec (Element.type element) s) as [E|?];
               [exfalso; apply Hn; rewrite E; tauto|]
           end.
    reflexivity.
  - intros Ht Hp. rewrite Ht. cbn [String.eqb Ascii.eqb Bool.eqb].
    unfold getArrowPoints. rewrite Hp. reflexivity.
  - intros Hk Hp.
    repeat match goal with
           | |- context [String.eqb (Element.type element) ?s] =>
               destruct (String.eqb_spec (Element.type element) s) as [E|?];
               [try (eexists; reflexivity)|]
           end.
    + destruct (Element.backgroundColor element =? "transparent")%string;
        eexists; reflexivity.
    + destruct (Element.backgroundColor element =? "transparent")%string.
      * eexists; reflexivity.
      * cbn [negb].
        destruct (ngt _ _), (nlt _ _); eexists; reflexivity.
    + destruct (getArrowPoints_some element (Hp E)) as [pts ->].
      eexists; reflexivity.
    + unfold known in Hk. cbn [In] in Hk.
      exfalso. intuition congruence.
  - intros Ht. rewrite Ht. reflexivity.
Qed.

End HitTestMore.

(** ** More on the hit test of an arrow, and [rotate] *)

Section ArrowHitMoreFacts.
Import Number Geometry GeometrySpec SegmentSpec.
Local Open Scope R_scope.
Variable getLinearElementAbsoluteBounds : Element.t -> list num.
Variable hitTestEllipse : Element.t -> R -> R -> bool.

(** An arrow whose last segment has no direction: the wings are not
    numbers. *)
Lemma getArrowPoints_no_direction element :
  (exists before p, Element.points element = before ++ [p; p])
  \/ Element.points element = [(0, 0)] ->
  exists tx ty,
    getArrowPoints element = Some [Fin tx; Fin ty; NaN; NaN; NaN; NaN].
Proof.
  assert (Hz : forall a b : R, sqrt ((a - a) * (a - a) + (b - b) * (b - b)) = 0).
  { intros a b. replace ((a - a) * (a - a) + (b - b) * (b - b)) with 0 by ring.
    apply sqrt_0. }
  intros [(before & [px py] & Hp)|Hp]; unfold getArrowPoints;
    rewrite arrowLength_polyline, Hp.
  - rewrite length_app. cbn [List.length].
    replace (List.length before + 2 - 2)%nat with (List.length before)
      by lia.
    replace (List.length before + 2 - 1)%nat with (S (List.length before))
      by lia.
    replace (Nat.leb 2 (List.length before + 2)) with true
      by (symmetry; apply Nat.leb_le; lia).
    rewrite nth_middle.
    assert (E : nth_error (before ++ [(px, py); (px, py)])
                  (S (List.length before)) = Some (px, py)).
    { replace (before ++ [(px, py); (px, py)])
        with ((before ++ [(px, py)]) ++ [(px, py)])
        by (now rewrite <- app_assoc).
      rewrite nth_error_app2 by (rewrite length_app; simpl; lia).
      rewrite length_app. cbn [List.length].
      now replace (S (List.length before) - (List.length before + 1))%nat
        with O by lia. }
    rewrite E. cbn [nsub hypot lift2]. rewrite Hz.
    exists px, py. cbn [ndiv].
    destruct (Req_dec_T 0 0) as [_|N]; [reflexivity | contradiction].
  - cbn [List.length Nat.leb Nat.sub nth_error].
    cbn [nsub hypot lift2]. rewrite Hz.
    exists 0, 0. cbn [ndiv].
    destruct (Req_dec_T 0 0) as [_|N]; [reflexivity | contradiction].
Qed.
End ArrowHitMoreFacts.

Section ArrowHitMore.
Import Number Geometry GeometrySpec SegmentSpec.
Local Open Scope R_scope.

(** X20.  An arrow whose last two points coincide, or whose only point is
    its origin, is hit nowhere: the direction of its head is [0 / 0]. *)
Theorem arrow_without_direction_not_hit :
  forall (getLinearElementAbsoluteBounds : Element.t -> list num)
         (hitTestEllipse : Element.t -> R -> R -> bool)
         (element : Element.t) (x y : R),
    Element.type element = "arrow"%string ->
    (exists before p, Element.points element = before ++ [p; p])
    \/ Element.points element = [(0, 0)] ->
    hitTest getLinearElementAbsoluteBounds hitTestEllipse element x y
    = Returns false.
Proof.
  intros lin ell element x y Ht Hp.
  destruct (getArrowPoints_no_direction element Hp) as (tx & ty & E).
  unfold hitTest. rewrite Ht, E. reflexivity.
Qed.
End ArrowHitMore.

Section RotateMore.
Import Number Geometry GeometrySpec.
Local Open Scope R_scope.

(** X21.  [rotate] turns the point [(x1, y1)] about the centre
    [(x2, y2)]: the image is as far from the centre as the point, turning by
    [a] and then by [b] is turning by [a + b], and turning by 0 leaves the
    point where it is. *)
Theorem rotate_about_centre :
  forall x1 y1 x2 y2 a b : R,
    exists x' y',
      rotate (Fin x1) (Fin y1) (Fin x2) (Fin y2) (Fin a) = (Fin x', Fin y')
      /\ segmentLength (x2, y2) (x', y') = segmentLength (x2, y2) (x1, y1)
      /\ rotate (Fin x') (Fin y') (Fin x2) (Fin y2) (Fin b)
         = rotate (Fin x1) (Fin y1) (Fin x2) (Fin y2) (Fin (a + b))
      /\ rotate (Fin x1) (Fin y1) (Fin x2) (Fin y2) (Fin 0)
         = (Fin x1, Fin y1).
Proof.
  intros x1 y1 x2 y2 a b. unfold rotate.
  cbn [nadd nsub nmul ncos nsin lift1 lift2].
  eexists. eexists. split; [reflexivity|]. split; [|split].
  - unfold segmentLength. cbn [fst snd]. f_equal.
    pose proof (sin2_cos2 a) as H. unfold Rsqr in H.
    transitivity (((x1 - x2) * (x1 - x2) + (y1 - y2) * (y1 - y2))
                  * (sin a * sin a + cos a * cos a));
      [ring | rewrite H; ring].
  - rewrite cos_plus, sin_plus. f_equal; f_equal; ring.
  - rewrite cos_0, sin_0. f_equal; f_equal; ring.
Qed.
End RotateMore.

(** ** The element at a position *)

Section LookupFacts.
Import Number Bounds Comparisons SceneSpec.
Context {Shape : Type}.
Implicit Types (elements : list (Scene.element Shape)).

Lemma getElementAtPosition_loop_app count : forall elements more f,
  count <= List.length elements ->
  getElementAtPosition_loop count (elements ++ more) f
  = getElementAtPosition_loop count elements f.
Proof.
  induction count as [|i IH]; intros elements more f Hc; [reflexivity|].
  cbn [getElementAtPosition_loop].
  rewrite nth_error_app1 by lia.
  destruct (nth_error elements i) as [e|]; [|reflexivity].
  rewrite IH by lia. reflexivity.
Qed.

(** The element in front is looked at first. *)
Lemma getElementAtPosition_snoc elements e f :
  getElementAtPosition (elements ++ [e]) f
  = if Scene.isDeleted e then getElementAtPosition elements f
    else match f e with
         | Throws error => Throws error
         | Returns true => Returns (Some e)
         | Returns false => getElementAtPosition elements f
         end.
Proof.
  unfold getElementAtPosition. rewrite length_app. cbn [List.length].
  rewrite Nat.add_1_r. cbn [getElementAtPosition_loop].
  rewrite nth_error_app2, Nat.sub_diag by lia. cbn [nth_error].
  now rewrite getElementAtPosition_loop_app by lia.
Qed.

Lemma getElementAtPosition_skip (front : list (Scene.element Shape)) :
  forall behind f,
  Forall (fun e => Scene.isDeleted e = true \/ f e = Returns false) front ->
  getElementAtPosition (behind ++ front) f = getElementAtPosition behind f.
Proof.
  induction front as [|e front IH] using rev_ind; intros behind f H.
  - now rewrite app_nil_r.
  - rewrite Forall_app in H. destruct H as [H He]. inversion_clear He.
    rewrite app_assoc, getElementAtPosition_snoc.
    destruct H0 as [-> | ->]; [now apply IH|].
    destruct (Scene.isDeleted e); now apply IH.
Qed.

(** What [getElementAtPosition] returns, by the elements from the front. *)
Lemma getElementAtPosition_cases elements f :
  (getElementAtPosition elements f = Returns None
   /\ Forall (fun e => Scene.isDeleted e = true \/ f e = Returns false)
        elements)
  \/ (exists behind e front,
         elements = behind ++ e :: front
         /\ Scene.isDeleted e = false
         /\ Forall (fun e => Scene.isDeleted e = true \/ f e = Returns false)
              front
         /\ ((f e = Returns true
              /\ getElementAtPosition elements f = Returns (Some e))
             \/ exists error,
                  f e = Throws error
                  /\ getElementAtPosition elements f = Throws error)).
Proof.
  induction elements as [|e0 elements IH] using rev_ind.
  - left. split; [reflexivity | constructor].
  - rewrite getElementAtPosition_snoc.
    assert (Hskip :
      Scene.isDeleted e0 = true \/ f e0 = Returns false ->
      (getElementAtPosition elements f = Returns None /\
       Forall (fun e => Scene.isDeleted e = true \/ f e = Returns false)
         (elements ++ [e0])) \/
      (exists behind e front,
         elements ++ [e0] = behind ++ e :: front /\
         Scene.isDeleted e = false /\
         Forall (fun e => Scene.isDeleted e = true \/ f e = Returns false)
           front /\
         (f e = Returns true /\
          getElementAtPosition elements f = Returns (Some e) \/
          (exists error,
             f e = Throws error /\
             getElementAtPosition elements f = Throws error)))).
    { intros H0. destruct IH as [[E H]|(behind & e & front & E & Hd & H & R)].
      - left. split; [assumption|]. apply Forall_app. split; [assumption|].
        now constructor.
      - right. exists behind, e, (front ++ [e0]). split.
        + now rewrite E, <- app_assoc.
        + split; [assumption|]. split; [|assumption].
          apply Forall_app. split; [assumption | now constructor]. }
    destruct (Scene.isDeleted e0) eqn:Hd0; [apply Hskip; now left|].
    destruct (f e0) as [[|]|error] eqn:Hf.
    + right. exists elements, e0, [].
      split; [reflexivity|]. split; [assumption|]. split; [constructor|].
      now left.
    + apply Hskip. now right.
    + right. exists elements, e0, [].
      split; [reflexivity|]. split; [assumption|]. split; [constructor|].
      right. now exists error.
Qed.
End LookupFacts.

Section LookupMore.
Import JsArray ZIndex ZIndexSpec Number Bounds Comparisons SceneSpec.
Local Open Scope R_scope.

(** X22.  [getElementAtPosition] returns the front-most element, that is
    the last one of the array, that is not deleted and for which the
    callback returns true: a deleted element is never returned and the
    callback is not asked about it.  It returns [null] when no element
    qualifies, and an exception of the callback is passed on when it comes
    before an answer. *)
Theorem getElementAtPosition_front_most :
  forall (Shape : Type) (elements : list (Scene.element Shape))
         (isAtPositionFn : Scene.element Shape -> outcome bool),
    let missed e :=
      Scene.isDeleted e = true \/ isAtPositionFn e = Returns false in
    (forall e,
        getElementAtPosition elements isAtPositionFn = Returns (Some e)
        <-> frontMost
              (fun e => Scene.isDeleted e = false
                        /\ isAtPositionFn e = Returns true)
              missed elements e)
    /\ (getElementAtPosition elements isAtPositionFn = Returns None
        <-> Forall missed elements)
    /\ (forall error,
           getElementAtPosition elements isAtPositionFn = Throws error
           <-> exists e,
                 frontMost
                   (fun e => Scene.isDeleted e = false
                             /\ isAtPositionFn e = Throws error)
                   missed elements e).
Proof.
  intros Shape elements f missed.
  assert (Hfound : forall behind e front,
             Forall missed front ->
             getElementAtPosition (behind ++ e :: front) f
             = getElementAtPosition (behind ++ [e]) f).
  { intros behind e front H.
    replace (behind ++ e :: front) with ((behind ++ [e]) ++ front)
      by (now rewrite <- app_assoc).
    now apply getElementAtPosition_skip. }
  assert (Hnone : Forall missed elements ->
                  getElementAtPosition elements f = Returns None).
  { intros H. exact (getElementAtPosition_skip elements [] f H). }
  pose proof (getElementAtPosition_cases elements f) as Hcases.
  split; [|split].
  - intros e. split.
    + intros E.
      destruct Hcases as [[E' _]|(behind & e' & front & -> & Hd & H & R)];
        [congruence|].
      destruct R as [[Hf E']|(error & _ & E')]; [|congruence].
      assert (e' = e) as -> by congruence.
      now exists behind, front.
    + intros (behind & front & -> & [Hd Hf] & H).
      rewrite Hfound by assumption.
      now rewrite getElementAtPosition_snoc, Hd, Hf.
  - split; [|exact Hnone].
    intros E.
    destruct Hcases as [[_ H]|(behind & e' & front & -> & Hd & H & R)];
      [assumption|].
    destruct R as [[_ E']|(error & _ & E')]; congruence.
  - intros error. split.
    + intros E.
      destruct Hcases as [[E' _]|(behind & e' & front & -> & Hd & H & R)];
        [congruence|].
      destruct R as [[_ E']|(error' & Hf & E')]; [congruence|].
      assert (error' = error) as -> by congruence.
      exists e'. now exists behind, front.
    + intros (e & behind & front & -> & [Hd Hf] & H).
      rewrite Hfound by assumption.
      now rewrite getElementAtPosition_snoc, Hd, Hf.
Qed.

End LookupMore.

(** ** The hit test and the element at a position in double precision *)

Section HitTestDouble.
Import QArith Qpower.
Import Floats Float64 Float64Spec.
Local Open Scope Z_scope.

(** X17.  For a text whose position and size are multiples of [2 ^ - k] of
    at most 50 bits, [hitTest] returns true exactly at the points of the
    box [x, y, x + width, y + height], its sides included.  Width and
    height are not normalised: a text of negative width or height is hit
    nowhere, and neither is a rectangle with a background whose width or
    height is -20 or less. *)
Theorem hitTest_negative_size :
  forall (hypot : float -> float -> float) (floor : float -> float)
         (min : float -> float -> float) (cos sin : float -> float)
         (getLinearElementAbsoluteBounds : Element.t -> list float)
         (hitTestEllipse : Element.t -> float -> float -> bool)
         (element : Element.t) (k x1 y1 width height : Z),
    0 <= k <= 49 ->
    Forall (fun n => Z.abs n <= 2 ^ 50) [x1; y1; width; height] ->
    Element.x element = grid k x1 ->
    Element.y element = grid k y1 ->
    Element.width element = grid k width ->
    Element.height element = grid k height ->
    forall x y : float,
      (Element.type element = "text"%string ->
       exists hit,
         hitTest hypot floor min cos sin getLinearElementAbsoluteBounds
           hitTestEllipse element x y
         = Returns hit
         /\ (hit = true
             <-> finite x = true /\ finite y = true
                 /\ (exact (Element.x element) <= exact x
                     /\ exact x
                        <= exact (Element.x element)
                           + exact (Element.width element)
                     /\ exact (Element.y element) <= exact y
                     /\ exact y
                        <= exact (Element.y element)
                           + exact (Element.height element))%Q)
         /\ (width < 0 \/ height < 0 -> hit = false))
      /\ (Element.type element = "rectangle"%string ->
          Element.backgroundColor element <> "transparent"%string ->
          width <= - 20 * 2 ^ k \/ height <= - 20 * 2 ^ k ->
          hitTest hypot floor min cos sin getLinearElementAbsoluteBounds
            hitTestEllipse element x y
          = Returns false).
Proof.
  intros hypot floor min cos sin lin ell element k x1 y1 width height
    Hk Hall Ex Ey Ew Eh x y.
  rewrite !Forall_cons_iff in Hall.
  destruct Hall as (Hx1 & Hy1 & Hw & Hh & _).
  assert (H50 : 0 < 2 ^ 50) by reflexivity.
  pose proof (threshold_small k Hk) as Hm.
  assert (Gx : onGrid k x1) by (apply onGrid_small; lia).
  assert (Gy : onGrid k y1) by (apply onGrid_small; lia).
  assert (Gxw : onGrid k (x1 + width)) by (apply onGrid_small; lia).
  assert (Gyh : onGrid k (y1 + height)) by (apply onGrid_small; lia).
  assert (Gw : onGrid k width) by (apply onGrid_small; lia).
  assert (Gh : onGrid k height) by (apply onGrid_small; lia).
  split.
  - intros Ht.
    rewrite (hitTest_text_eq _ _ _ _ _ _ _ element _ _ Ht).
    rewrite Ex, Ey, Ew, Eh.
    destruct (grid_sum k x1 width Hk Hx1 Hw) as (xh & Exh & Fxh & Vxh).
    destruct (grid_sum k y1 height Hk Hy1 Hh) as (yh & Eyh & Fyh & Vyh).
    rewrite Exh, Eyh.
    pose proof (finite_grid k x1 Gx) as Fxl.
    pose proof (finite_grid k y1 Gy) as Fyl.
    eexists. split; [reflexivity|].
    assert (Hiff :
      ((PrimFloat.leb (grid k x1) x && PrimFloat.leb x xh
        && PrimFloat.leb (grid k y1) y && PrimFloat.leb y yh)%bool = true
       <-> finite x = true /\ finite y = true
           /\ (exact (grid k x1) <= exact x
               /\ exact x <= exact (grid k x1) + exact (grid k width)
               /\ exact (grid k y1) <= exact y
               /\ exact y <= exact (grid k y1) + exact (grid k height))%Q)).
    { rewrite <- Vxh, <- Vyh.
      destruct (finite x) eqn:Fx.
      - destruct (finite y) eqn:Fy.
        + rewrite !andb_true_iff, !leb_exact by assumption. tauto.
        + rewrite <- !andb_assoc.
          rewrite (not_finite_not_within _ yh y Fyl Fyh Fy), !andb_false_r.
          split; [discriminate | intros (_ & H & _); discriminate H].
      - rewrite (not_finite_not_within _ xh x Fxl Fxh Fx).
        split; [discriminate | intros (H & _); discriminate H]. }
    split; [exact Hiff|].
    intros Hneg.
    apply not_true_is_false. intros E. apply Hiff in E.
    destruct E as (_ & _ & Hx & Hx' & Hy & Hy').
    rewrite !grid_exact in * by assumption.
    assert (P : (0 < Qpower 2 (- k))%Q) by apply Qpower2_pos.
    assert (Hwx : (0 <= inject_Z width * Qpower 2 (- k))%Q).
    { apply (Qplus_le_r _ _ (inject_Z x1 * Qpower 2 (- k))).
      rewrite Qplus_0_r. eapply Qle_trans; eassumption. }
    assert (Hhy : (0 <= inject_Z height * Qpower 2 (- k))%Q).
    { apply (Qplus_le_r _ _ (inject_Z y1 * Qpower 2 (- k))).
      rewrite Qplus_0_r. eapply Qle_trans; eassumption. }
    rewrite <- (Qmult_0_l (Qpower 2 (- k))) in Hwx, Hhy.
    apply Qmult_le_r in Hwx, Hhy; try assumption.
    change 0%Q with (inject_Z 0) in Hwx, Hhy.
    rewrite <- Zle_Qle in Hwx, Hhy. lia.
  - intros Ht Hb Hneg.
    rewrite (hitTest_filled_rectangle_eq _ _ _ _ _ _ _ element _ _ Ht Hb).
    rewrite Ex, Ey, Ew, Eh, <- (grid_ten k) by lia.
    rewrite !grid_add, !grid_sub by (apply onGrid_small; lia).
    f_equal.
    set (xl := grid k (x1 - 10 * 2 ^ k)).
    set (xh := grid k (x1 + width + 10 * 2 ^ k)).
    set (yl := grid k (y1 - 10 * 2 ^ k)).
    set (yh := grid k (y1 + height + 10 * 2 ^ k)).
    assert (Fxl : finite xl = true)
      by (apply finite_grid; apply onGrid_small; lia).
    assert (Fxh : finite xh = true)
      by (apply finite_grid; apply onGrid_small; lia).
    assert (Fyl : finite yl = true)
      by (apply finite_grid; apply onGrid_small; lia).
    assert (Fyh : finite yh = true)
      by (apply finite_grid; apply onGrid_small; lia).
    assert (Hempty : forall a b p : float,
              finite a = true -> finite b = true ->
              (exact b <= exact a)%Q ->
              (PrimFloat.ltb a p && PrimFloat.ltb p b)%bool = false).
    { intros a b p Fa Fb Hba.
      destruct (finite p) eqn:Fp;
        [|now apply not_finite_not_between].
      destruct (PrimFloat.ltb a p && PrimFloat.ltb p b)%bool eqn:E;
        [|reflexivity].
      exfalso. apply andb_true_iff in E. destruct E as [E1 E2].
      apply ltb_exact in E1, E2; try assumption.
      apply (Qlt_irrefl (exact p)).
      eapply Qlt_le_trans; [exact E2|].
      eapply Qle_trans; [exact Hba|]. now apply Qlt_le_weak. }
    assert (Hle : forall a b, onGrid k a -> onGrid k b -> a <= b ->
              (exact (grid k a) <= exact (grid k b))%Q).
    { intros a b Ga Gb Hab. rewrite !grid_exact by assumption.
      apply Qmult_le_r; [apply Qpower2_pos|]. now rewrite <- Zle_Qle. }
    destruct Hneg as [Hneg|Hneg].
    + rewrite (Hempty xl xh x Fxl Fxh); [reflexivity|].
      apply Hle; try (apply onGrid_small; lia). lia.
    + rewrite <- andb_assoc.
      rewrite (Hempty yl yh y Fyl Fyh); [apply andb_false_r|].
      apply Hle; try (apply onGrid_small; lia). lia.
Qed.
End HitTestDouble.

Section BoxFacts.
Import QArith Qpower.
Import Floats Float64 Float64Spec.
Local Open Scope Z_scope.

Lemma containsPosition_box k x y e :
  0 <= k <= 49 -> gridElement k e ->
  containsPosition x y e = true <-> insideBox x y e.
Proof.
  intros Hk (x1 & y1 & width & height & Hall & Ex & Ey & Ew & Eh).
  rewrite !Forall_cons_iff in Hall.
  destruct Hall as (Hx1 & Hy1 & Hw & Hh & _).
  assert (H50 : 0 < 2 ^ 50) by reflexivity.
  unfold containsPosition, insideBox. rewrite Ex, Ey, Ew, Eh.
  destruct (grid_sum k x1 width Hk Hx1 Hw) as (xh & -> & Fxh & Vxh).
  destruct (grid_sum k y1 height Hk Hy1 Hh) as (yh & -> & Fyh & Vyh).
  rewrite <- Vxh, <- Vyh.
  assert (Fxl : finite (grid k x1) = true)
    by (apply finite_grid; apply onGrid_small; lia).
  assert (Fyl : finite (grid k y1) = true)
    by (apply finite_grid; apply onGrid_small; lia).
  destruct (finite x) eqn:Fx.
  - destruct (finite y) eqn:Fy.
    + rewrite !andb_true_iff, !ltb_exact by assumption. tauto.
    + rewrite <- !andb_assoc.
      rewrite (not_finite_not_between _ yh y Fyl Fyh Fy), !andb_false_r.
      split; [discriminate | intros (_ & H & _); discriminate H].
  - rewrite (not_finite_not_between _ xh x Fxl Fxh Fx).
    split; [discriminate | intros (H & _); discriminate H].
Qed.
End BoxFacts.

Section ContainingFacts.
Import QArith Qpower.
Import Floats Float64 Float64Spec.
Local Open Scope Z_scope.
Variable getLinearElementAbsoluteBounds : Element.t -> list float.

Lemma containing_loop_app count : forall elements more x y,
  (count <= List.length elements)%nat ->
  getElementContainingPosition_loop getLinearElementAbsoluteBounds count
    (elements ++ more) x y
  = getElementContainingPosition_loop getLinearElementAbsoluteBounds count
      elements x y.
Proof.
  induction count as [|i IH]; intros elements more x y H; [reflexivity|].
  cbn [getElementContainingPosition_loop].
  rewrite nth_error_app1 by lia.
  now rewrite !IH by lia.
Qed.

Lemma containing_snoc elements e x y :
  notLinear e ->
  getElementContainingPosition getLinearElementAbsoluteBounds
    (elements ++ [e]) x y
  = if (Element.isDeleted e || negb (containsPosition x y e))%bool
    then getElementContainingPosition getLinearElementAbsoluteBounds
           elements x y
    else Returns (Some e).
Proof.
  intros [H1 H2]. apply String.eqb_neq in H1, H2.
  unfold getElementContainingPosition. rewrite length_app.
  cbn [List.length]. rewrite Nat.add_1_r.
  cbn [getElementContainingPosition_loop].
  rewrite nth_error_app2, Nat.sub_diag by lia. cbn [nth_error].
  rewrite containing_loop_app by lia.
  unfold getElementAbsoluteCoords. rewrite H1, H2.
  cbn [orb item nth]. fold (containsPosition x y e).
  destruct (Element.isDeleted e); [reflexivity|].
  now destruct (containsPosition x y e).
Qed.

End ContainingFacts.

Section LookupDouble.
Import QArith Qpower.
Import Floats Float64 Float64Spec.
Local Open Scope Z_scope.

(** X23.  In a scene without arrows and lines, whose elements have
    positions and sizes that are multiples of [2 ^ - k] of at most 50
    bits, [getElementContainingPosition] returns the front-most element
    that is not deleted and whose box [x, y, x + width, y + height] has the
    point strictly inside, and [null] when there is none, whatever doubles
    the coordinates of the point are. *)
Theorem getElementContainingPosition_front_most :
  forall (getLinearElementAbsoluteBounds : Element.t -> list float)
         (k : Z) (elements : list Element.t) (x y : float),
    0 <= k <= 49 ->
    Forall (fun e => notLinear e /\ gridElement k e) elements ->
    let missed e := Element.isDeleted e = true \/ ~ insideBox x y e in
    (getElementContainingPosition getLinearElementAbsoluteBounds elements
       x y = Returns None
     /\ Forall missed elements)
    \/ (exists e,
          getElementContainingPosition getLinearElementAbsoluteBounds
            elements x y = Returns (Some e)
          /\ SceneSpec.frontMost
               (fun e => Element.isDeleted e = false /\ insideBox x y e)
               missed elements e).
Proof.
  intros lin k elements x y Hk Hall missed.
  induction elements as [|e0 elements IH] using rev_ind.
  - left. split; [reflexivity | constructor].
  - apply Forall_app in Hall. destruct Hall as [Hall He0].
    inversion_clear He0 as [|? ? [Hlin Hgrid] _].
    specialize (IH Hall).
    rewrite (containing_snoc lin elements e0 x y Hlin).
    destruct (Element.isDeleted e0) eqn:Hd; cbn [orb].
    + destruct IH as [[E H]|(e & E & behind & front & Es & Hp & Hf)].
      * left. split; [assumption|]. apply Forall_app.
        split; [assumption|]. constructor; [now left | constructor].
      * right. exists e. split; [assumption|].
        exists behind, (front ++ [e0]). split;
          [now rewrite Es, <- app_assoc|].
        split; [assumption|]. apply Forall_app.
        split; [assumption|]. constructor; [now left | constructor].
    + destruct (containsPosition x y e0) eqn:Hc; cbn [negb].
      * right. exists e0. split; [reflexivity|].
        exists elements, []. split; [reflexivity|].
        split; [|constructor]. split; [assumption|].
        now apply (containsPosition_box k x y e0 Hk Hgrid).
      * assert (Hm : missed e0).
        { right. intros Hi.
          apply (containsPosition_box k x y e0 Hk Hgrid) in Hi.
          congruence. }
        destruct IH as [[E H]|(e & E & behind & front & Es & Hp & Hf)].
        -- left. split; [assumption|]. apply Forall_app.
           split; [assumption|]. constructor; [assumption | constructor].
        -- right. exists e. split; [assumption|].
           exists behind, (front ++ [e0]). split;
             [now rewrite Es, <- app_assoc|].
           split; [assumption|]. apply Forall_app.
           split; [assumption|]. constructor; [assumption | constructor].
Qed.
End LookupDouble.

(** ** Bounding boxes *)

Section LimitFacts.
Import Number Bounds.
Local Open Scope R_scope.
Context {A : Type}.
Variable g : A -> R.

Lemma fold_xmin_finite l : forall m0,
  exists m,
    fold_left (fun acc a => xmin acc (Finite (Fin (g a)))) l
      (Finite (Fin m0)) = Finite (Fin m)
    /\ m <= m0
    /\ Forall (fun a => m <= g a) l
    /\ (m = m0 \/ Exists (fun a => m = g a) l).
Proof.
  induction l as [|a l IH]; intros m0.
  - exists m0. split; [reflexivity|]. split; [lra|].
    split; [constructor | now left].
  - cbn [fold_left xmin].
    destruct (IH (Rmin m0 (g a))) as (m & E & Hle & Hall & Hex).
    exists m. split; [exact E|].
    pose proof (Rmin_l m0 (g a)). pose proof (Rmin_r m0 (g a)).
    split; [lra|]. split; [constructor; [lra | assumption]|].
    destruct Hex as [->|Hex]; [|right; now constructor 2].
    unfold Rmin. destruct (Rle_dec m0 (g a)); [now left|].
    right. now constructor.
Qed.

Lemma fold_xmin_start l :
  l <> [] ->
  exists m,
    fold_left (fun acc a => xmin acc (Finite (Fin (g a)))) l Infinity
    = Finite (Fin m)
    /\ Forall (fun a => m <= g a) l
    /\ Exists (fun a => m = g a) l.
Proof.
  destruct l as [|a l]; [contradiction|]. intros _.
  cbn [fold_left xmin].
  destruct (fold_xmin_finite l (g a)) as (m & E & Hle & Hall & Hex).
  exists m. split; [exact E|]. split; [now constructor|].
  destruct Hex as [->|Hex]; [now constructor | now constructor 2].
Qed.

Lemma fold_xmax_finite l : forall m0,
  exists m,
    fold_left (fun acc a => xmax acc (Finite (Fin (g a)))) l
      (Finite (Fin m0)) = Finite (Fin m)
    /\ m0 <= m
    /\ Forall (fun a => g a <= m) l
    /\ (m = m0 \/ Exists (fun a => m = g a) l).
Proof.
  induction l as [|a l IH]; intros m0.
  - exists m0. split; [reflexivity|]. split; [lra|].
    split; [constructor | now left].
  - cbn [fold_left xmax].
    destruct (IH (Rmax m0 (g a))) as (m & E & Hle & Hall & Hex).
    exists m. split; [exact E|].
    pose proof (Rmax_l m0 (g a)). pose proof (Rmax_r m0 (g a)).
    split; [lra|]. split; [constructor; [lra | assumption]|].
    destruct Hex as [->|Hex]; [|right; now constructor 2].
    unfold Rmax. destruct (Rle_dec m0 (g a)); [|now left].
    right. now constructor.
Qed.

Lemma fold_xmax_start l :
  l <> [] ->
  exists m,
    fold_left (fun acc a => xmax acc (Finite (Fin (g a)))) l NegInfinity
    = Finite (Fin m)
    /\ Forall (fun a => g a <= m) l
    /\ Exists (fun a => m = g a) l.
Proof.
  destruct l as [|a l]; [contradiction|]. intros _.
  cbn [fold_left xmax].
  destruct (fold_xmax_finite l (g a)) as (m & E & Hle & Hall & Hex).
  exists m. split; [exact E|]. split; [now constructor|].
  destruct Hex as [->|Hex]; [now constructor | now constructor 2].
Qed.
End LimitFacts.

Section BoundsFacts.
Import Number Bounds SceneSpec.
Local Open Scope R_scope.
Context {Shape : Type}.
Variable curveBounds : Shape -> Scene.element Shape -> list xnum.

(** The reduction over the points keeps four independent bounds. *)
Lemma pointLimits_fold points : forall limits,
  fold_left pointLimits points limits
  = {| minX := fold_left (fun acc p => xmin acc (Finite (Fin (fst p))))
                 points (minX limits);
       minY := fold_left (fun acc p => xmin acc (Finite (Fin (snd p))))
                 points (minY limits);
       maxX := fold_left (fun acc p => xmax acc (Finite (Fin (fst p))))
                 points (maxX limits);
       maxY := fold_left (fun acc p => xmax acc (Finite (Fin (snd p))))
                 points (maxY limits) |}.
Proof.
  induction points as [|[x y] points IH]; intros limits;
    [now destruct limits|].
  cbn [fold_left]. rewrite IH. reflexivity.
Qed.

Lemma commonLimits_fold (elements : list (Scene.element Shape)) :
  Forall (fun e => notLinear (Scene.base e)) elements ->
  forall limits,
    fold_left (commonLimits curveBounds) elements limits
    = {| minX := fold_left
                   (fun acc e =>
                      xmin acc (Finite (Fin (Element.x (Scene.base e)))))
                   elements (minX limits);
         minY := fold_left
                   (fun acc e =>
                      xmin acc (Finite (Fin (Element.y (Scene.base e)))))
                   elements (minY limits);
         maxX := fold_left
                   (fun acc e =>
                      xmax acc
                        (Finite (Fin (Element.x (Scene.base e)
                                      + Element.width (Scene.base e)))))
                   elements (maxX limits);
         maxY := fold_left
                   (fun acc e =>
                      xmax acc
                        (Finite (Fin (Element.y (Scene.base e)
                                      + Element.height (Scene.base e)))))
                   elements (maxY limits) |}.
Proof.
  induction 1 as [|e elements [H1 H2] _ IH]; intros limits;
    [now destruct limits|].
  cbn [fold_left]. rewrite IH. unfold commonLimits, getElementAbsoluteCoords.
  apply String.eqb_neq in H1, H2. rewrite H1, H2. reflexivity.
Qed.
End BoundsFacts.

Section BoundsMore.
Import Number Bounds SceneSpec.
Local Open Scope R_scope.

(** X24.  For elements that are neither arrows nor lines, the box that
    [getCommonBounds] returns holds the box [x, y, x + width, y + height]
    of every element, and each of its sides is a side of one of them.  With
    no element at all the box is [Infinity, Infinity, -Infinity,
    -Infinity]. *)
Theorem getCommonBounds_box :
  forall (Shape : Type)
         (curveBounds : Shape -> Scene.element Shape -> list xnum)
         (elements : list (Scene.element Shape)),
    Forall (fun e => notLinear (Scene.base e)) elements ->
    (elements = [] ->
     getCommonBounds curveBounds elements
     = [Infinity; Infinity; NegInfinity; NegInfinity])
    /\ (elements <> [] ->
        exists x1 y1 x2 y2,
          getCommonBounds curveBounds elements
          = [Finite (Fin x1); Finite (Fin y1); Finite (Fin x2);
             Finite (Fin y2)]
          /\ Forall
               (fun e =>
                  x1 <= Element.x (Scene.base e)
                  /\ y1 <= Element.y (Scene.base e)
                  /\ Element.x (Scene.base e) + Element.width (Scene.base e)
                     <= x2
                  /\ Element.y (Scene.base e)
                     + Element.height (Scene.base e) <= y2) elements
          /\ Exists (fun e => x1 = Element.x (Scene.base e)) elements
          /\ Exists (fun e => y1 = Element.y (Scene.base e)) elements
          /\ Exists
               (fun e =>
                  x2 = Element.x (Scene.base e)
                       + Element.width (Scene.base e)) elements
          /\ Exists
               (fun e =>
                  y2 = Element.y (Scene.base e)
                       + Element.height (Scene.base e)) elements).
Proof.
  intros Shape cb elements Hlin. split; [now intros ->|].
  intros Hne. unfold getCommonBounds.
  rewrite (commonLimits_fold cb elements Hlin). cbn [minX minY maxX maxY].
  destruct (fold_xmin_start (fun e => Element.x (Scene.base e)) elements Hne)
    as (x1 & -> & A1 & B1).
  destruct (fold_xmin_start (fun e => Element.y (Scene.base e)) elements Hne)
    as (y1 & -> & A2 & B2).
  destruct (fold_xmax_start
              (fun e => Element.x (Scene.base e)
                        + Element.width (Scene.base e)) elements Hne)
    as (x2 & -> & A3 & B3).
  destruct (fold_xmax_start
              (fun e => Element.y (Scene.base e)
                        + Element.height (Scene.base e)) elements Hne)
    as (y2 & -> & A4 & B4).
  exists x1, y1, x2, y2. split; [reflexivity|].
  split; [|now repeat split].
  rewrite Forall_forall in *. intros e He.
  specialize (A1 e He). specialize (A2 e He).
  specialize (A3 e He). specialize (A4 e He). cbv beta in *. lra.
Qed.

(** X25.  For a linear element that has fewer than two points, or for
    which no shape is cached, [getLinearElementAbsoluteBounds] returns the
    smallest box that holds its points, moved to the element's position:
    every point is inside and each side goes through a point.  Without any
    point the box is [Infinity, Infinity, -Infinity, -Infinity]. *)
Theorem getLinearElementAbsoluteBounds_points :
  forall (Shape : Type)
         (curveBounds : Shape -> Scene.element Shape -> list xnum)
         (element : Scene.element Shape),
    let points := Element.points (Scene.base element) in
    let x := Element.x (Scene.base element) in
    let y := Element.y (Scene.base element) in
    (List.length points < 2)%nat \/ Scene.shape element = None ->
    (points = [] ->
     getLinearElementAbsoluteBounds curveBounds element
     = [Infinity; Infinity; NegInfinity; NegInfinity])
    /\ (points <> [] ->
        exists x1 y1 x2 y2,
          getLinearElementAbsoluteBounds curveBounds element
          = [Finite (Fin (x1 + x)); Finite (Fin (y1 + y));
             Finite (Fin (x2 + x)); Finite (Fin (y2 + y))]
          /\ Forall
               (fun p => x1 <= fst p <= x2 /\ y1 <= snd p <= y2) points
          /\ Exists (fun p => x1 = fst p) points
          /\ Exists (fun p => y1 = snd p) points
          /\ Exists (fun p => x2 = fst p) points
          /\ Exists (fun p => y2 = snd p) points).
Proof.
  intros Shape cb element points x y Hbranch.
  assert (E : getLinearElementAbsoluteBounds cb element
              = let limits :=
                  fold_left pointLimits points
                    {| minX := Infinity; minY := Infinity;
                       maxX := NegInfinity; maxY := NegInfinity |} in
                [xadd (minX limits) (Finite (Fin x));
                 xadd (minY limits) (Finite (Fin y));
                 xadd (maxX limits) (Finite (Fin x));
                 xadd (maxY limits) (Finite (Fin y))]).
  { unfold getLinearElementAbsoluteBounds. fold points x y.
    destruct Hbranch as [H| ->].
    - apply Nat.ltb_lt in H. now rewrite H.
    - now destruct (Nat.ltb (List.length points) 2). }
  rewrite E. cbv zeta. rewrite pointLimits_fold. cbn [minX minY maxX maxY].
  split; [now intros ->|]. intros Hne.
  destruct (fold_xmin_start fst points Hne) as (x1 & -> & A1 & B1).
  destruct (fold_xmin_start snd points Hne) as (y1 & -> & A2 & B2).
  destruct (fold_xmax_start fst points Hne) as (x2 & -> & A3 & B3).
  destruct (fold_xmax_start snd points Hne) as (y2 & -> & A4 & B4).
  exists x1, y1, x2, y2. split; [reflexivity|].
  split; [|now repeat split].
  rewrite Forall_forall in *. intros p Hp.
  specialize (A1 p Hp). specialize (A2 p Hp).
  specialize (A3 p Hp). specialize (A4 p Hp). cbv beta in *. lra.
Qed.
End BoundsMore.

(** ** Restacking and the element at a position *)

Section FrontMore.
Import JsArray ZIndex ZIndexSpec Comparisons SceneSpec.
Local Open Scope Z_scope.

Lemma aget_of_list {T} (l : list T) i e :
  nth_error l i = Some e -> aget (of_list l) (Z.of_nat i) = Some e.
Proof.
  intros H. unfold aget, of_list. cbn [slots props].
  destruct (Z.ltb_spec (Z.of_nat i) 0); [lia|]. rewrite Nat2Z.id.
  apply nth_error_nth. now rewrite nth_error_map, H.
Qed.

(** X26.  Bringing an element to the front with [moveAllRight] makes it the
    one that [getElementAtPosition] finds, wherever the callback is true of
    it: the element becomes the last of the array, behind it the others
    keep their order, and the search starts from the last. *)
Theorem brought_to_front_is_found :
  forall (Shape : Type) (elements : list (Scene.element Shape)) (i : nat)
         (e : Scene.element Shape)
         (isAtPositionFn : Scene.element Shape -> outcome bool),
    nth_error elements i = Some e ->
    Scene.isDeleted e = false ->
    isAtPositionFn e = Returns true ->
    let restacked := firstn i elements ++ skipn (S i) elements ++ [e] in
    moveAllRight (of_list elements) [Z.of_nat i] = of_list restacked
    /\ getElementAtPosition restacked isAtPositionFn = Returns (Some e).
Proof.
  intros Shape elements i e f Hi Hd Hf restacked.
  assert (Hlen : (i < List.length elements)%nat)
    by (apply nth_error_Some; congruence).
  split.
  - rewrite moveAllRight_ascending.
    + unfold selected. cbn [map]. rewrite (aget_of_list elements i e Hi).
      rewrite (unselected_range (of_list elements) 1 i [Z.of_nat i]).
      * unfold of_list, restacked. cbn [slots props]. f_equal.
        rewrite !map_app, firstn_map, skipn_map, <- app_assoc.
        now rewrite Nat.add_1_r.
      * unfold of_list. cbn [slots]. rewrite length_map. lia.
      * intros k. cbn [In]. lia.
    + repeat constructor.
    + constructor; [|constructor].
      unfold length, of_list. cbn [slots]. rewrite length_map. lia.
  - unfold restacked. rewrite app_assoc, getElementAtPosition_snoc.
    now rewrite Hd, Hf.
Qed.
End FrontMore.

(** ** Resizing by the handles of the box *)

Section EdgeFacts.
Import Resize ResizeSpec EdgeSpec.
Local Open Scope R_scope.



End EdgeFacts.

Section ResizeMore.
Import Resize ResizeSpec EdgeSpec CornerResize CornerSpec.
Local Open Scope R_scope.



(** X29.  A corner drag of a two-point arrow keeps one of its ends where it
    is on the canvas.  The function chosen at the first move is kept for
    the following ones; [arrowResizeOrigin] moves the origin and leaves the
    end in place, with and without shift, and [arrowResizeEnd] moves the
    end and leaves the origin in place.  Without shift the end that moves
    moves by the pointer delta. *)
Theorem arrow_corner_resize :
  forall (getPerfectElementSize : string -> R -> R -> R * R)
         (resizePerfectLineForNWHandler : Element.t -> R -> R -> Element.t)
         (resizeHandle : cornerHandle) (resizeArrowFn : option arrowFn)
         (element : Element.t) (p0 p1 : R * R) (deltaX deltaY x y : R)
         (shiftKey : bool),
    Element.type element = "arrow"%string ->
    Element.points element = [p0; p1] ->
    let result :=
      resizeCorner getPerfectElementSize resizePerfectLineForNWHandler
        resizeHandle resizeArrowFn element deltaX deltaY x y shiftKey in
    exists fn,
      fst result = Some fn
      /\ (forall chosen, resizeArrowFn = Some chosen -> fn = chosen)
      /\ match fn with
         | ArrowResizeOrigin =>
             endOnCanvas (snd result) = endOnCanvas element
             /\ (shiftKey = false ->
                 originOnCanvas (snd result)
                 = (fst (originOnCanvas element) + deltaX,
                    snd (originOnCanvas element) + deltaY))
         | ArrowResizeEnd =>
             originOnCanvas (snd result) = originOnCanvas element
             /\ (shiftKey = false ->
                 endOnCanvas (snd result)
                 = (fst (endOnCanvas element) + deltaX,
                    snd (endOnCanvas element) + deltaY))
         end.
Proof.
  intros gpes rpl resizeHandle fn0 element p0 p1 deltaX deltaY x y shiftKey
    Ht Hp result.
  subst result. unfold resizeCorner. rewrite Ht, Hp.
  cbn [String.eqb Ascii.eqb Bool.eqb List.length Nat.eqb andb nth fst snd].
  assert (Hcall : forall fn,
    match fn with
    | ArrowResizeOrigin =>
        endOnCanvas (callArrowFn gpes fn element deltaX deltaY x y shiftKey)
        = endOnCanvas element
        /\ (shiftKey = false ->
            originOnCanvas
              (callArrowFn gpes fn element deltaX deltaY x y shiftKey)
            = (fst (originOnCanvas element) + deltaX,
               snd (originOnCanvas element) + deltaY))
    | ArrowResizeEnd =>
        originOnCanvas
          (callArrowFn gpes fn element deltaX deltaY x y shiftKey)
        = originOnCanvas element
        /\ (shiftKey = false ->
            endOnCanvas
              (callArrowFn gpes fn element deltaX deltaY x y shiftKey)
            = (fst (endOnCanvas element) + deltaX,
               snd (endOnCanvas element) + deltaY))
    end).
  { intros [|]; cbn [callArrowFn];
      unfold arrowResizeOrigin, arrowResizeEnd, endOnCanvas, originOnCanvas;
      rewrite Hp; cbn [nth].
    - destruct shiftKey.
      + destruct (gpes _ _ _) as [width height].
        cbn [withPlace Element.points Element.x Element.y update nth fst snd].
        split; [f_equal; ring | discriminate].
      + cbn [withPlace Element.points Element.x Element.y update nth fst snd].
        split; [f_equal; ring | intros _; f_equal; ring].
    - destruct shiftKey.
      + destruct (gpes _ _ _) as [width height].
        cbn [withPlace Element.points Element.x Element.y update nth fst snd].
        split; [reflexivity | discriminate].
      + cbn [withPlace Element.points Element.x Element.y update nth fst snd].
        split; [reflexivity | intros _; f_equal; ring]. }
  destruct fn0 as [fn0|].
  - exists fn0. split; [reflexivity|]. split; [now intros ? [= ->]|].
    apply Hcall.
  - eexists. split; [reflexivity|]. split; [discriminate|]. apply Hcall.
Qed.
End ResizeMore.

(** ** The further properties at concrete inputs *)

Section RestackInstances.
Import JsArray ZIndex ZIndexSpec.
Local Open Scope Z_scope.

Lemma moveAllRight_selected_last_witness :
  ascending [1; 3]
  /\ inRange (of_list [10; 20; 30; 40; 50]%nat) [1; 3]
  /\ slots (moveAllRight (of_list [10; 20; 30; 40; 50]%nat) [1; 3])
     = map Some [10; 30; 50; 20; 40]%nat.
Proof.
  assert (Hasc : ascending [1; 3]) by (repeat constructor).
  assert (Hin : inRange (of_list [10; 20; 30; 40; 50]%nat) [1; 3])
    by (repeat constructor; cbv; discriminate).
  split; [exact Hasc|]. split; [exact Hin|].
  rewrite (proj2 moveAllRight_selected_last nat _ [1; 3] Hasc Hin).
  reflexivity.
Defined.

Lemma moveOneRight_one_slot_witness :
  ascending [1; 3; 4]
  /\ inRange (of_list [10; 20; 30; 40; 50]%nat) [1; 3; 4]
  /\ nth_error (rev [1; 3; 4]) 2 = Some 1
  /\ aget (moveOneRight (of_list [10; 20; 30; 40; 50]%nat) [1; 3; 4]) 2
     = Some 20%nat.
Proof.
  assert (Hasc : ascending [1; 3; 4]) by (repeat constructor).
  assert (Hin : inRange (of_list [10; 20; 30; 40; 50]%nat) [1; 3; 4])
    by (repeat constructor; cbv; discriminate).
  split; [exact Hasc|]. split; [exact Hin|]. split; [reflexivity|].
  exact (moveOneRight_one_slot nat _ [1; 3; 4] 2%nat 1 Hasc Hin eq_refl).
Defined.

Lemma moveOneLeft_undoes_moveOneRight_witness :
  ascending [1; 3]
  /\ Forall (fun index => 0 <= index
                          < length (of_list [10; 20; 30; 40; 50]%nat) - 1)
       [1; 3]
  /\ moveOneLeft (moveOneRight (of_list [10; 20; 30; 40; 50]%nat) [1; 3])
       [2; 4]
     = of_list [10; 20; 30; 40; 50]%nat.
Proof.
  assert (Hasc : ascending [1; 3]) by (repeat constructor).
  assert (Hin : Forall (fun index => 0 <= index
                          < length (of_list [10; 20; 30; 40; 50]%nat) - 1)
                  [1; 3])
    by (repeat constructor; cbv; discriminate).
  split; [exact Hasc|]. split; [exact Hin|].
  exact (moveOneLeft_undoes_moveOneRight nat _ [1; 3] Hasc Hin).
Defined.

Lemma restack_order_irrelevant_witness :
  Permutation [3; 1] [1; 3]
  /\ moveAllLeft (of_list [10; 20; 30; 40; 50]%nat) [3; 1]
     = moveAllLeft (of_list [10; 20; 30; 40; 50]%nat) [1; 3].
Proof.
  assert (Hp : Permutation [3; 1] [1; 3]) by apply perm_swap.
  split; [exact Hp|].
  exact (proj1 (proj2 (proj2 (restack_order_irrelevant nat
                                (of_list [10; 20; 30; 40; 50]%nat)
                                [3; 1] [1; 3] Hp)))).
Defined.

Lemma restack_already_in_place_witness :
  NoDup [1; 0]
  /\ 0 <= 2 <= length (of_list [10; 20; 30; 40; 50]%nat)
  /\ (forall index, In index [1; 0] <-> 0 <= index < 2)
  /\ moveAllLeft (of_list [10; 20; 30; 40; 50]%nat) [1; 0]
     = of_list [10; 20; 30; 40; 50]%nat.
Proof.
  assert (Hnd : NoDup [1; 0]).
  { repeat constructor; simpl; intros H;
      repeat (destruct H as [H|H]; try discriminate H); exact H. }
  assert (Hk : 0 <= 2 <= length (of_list [10; 20; 30; 40; 50]%nat))
    by (cbv; split; discriminate).
  assert (Hin : forall index, In index [1; 0] <-> 0 <= index < 2)
    by (intros index; cbn [In]; lia).
  split; [exact Hnd|]. split; [exact Hk|]. split; [exact Hin|].
  exact (proj2 (proj1 (restack_already_in_place nat _ [1; 0] 2 Hnd Hk) Hin)).
Defined.
End RestackInstances.

Section HistoryMoreInstances.
Import Json History HistorySpec.
Local Open Scope string_scope.

Lemma undo_redo_round_trip_witness :
  stateHistory (mkHistory true ["[]"; "[1]"] []) <> []
  /\ redoOnce (snd (undoOnce (mkHistory true ["[]"; "[1]"] [])))
     = (JArray [JNumber ["1"%char]], mkHistory true ["[]"; "[1]"] []).
Proof.
  assert (H : stateHistory (mkHistory true ["[]"; "[1]"] []) <> [])
    by discriminate.
  split; [exact H|].
  rewrite (proj1 (undo_redo_round_trip (mkHistory true ["[]"; "[1]"] [])) H).
  reflexivity.
Defined.

Lemma undo_redo_nothing_iff_empty_witness :
  stateHistory createHistory = []
  /\ fst (undoOnce createHistory) = JNull.
Proof.
  split; [reflexivity|].
  exact (proj1 (proj2 (undo_redo_nothing_iff_empty createHistory)) eq_refl).
Defined.

Lemma undo_redo_many_witness :
  2 <= List.length (stateHistory (mkHistory true ["[]"; "[1]"; "[2]"] []))
  /\ redoTimes 2 (undoTimes 2 (mkHistory true ["[]"; "[1]"; "[2]"] []))
     = mkHistory true ["[]"; "[1]"; "[2]"] [].
Proof.
  assert (H : 2 <= List.length
                     (stateHistory (mkHistory true ["[]"; "[1]"; "[2]"] [])))
    by (simpl; lia).
  split; [exact H|].
  exact (proj1 (undo_redo_many (mkHistory true ["[]"; "[1]"; "[2]"] []) 2 H)).
Defined.

Lemma reachable_no_repeat_witness :
  reachable (snd (undoOnce (pushEntry (pushEntry createHistory "[]") "[1]")))
  /\ noRepeat
       (timeline
          (snd (undoOnce (pushEntry (pushEntry createHistory "[]") "[1]")))).
Proof.
  assert (H : reachable
                (snd (undoOnce
                        (pushEntry (pushEntry createHistory "[]") "[1]"))))
    by (repeat constructor).
  split; [exact H|].
  exact (reachable_no_repeat _ H).
Defined.

Lemma pushEntry_on_top_witness :
  top (stateHistory (mkHistory true ["[]"] ["[2]"])) <> Some "[1]"
  /\ undoOnce (pushEntry (mkHistory true ["[]"] ["[2]"]) "[1]")
     = (JArray [], mkHistory true ["[]"] ["[1]"]).
Proof.
  assert (H : top (stateHistory (mkHistory true ["[]"] ["[2]"]))
              <> Some "[1]")
    by (vm_compute; discriminate).
  split; [exact H|].
  rewrite (proj2 (proj2 (pushEntry_on_top (mkHistory true ["[]"] ["[2]"])
                           "[1]")) H).
  reflexivity.
Defined.
End HistoryMoreInstances.

Section HitTestInstances.
Import Number Geometry GeometrySpec SegmentSpec.
Local Open Scope R_scope.
Local Open Scope string_scope.

Lemma hitTest_throws_witness :
  ~ In (Element.type (Element.mk "line" 0 0 100 50 "transparent" []))
      ["ellipse"; "rectangle"; "diamond"; "arrow"; "text"; "selection"]
  /\ hitTest (fun _ => []) (fun _ _ _ => false)
       (Element.mk "line" 0 0 100 50 "transparent" []) 50 25
     = Throws "Unimplemented type line".
Proof.
  assert (H : ~ In (Element.type
                      (Element.mk "line" 0 0 100 50 "transparent" []))
                ["ellipse"; "rectangle"; "diamond"; "arrow"; "text";
                 "selection"]).
  { cbn [In Element.type]. intros H.
    repeat (destruct H as [H|H]; try discriminate H). exact H. }
  split; [exact H|].
  exact (proj1 (hitTest_throws (fun _ => []) (fun _ _ _ => false)
                  (Element.mk "line" 0 0 100 50 "transparent" []) 50 25) H).
Defined.

Lemma arrow_without_direction_not_hit_witness :
  Element.type (Element.mk "arrow" 0 0 0 0 "transparent" [(0, 0)]) = "arrow"
  /\ ((exists before p,
          Element.points (Element.mk "arrow" 0 0 0 0 "transparent" [(0, 0)])
          = (before ++ [p; p])%list)
      \/ Element.points (Element.mk "arrow" 0 0 0 0 "transparent" [(0, 0)])
         = [(0, 0)])
  /\ hitTest (fun _ => []) (fun _ _ _ => false)
       (Element.mk "arrow" 0 0 0 0 "transparent" [(0, 0)]) 0 0
     = Returns false.
Proof.
  assert (Hp : (exists before p,
                   Element.points
                     (Element.mk "arrow" 0 0 0 0 "transparent" [(0, 0)])
                   = (before ++ [p; p])%list)
               \/ Element.points
                    (Element.mk "arrow" 0 0 0 0 "transparent" [(0, 0)])
                  = [(0, 0)]) by (right; reflexivity).
  split; [reflexivity|]. split; [exact Hp|].
  exact (arrow_without_direction_not_hit (fun _ => []) (fun _ _ _ => false)
           (Element.mk "arrow" 0 0 0 0 "transparent" [(0, 0)]) 0 0
           eq_refl Hp).
Defined.
End HitTestInstances.

Section SceneInstances.
Import JsArray ZIndex ZIndexSpec Number Bounds Comparisons SceneSpec.
Local Open Scope R_scope.
Local Open Scope string_scope.

Lemma getCommonBounds_box_witness :
  Forall (fun e : Scene.element unit => notLinear (Scene.base e))
    [Scene.mk (Element.mk "rectangle" 0 0 100 50 "#ffffff" []) false None]
  /\ [Scene.mk (Element.mk "rectangle" 0 0 100 50 "#ffffff" []) false
        (@None unit)] <> []
  /\ exists x1 y1 x2 y2,
       getCommonBounds (fun _ _ => [])
         [Scene.mk (Element.mk "rectangle" 0 0 100 50 "#ffffff" []) false
            (@None unit)]
       = [Finite (Fin x1); Finite (Fin y1); Finite (Fin x2); Finite (Fin y2)].
Proof.
  assert (Hlin : Forall
                   (fun e : Scene.element unit => notLinear (Scene.base e))
                   [Scene.mk (Element.mk "rectangle" 0 0 100 50 "#ffffff" [])
                      false None])
    by (repeat constructor; discriminate).
  assert (Hne : [Scene.mk (Element.mk "rectangle" 0 0 100 50 "#ffffff" [])
                   false (@None unit)] <> []) by discriminate.
  split; [exact Hlin|]. split; [exact Hne|].
  destruct (proj2 (getCommonBounds_box unit (fun _ _ => []) _ Hlin) Hne)
    as (x1 & y1 & x2 & y2 & E & _).
  exists x1, y1, x2, y2. exact E.
Defined.

Lemma getLinearElementAbsoluteBounds_points_witness :
  (Nat.lt
     (List.length
        (Element.points
           (Scene.base
              (Scene.mk
                 (Element.mk "arrow" 5 5 3 4 "transparent" [(0, 0); (3, 4)])
                 false (@None unit))))) 2
   \/ Scene.shape
        (Scene.mk (Element.mk "arrow" 5 5 3 4 "transparent" [(0, 0); (3, 4)])
           false (@None unit)) = None)
  /\ [(0, 0); (3, 4)] <> []
  /\ exists x1 y1 x2 y2,
       getLinearElementAbsoluteBounds (fun _ _ => [])
         (Scene.mk (Element.mk "arrow" 5 5 3 4 "transparent" [(0, 0); (3, 4)])
            false (@None unit))
       = [Finite (Fin (x1 + 5)); Finite (Fin (y1 + 5));
          Finite (Fin (x2 + 5)); Finite (Fin (y2 + 5))].
Proof.
  assert (Hb : Nat.lt
                 (List.length
                    (Element.points
                       (Scene.base
                          (Scene.mk
                             (Element.mk "arrow" 5 5 3 4 "transparent"
                                [(0, 0); (3, 4)])
                             false (@None unit))))) 2
               \/ Scene.shape
                    (Scene.mk
                       (Element.mk "arrow" 5 5 3 4 "transparent"
                          [(0, 0); (3, 4)])
                       false (@None unit)) = None) by (right; reflexivity).
  assert (Hne : [(0, 0); (3, 4)] <> []) by discriminate.
  split; [exact Hb|]. split; [exact Hne|].
  destruct (proj2 (getLinearElementAbsoluteBounds_points unit (fun _ _ => [])
                     _ Hb) Hne) as (x1 & y1 & x2 & y2 & E & _).
  exists x1, y1, x2, y2. exact E.
Defined.

Lemma brought_to_front_is_found_witness :
  nth_error
    [Scene.mk (Element.mk "rectangle" 0 0 100 50 "#ffffff" []) false
       (@None unit);
     Scene.mk (Element.mk "rectangle" 50 0 100 50 "#000000" []) false None]
    0
  = Some (Scene.mk (Element.mk "rectangle" 0 0 100 50 "#ffffff" []) false
            None)
  /\ getElementAtPosition
       [Scene.mk (Element.mk "rectangle" 50 0 100 50 "#000000" []) false
          (@None unit);
        Scene.mk (Element.mk "rectangle" 0 0 100 50 "#ffffff" []) false None]
       (fun _ => Returns true)
     = Returns
         (Some (Scene.mk (Element.mk "rectangle" 0 0 100 50 "#ffffff" [])
                  false None)).
Proof.
  split; [reflexivity|].
  exact (proj2 (brought_to_front_is_found unit
                  [Scene.mk (Element.mk "rectangle" 0 0 100 50 "#ffffff" [])
                     false None;
                   Scene.mk (Element.mk "rectangle" 50 0 100 50 "#000000" [])
                     false None]
                  0 _ (fun _ => Returns true) eq_refl eq_refl eq_refl)).
Defined.
End SceneInstances.

Section DoubleMoreInstances.
Import QArith Qpower.
Import Floats Float64 Float64Spec.
Local Open Scope float_scope.

(** A text of width -10 is not hit at (-5, 5), between its two vertical
    sides, and a rectangle with a background of width -20 is not hit at
    (-10, 5), in the middle of it. *)
Lemma hitTest_negative_size_witness :
  let text := Element.mk "text" 0 0 (-10) 20 "transparent" [] false in
  let rectangle := Element.mk "rectangle" 0 0 (-20) 20 "#ffffff" [] false in
  let nothing (_ _ : float) := PrimFloat.nan in
  (0 <= 0 <= 49)%Z
  /\ Forall (fun n => (Z.abs n <= 2 ^ 50)%Z) [0; 0; -10; 20]%Z
  /\ Forall (fun n => (Z.abs n <= 2 ^ 50)%Z) [0; 0; -20; 20]%Z
  /\ Element.width text = grid 0 (-10)
  /\ Element.width rectangle = grid 0 (-20)
  /\ (-10 < 0 \/ 20 < 0)%Z
  /\ (-20 <= - 20 * 2 ^ 0 \/ 20 <= - 20 * 2 ^ 0)%Z
  /\ hitTest nothing (fun f => f) nothing (fun f => f) (fun f => f)
       (fun _ => []) (fun _ _ _ => false) text (-5) 5
     = Returns false
  /\ hitTest nothing (fun f => f) nothing (fun f => f) (fun f => f)
       (fun _ => []) (fun _ _ _ => false) rectangle (-10) 5
     = Returns false.
Proof.
  intros text rectangle nothing.
  assert (Hk : (0 <= 0 <= 49)%Z) by lia.
  assert (Ht : Forall (fun n => (Z.abs n <= 2 ^ 50)%Z) [0; 0; -10; 20]%Z)
    by (repeat constructor; vm_compute; discriminate).
  assert (Hr : Forall (fun n => (Z.abs n <= 2 ^ 50)%Z) [0; 0; -20; 20]%Z)
    by (repeat constructor; vm_compute; discriminate).
  assert (Nt : (-10 < 0 \/ 20 < 0)%Z) by (left; lia).
  assert (Nr : (-20 <= - 20 * 2 ^ 0 \/ 20 <= - 20 * 2 ^ 0)%Z)
    by (left; simpl; lia).
  do 7 (split; [assumption || reflexivity|]).
  split.
  - destruct (proj1 (hitTest_negative_size nothing (fun f => f) nothing
                       (fun f => f) (fun f => f) (fun _ => [])
                       (fun _ _ _ => false) text 0 0 0 (-10) 20 Hk Ht
                       eq_refl eq_refl eq_refl eq_refl (-5) 5) eq_refl)%Z
      as (hit & E & _ & H).
    rewrite E. f_equal. exact (H Nt).
  - exact (proj2 (hitTest_negative_size nothing (fun f => f) nothing
                    (fun f => f) (fun f => f) (fun _ => [])
                    (fun _ _ _ => false) rectangle 0 0 0 (-20) 20 Hk Hr
                    eq_refl eq_refl eq_refl eq_refl (-10) 5)%Z
             eq_refl ltac:(discriminate) Nr).
Defined.

(** Two rectangles that overlap and a point of both: the one in front is
    returned. *)
Lemma getElementContainingPosition_front_most_witness :
  let behind := Element.mk "rectangle" 0 0 100 100 "#ffffff" [] false in
  let front := Element.mk "rectangle" 50 50 100 100 "#ffffff" [] false in
  (0 <= 0 <= 49)%Z
  /\ Forall (fun e => notLinear e /\ gridElement 0 e) [behind; front]
  /\ getElementContainingPosition (fun _ => []) [behind; front] 75 75.5
     = Returns (Some front).
Proof.
  intros behind front.
  assert (Hk : (0 <= 0 <= 49)%Z) by lia.
  assert (Hb : notLinear behind /\ gridElement 0 behind).
  { split; [split; discriminate|].
    exists 0%Z, 0%Z, 100%Z, 100%Z.
    split; [repeat constructor; vm_compute; discriminate|].
    repeat split. }
  assert (Hf : notLinear front /\ gridElement 0 front).
  { split; [split; discriminate|].
    exists 50%Z, 50%Z, 100%Z, 100%Z.
    split; [repeat constructor; vm_compute; discriminate|].
    repeat split. }
  assert (Hall : Forall (fun e => notLinear e /\ gridElement 0 e)
                   [behind; front])
    by (constructor; [exact Hb | constructor; [exact Hf | constructor]]).
  split; [exact Hk|]. split; [exact Hall|].
  assert (Hin : insideBox 75 75.5 front)
    by (repeat split; vm_compute; reflexivity).
  destruct (getElementContainingPosition_front_most (fun _ => []) 0
              [behind; front] 75 75.5 Hk Hall)
    as [[_ H]|(e & E & before & after & Es & _ & Hafter)].
  - exfalso. inversion_clear H as [|? ? _ H']. inversion_clear H' as [|? ? H _].
    destruct H as [H|H]; [discriminate H | exact (H Hin)].
  - rewrite E. f_equal. f_equal.
    destruct after as [|a after] using rev_ind.
    + change [behind; front] with ([behind] ++ [front]) in Es.
      apply app_inj_tail in Es. now destruct Es.
    + exfalso. clear IHafter.
      apply Forall_app in Hafter. destruct Hafter as [_ Ha].
      inversion_clear Ha as [|? ? Ha' _].
      assert (a = front) as ->.
      { replace (before ++ e :: after ++ [a])
          with ((before ++ e :: after) ++ [a]) in Es
          by (now rewrite <- app_assoc).
        change [behind; front] with ([behind] ++ [front]) in Es.
        apply app_inj_tail in Es. now destruct Es. }
      destruct Ha' as [H|H]; [discriminate H | exact (H Hin)].
Defined.
End DoubleMoreInstances.

Section CornerInstances.
Import Resize CornerResize CornerSpec.
Local Open Scope R_scope.
Local Open Scope string_scope.


Lemma arrow_corner_resize_witness :
  Element.type
    (Element.mk "arrow" 0 0 100 50 "transparent" [(0, 0); (100, 50)])
  = "arrow"
  /\ Element.points
       (Element.mk "arrow" 0 0 100 50 "transparent" [(0, 0); (100, 50)])
     = [(0, 0); (100, 50)]
  /\ exists fn,
       fst (resizeCorner (fun _ _ _ => (0, 0)) (fun e _ _ => e) handleSE
              None
              (Element.mk "arrow" 0 0 100 50 "transparent"
                 [(0, 0); (100, 50)]) 3 4 103 54 false)
       = Some fn.
Proof.
  split; [reflexivity|]. split; [reflexivity|].
  destruct (arrow_corner_resize (fun _ _ _ => (0, 0)) (fun e _ _ => e)
              handleSE None
              (Element.mk "arrow" 0 0 100 50 "transparent"
                 [(0, 0); (100, 50)]) (0, 0) (100, 50) 3 4 103 54 false
              eq_refl eq_refl) as (fn & E & _).
  exists fn. exact E.
Defined.
End CornerInstances.

Section OrderInstances.
Import JsArray ZIndex ZIndexSpec RestackSpec.
Local Open Scope Z_scope.

Lemma moveOneLeft_keeps_orders_witness :
  ascending [0; 2; 3]
  /\ inRange (of_list [10; 20; 30; 40; 50]%nat) [0; 2; 3]
  /\ unselected (moveOneLeft (of_list [10; 20; 30; 40; 50]%nat) [0; 2; 3])
       [0; 1; 2]
     = map Some [20; 50]%nat.
Proof.
  assert (Hasc : ascending [0; 2; 3]) by (repeat constructor).
  assert (Hin : inRange (of_list [10; 20; 30; 40; 50]%nat) [0; 2; 3])
    by (repeat constructor; cbv; discriminate).
  split; [exact Hasc|]. split; [exact Hin|].
  exact (proj2 (proj2 (moveOneLeft_keeps_orders nat _ [0; 2; 3] Hasc Hin))).
Defined.
End OrderInstances.
